(** * League data aggregation and layout partitioning

    A shallow embedding of the data core of the plug-in: the CSV reader and
    the header-indexed accessor of [logoHandler.js], the master-sheet
    resolver, the division join of [loadSchedule], the leaderboards of the
    stats panel and the chunking of the standings panel.

    Conventions of the embedding.
    - A JavaScript string is a [string]; a character stands for one code
      unit below 256.
    - [undefined] is explicit ([jsval]); a JavaScript object used as a
      dictionary is a [gmap] over its own properties, and the cache of
      addresses is read with the properties that a plain object inherits
      ([readCache]).
    - A JavaScript number read from a sheet is a [num]: [NaN] or an exact
      rational.
    - An array updated in place is a list with stdpp's lookup and insert. *)

From Stdlib Require Import Ascii QArith Qround Lqa.
From Stdlib Require DecimalString.
From stdpp Require Import gmap strings list fin_maps.


(* ===================================================================== *)
(** * Part I: definitions *)
(* ===================================================================== *)

(** ** JavaScript values *)

Module Js.

(** The values a cell or a name field can hold. *)
Inductive jsval : Type :=
| Undefined
| Null
| Str (s : string).

#[global] Instance jsval_eq_dec : EqDecision jsval.
Proof. solve_decision. Defined.

(** [a === b] on values of this type. *)
Definition strict_eq (a b : jsval) : bool := bool_decide (a = b).

(** [!v]: [undefined], [null] and the empty string are falsy. *)
Definition falsy (v : jsval) : bool :=
  match v with
  | Undefined | Null => true
  | Str s => bool_decide (s = "")
  end.

(** The string that [+] concatenates for a value. *)
Definition to_string (v : jsval) : string :=
  match v with
  | Undefined => "undefined"
  | Null => "null"
  | Str s => s
  end.

(** White space of [String.prototype.trim] among the code units below
    256: TAB, LF, VT, FF, CR, SP and NBSP. *)
Definition is_ws (c : ascii) : bool :=
  match c with
  | "009" | "010" | "011" | "012" | "013" | " " | "160" => true
  | _ => false
  end%char.

Fixpoint trimStart (s : string) : string :=
  match s with
  | EmptyString => EmptyString
  | String c rest => if is_ws c then trimStart rest else s
  end.

Fixpoint trimEnd (s : string) : string :=
  match s with
  | EmptyString => EmptyString
  | String c rest =>
      match trimEnd rest with
      | EmptyString => if is_ws c then EmptyString else String c EmptyString
      | kept => String c kept
      end
  end.

(** [s.trim()] *)
Definition trim (s : string) : string := trimEnd (trimStart s).


(** [String(v || "").trim()] *)
Definition trimmed_text (v : jsval) : string :=
  match v with
  | Str s => trim s
  | Undefined | Null => ""
  end.

(** Lower-casing of one code unit below 256: A-Z, and the Latin-1
    capitals U+00C0..U+00DE except the multiplication sign. *)
Definition lower_char (c : ascii) : ascii :=
  let n := nat_of_ascii c in
  if ((65 <=? n) && (n <=? 90))
     || ((192 <=? n) && (n <=? 222) && negb (n =? 215))
  then ascii_of_nat (n + 32) else c.

(** [s.toLowerCase()] *)
Fixpoint toLowerCase (s : string) : string :=
  match s with
  | EmptyString => EmptyString
  | String c rest => String (lower_char c) (toLowerCase rest)
  end.

(** Does the code unit [c] occur in [s]? *)
Fixpoint occurs (c : ascii) (s : string) : bool :=
  match s with
  | EmptyString => false
  | String d rest => bool_decide (d = c) || occurs c rest
  end.

(** A number as the sheets give it: [Number(cell)] is [NaN] or an exact
    rational. *)
Inductive num : Type :=
| NaN
| Fin (q : Q).

#[global] Instance Q_eq_dec : EqDecision Q.
Proof. solve_decision. Defined.

#[global] Instance num_eq_dec : EqDecision num.
Proof. solve_decision. Defined.

Definition num_gt (a b : num) : bool :=
  match a, b with
  | Fin x, Fin y => negb (Qle_bool x y)
  | _, _ => false
  end.

Definition num_lt (a b : num) : bool := num_gt b a.

Definition num_ge (a b : num) : bool :=
  match a, b with
  | Fin x, Fin y => Qle_bool y x
  | _, _ => false
  end.

(** [a === b] on numbers. *)
Definition num_eq (a b : num) : bool :=
  match a, b with
  | Fin x, Fin y => Qeq_bool x y
  | _, _ => false
  end.

Definition num_mul (a b : num) : num :=
  match a, b with
  | Fin x, Fin y => Fin (x * y)%Q
  | _, _ => NaN
  end.

(** [Math.round]: the nearest integer, a half going up. *)
Definition Math_round (a : num) : num :=
  match a with
  | Fin x => Fin (inject_Z (Qfloor (x + (1 # 2))%Q))
  | NaN => NaN
  end.

(** [Math.ceil] *)
Definition Math_ceil (a : num) : num :=
  match a with
  | Fin x => Fin (inject_Z (Qceiling x))
  | NaN => NaN
  end.

End Js.

(** ** logoHandler.js: reading the sheets *)

Module LogoHandler.
Import Js.

Definition CR : ascii := "013"%char.
Definition LF : ascii := "010"%char.
Definition QUOTE : ascii := "034"%char.
Definition COMMA : ascii := ","%char.

(** [csvContent.replace(/\r/g, "")] *)
Fixpoint stripCR (s : string) : string :=
  match s with
  | EmptyString => EmptyString
  | String c rest =>
      if bool_decide (c = CR) then stripCR rest else String c (stripCR rest)
  end.

(** [s.split("\n")]: never empty, one more piece than there are line
    feeds. *)
Fixpoint splitLines (s : string) : list string :=
  match s with
  | EmptyString => [EmptyString]
  | String c rest =>
      if bool_decide (c = LF) then EmptyString :: splitLines rest
      else
        match splitLines rest with
        | first :: others => String c first :: others
        | [] => [String c EmptyString]
        end
  end.

(** The state of the character loop: [csvArray], [currentValue],
    [inQuotes]. *)
Definition line_state : Type := list string * string * bool.

(** The body of [for (let char of line)]. *)
Definition line_step (st : line_state) (char : ascii) : line_state :=
  let '(csvArray, currentValue, inQuotes) := st in
  if bool_decide (char = QUOTE) then
    (csvArray, currentValue, negb inQuotes)
  else if bool_decide (char = COMMA) && negb inQuotes then
    (csvArray ++ [trim currentValue], EmptyString, inQuotes)
  else
    (csvArray, currentValue +:+ String char EmptyString, inQuotes).

Fixpoint line_loop (line : string) (st : line_state) : line_state :=
  match line with
  | EmptyString => st
  | String char rest => line_loop rest (line_step st char)
  end.

(** One turn of [for (const line of lines)] for a line that is kept. *)
Definition parseLine (line : string) : list string :=
  let '(csvArray, currentValue, _) := line_loop line ([], EmptyString, false) in
  csvArray ++ [trim currentValue].

Definition parseCSV (csvContent : string) : list (list string) :=
  let lines := splitLines (stripCR csvContent) in
  foldl (fun result line =>
           if bool_decide (trim line = "") then result
           else result ++ [parseLine line])
        [] lines.

(** The parser in the words of its contract: the cells of a line are the
    stretches between the commas that lie outside quoted spans, with the
    quote characters themselves left out; the head of the result is the
    cell being read. *)
Fixpoint spec_cells (inQuotes : bool) (line : string) : list string :=
  match line with
  | EmptyString => [EmptyString]
  | String c rest =>
      if bool_decide (c = QUOTE) then spec_cells (negb inQuotes) rest
      else if bool_decide (c = COMMA) && negb inQuotes then
        EmptyString :: spec_cells inQuotes rest
      else
        match spec_cells inQuotes rest with
        | cell :: cells => String c cell :: cells
        | [] => [String c EmptyString]
        end
  end.

(** For the proofs: put [s] in front of the cell being read. *)
Definition prepend (s : string) (cells : list string) : list string :=
  match cells with
  | cell :: others => (s +:+ cell) :: others
  | [] => [s]
  end.

Fixpoint all_ws (s : string) : bool :=
  match s with
  | EmptyString => true
  | String c rest => is_ws c && all_ws rest
  end.

Definition spec_parseCSV (text : string) : list (list string) :=
  (fun line => trim <$> spec_cells false line)
    <$> filter (fun line => all_ws line = false) (splitLines (stripCR text)).



(** Modelled from the spec: the serializer of the round-trip property,
    which the repository does not contain. A cell is written as it is, or
    between quotes when it contains the delimiter, and the cells are joined
    by the delimiter. *)
Definition serializeCell (cell : string) : string :=
  if occurs COMMA cell
  then String QUOTE (cell +:+ String QUOTE EmptyString)
  else cell.

Definition serialize (row : list string) : string :=
  String.concat (String COMMA EmptyString) (serializeCell <$> row).

(** [createHeaderMap]: the loop over [i], from index [i] on. The
    assignment [headerMap[name] = i] creates no property for the name
    [__proto__]. *)
Fixpoint createHeaderMap_from (i : nat) (headerRow : list string)
    (headerMap : gmap string nat) : gmap string nat :=
  match headerRow with
  | [] => headerMap
  | name :: rest =>
      createHeaderMap_from (S i) rest
        (if bool_decide (name = "__proto__") then headerMap
         else <[name := i]> headerMap)
  end.

Definition createHeaderMap (headerRow : list string) : gmap string nat :=
  createHeaderMap_from 0 headerRow ∅.

(** [getValue]: [typeof idx === "number"] holds exactly for the names the
    map has as its own properties; [row[idx]] past the end of the row is
    [undefined]. *)
Definition getValue (row : list string) (columnName : string)
    (headerMap : gmap string nat) : jsval :=
  match headerMap !! columnName with
  | Some idx =>
      match row !! idx with
      | Some cell => Str cell
      | None => Undefined
      end
  | None => Str ""
  end.

(** The six sheet addresses of one league. *)
Record LeagueUrls : Type := {
  divisionUrl : string;
  teamUrl : string;
  scheduleUrl : string;
  standingsUrl : string;
  goalieUrl : string;
  playerUrl : string
}.

(** What [getLeagueCsvUrls] throws: each is a plain [Error] with its own
    message. [FetchFailed] is whatever [fetchText] threw. *)
Inductive error : Type :=
| BaseFolderNameMissing
| FetchFailed (reason : string)
| MasterSheetEmpty
| LeagueNotFoundOrUrlsMissing (leagueName : string).

Inductive outcome (A : Type) : Type :=
| Return (a : A)
| Throw (e : error).
Arguments Return {A} a.
Arguments Throw {A} e.

(** [String(getValue(row, "LEAGUE", headerMap) || "").trim()] *)
Definition leagueCellOf (row : list string) (headerMap : gmap string nat)
    : string :=
  trimmed_text (getValue row "LEAGUE" headerMap).

(** The six assignments made for the row that matches. *)
Definition rowUrls (row : list string) (headerMap : gmap string nat)
    : LeagueUrls :=
  {| divisionUrl := trimmed_text (getValue row "DIVISION INFO" headerMap);
     teamUrl := trimmed_text (getValue row "TEAM INFO" headerMap);
     scheduleUrl := trimmed_text (getValue row "SCHEDULE" headerMap);
     standingsUrl := trimmed_text (getValue row "STANDINGS" headerMap);
     goalieUrl := trimmed_text (getValue row "GOALIE STATS" headerMap);
     playerUrl := trimmed_text (getValue row "PLAYER STATS" headerMap) |}.

(** The six variables before the loop. *)
Definition noUrls : LeagueUrls :=
  {| divisionUrl := ""; teamUrl := ""; scheduleUrl := "";
     standingsUrl := ""; goalieUrl := ""; playerUrl := "" |}.

(** [for (let i = 1; i < rows.length; i++)], over the rows after the
    header, with its [continue] and its [break]. *)
Fixpoint findLeagueRow (rows : list (list string))
    (headerMap : gmap string nat) (leagueName : string) : LeagueUrls :=
  match rows with
  | [] => noUrls
  | row :: rest =>
      let leagueCell := leagueCellOf row headerMap in
      if bool_decide (leagueCell = "") then
        findLeagueRow rest headerMap leagueName
      else if bool_decide (toLowerCase leagueCell = toLowerCase leagueName)
      then rowUrls row headerMap
      else findLeagueRow rest headerMap leagueName
  end.

(** [!divisionUrl || !teamUrl || ... || !playerUrl] *)
Definition anyUrlMissing (u : LeagueUrls) : bool :=
  bool_decide (divisionUrl u = "") || bool_decide (teamUrl u = "")
  || bool_decide (scheduleUrl u = "") || bool_decide (standingsUrl u = "")
  || bool_decide (goalieUrl u = "") || bool_decide (playerUrl u = "").

(** The names of the properties that every plain object inherits from
    [Object.prototype]. The cache is such an object, [{}], so that
    [leagueUrlCache[name]] is one of these members, a function or the
    prototype itself, when the cache has no property of its own called
    [name]; each of them is truthy. *)
Definition prototypeNames : list string :=
  ["constructor"; "__defineGetter__"; "__defineSetter__"; "hasOwnProperty";
   "__lookupGetter__"; "__lookupSetter__"; "isPrototypeOf";
   "propertyIsEnumerable"; "toString"; "valueOf"; "__proto__";
   "toLocaleString"].

(** What the call can return: the six addresses of a league, or the member
    of [Object.prototype] that the league is named like. *)
Inductive leagueEntry : Type :=
| Urls (urls : LeagueUrls)
| PrototypeMember (name : string).

(** [leagueUrlCache[leagueName]], or [None] for [undefined]: the map holds
    the properties of the cache itself, which come before the inherited
    ones. *)
Definition readCache (leagueUrlCache : gmap string LeagueUrls)
    (leagueName : string) : option leagueEntry :=
  match leagueUrlCache !! leagueName with
  | Some urls => Some (Urls urls)
  | None =>
      if bool_decide (leagueName ∈ prototypeNames)
      then Some (PrototypeMember leagueName)
      else None
  end.

(** [getLeagueCsvUrls]. The arguments are the cache [leagueUrlCache] as the
    call finds it, [baseFolder?.name], and what
    [fetchText(MASTER_LEAGUE_SHEET_URL)] gives if it is awaited; the result
    is what the call returns or throws, and the cache as it leaves it. The
    assignment at the end is reached only for a name that the cache does
    not inherit, for which it makes a property of the cache itself. *)
Definition getLeagueCsvUrls (leagueUrlCache : gmap string LeagueUrls)
    (baseFolderName : jsval) (fetched : outcome string)
    : outcome leagueEntry * gmap string LeagueUrls :=
  let leagueName := trimmed_text baseFolderName in
  if bool_decide (leagueName = "") then
    (Throw BaseFolderNameMissing, leagueUrlCache)
  else
    match readCache leagueUrlCache leagueName with
    | Some cached => (Return cached, leagueUrlCache)
    | None =>
        match fetched with
        | Throw e => (Throw e, leagueUrlCache)
        | Return masterCsv =>
            match parseCSV masterCsv with
            | [] => (Throw MasterSheetEmpty, leagueUrlCache)
            | headerRow :: dataRows =>
                let headerMap := createHeaderMap headerRow in
                let urls := findLeagueRow dataRows headerMap leagueName in
                if anyUrlMissing urls then
                  (Throw (LeagueNotFoundOrUrlsMissing leagueName),
                   leagueUrlCache)
                else
                  (Return (Urls urls), <[leagueName := urls]> leagueUrlCache)
            end
        end
    end.

(** [invalidateLeagueCache], on the cache of addresses. *)
Definition invalidateLeagueCache (leagueUrlCache : gmap string LeagueUrls)
    (baseFolderName : jsval) : gmap string LeagueUrls :=
  let leagueName := trimmed_text baseFolderName in
  if bool_decide (leagueName = "") then leagueUrlCache
  else delete leagueName leagueUrlCache.

(** A master sheet with one league, for the examples. *)
Definition sampleMasterCsv : string :=
  "LEAGUE,DIVISION INFO,TEAM INFO,SCHEDULE,STANDINGS,GOALIE STATS,PLAYER STATS"
  +:+ String LF ("NHL,u1,u2,u3,u4,u5,u6" +:+ String LF "").

Definition sampleUrls : LeagueUrls :=
  {| divisionUrl := "u1"; teamUrl := "u2"; scheduleUrl := "u3";
     standingsUrl := "u4"; goalieUrl := "u5"; playerUrl := "u6" |}.

(** A division as [loadDivisionInfo] builds it from a row: a cell the row
    does not have is [undefined]. *)
Record Division : Type := {
  conf : jsval;
  div : jsval;
  abb : jsval;
  color1 : jsval;
  color2 : jsval;
  divShort : jsval
}.

(** The three variables [div1name], [div1conf], [div1abb] (and the same for
    the second team) that [loadSchedule] fills for a game. *)
Record DivisionLabel : Type := {
  labelName : jsval;
  labelConf : jsval;
  labelAbb : jsval
}.

Definition noLabel : DivisionLabel :=
  {| labelName := Str ""; labelConf := Str ""; labelAbb := Str "" |}.

Definition labelOf (d : Division) : DivisionLabel :=
  {| labelName := div d; labelConf := conf d; labelAbb := abb d |}.

(** [divs[i].conf + ' ' + divs[i].div] *)
Definition fullNameOfDivision (d : Division) : jsval :=
  Str (to_string (conf d) +:+ " " +:+ to_string (div d)).

(** [for (let i = 0; i < divs.length; i++)] of [loadSchedule], from the
    division [divs[i]] on, with its [break]. *)
Fixpoint resolveDivisions (divs : list Division) (div1Full div2Full : jsval)
    (div1 div2 : DivisionLabel) : DivisionLabel * DivisionLabel :=
  match divs with
  | [] => (div1, div2)
  | d :: rest =>
      let fullName := fullNameOfDivision d in
      let div1' :=
        if falsy (labelAbb div1) && strict_eq div1Full fullName
        then labelOf d else div1 in
      let div2' :=
        if falsy (labelAbb div2) && strict_eq div2Full fullName
        then labelOf d else div2 in
      if negb (falsy (labelAbb div1')) && negb (falsy (labelAbb div2'))
      then (div1', div2')
      else resolveDivisions rest div1Full div2Full div1' div2'
  end.

(** The labels of a game whose cells Div 1 and Div 2 are [div1Full] and
    [div2Full]. *)
Definition joinDivisions (divs : list Division) (div1Full div2Full : jsval)
    : DivisionLabel * DivisionLabel :=
  resolveDivisions divs div1Full div2Full noLabel noLabel.

(** The first division in list order whose name is the label. *)
Definition firstMatch (divs : list Division) (label : jsval)
    : option Division :=
  find (fun d => strict_eq label (fullNameOfDivision d)) divs.

Definition mkDivision (c d a : string) : Division :=
  {| conf := Str c; div := Str d; abb := Str a;
     color1 := Str ""; color2 := Str ""; divShort := Str "" |}.

End LogoHandler.

(** ** The stats panel: leaderboards of a division *)

Module Stats.
Import Js.

(** A player stat line of [loadPlayerStats]; a numeric field holds the
    value [Number(...)] gives for it. *)
Record Player : Type := {
  firstName : jsval;
  lastName : jsval;
  teamName : jsval;
  div : jsval;
  goals : num;
  assists : num;
  points : num;
  ppg : num;
  fullName : jsval
}.

(** [nullPlayer] has no [fullName] property. *)
Definition nullPlayer : Player :=
  {| firstName := Null; lastName := Null; teamName := Null; div := Null;
     goals := Fin 0; assists := Fin 0; points := Fin 0; ppg := Fin 0;
     fullName := Undefined |}.

#[global] Instance Player_inhabited : Inhabited Player := populate nullPlayer.

#[global] Instance Player_eq_dec : EqDecision Player.
Proof. solve_decision. Defined.

(** A stat line as [loadPlayerStats] sets its [fullName]. *)
Definition playerStatline (first last team division : string)
    (g a pts perGame : Q) : Player :=
  {| firstName := Str first; lastName := Str last; teamName := Str team;
     div := Str division;
     goals := Fin g; assists := Fin a; points := Fin pts; ppg := Fin perGame;
     fullName := Str (first +:+ " " +:+ last) |}.

(** One turn of the inner loop of the points board, for slot [m] and the
    player [cand]. *)
Definition points_turn (m : nat) (topPoints : list Player) (cand : Player)
    : list Player :=
  let holder := topPoints !!! m in
  let pointsGreater := num_gt (points cand) (points holder) in
  let pointsEqual := num_eq (points cand) (points holder) in
  let goalsGreater := num_gt (goals cand) (goals holder) in
  let shouldAssign :=
    forallb (fun earlier => negb (strict_eq (fullName cand) (fullName earlier)))
            (take m topPoints) in
  if shouldAssign then
    if pointsGreater || (pointsEqual && goalsGreater)
    then <[m := cand]> topPoints else topPoints
  else topPoints.

Definition topPoints (divPlayerStats : list Player) : list Player :=
  foldl (fun top m => foldl (points_turn m) top divPlayerStats)
        (replicate 5 nullPlayer) (seq 0 5).

(** The goals, points-per-game and GAA boards are three copies of one loop
    over three slots, with the earlier slots compared one by one; [beats
    cand holder] is the test of the outer [if]. *)
Section ThreeSlots.
Context {A : Type} `{Inhabited A}.
Variable nameOf : A -> jsval.
Variable beats : A -> A -> bool.

Definition three_turn (m : nat) (top : list A) (cand : A) : list A :=
  if beats cand (top !!! m) then
    if m =? 0 then <[m := cand]> top
    else if m =? 1 then
      if negb (strict_eq (nameOf cand) (nameOf (top !!! 0)))
      then <[m := cand]> top else top
    else if m =? 2 then
      if negb (strict_eq (nameOf cand) (nameOf (top !!! 0))
               || strict_eq (nameOf cand) (nameOf (top !!! 1)))
      then <[m := cand]> top else top
    else top
  else top.

Definition three_slots (null : A) (pool : list A) : list A :=
  foldl (fun top m => foldl (three_turn m) top pool)
        [null; null; null] (seq 0 3).

End ThreeSlots.

Definition topGoals (divPlayerStats : list Player) : list Player :=
  three_slots fullName (fun cand holder => num_gt (goals cand) (goals holder))
              nullPlayer divPlayerStats.

Definition topPPG (divPlayerStats : list Player) : list Player :=
  three_slots fullName (fun cand holder => num_gt (ppg cand) (ppg holder))
              nullPlayer divPlayerStats.

(** A goalie stat line of [loadGoalieStats]. *)
Module Goalie.
Record Goalie : Type := {
  firstName : jsval;
  lastName : jsval;
  teamName : jsval;
  div : jsval;
  GA : num;
  GAA : num;
  GP : num;
  fullName : jsval
}.
End Goalie.
Abbreviation Goalie := Goalie.Goalie.
Abbreviation GA := Goalie.GA.
Abbreviation GAA := Goalie.GAA.
Abbreviation GP := Goalie.GP.

Definition nullGoalie : Goalie :=
  {| Goalie.firstName := Null; Goalie.lastName := Null;
     Goalie.teamName := Null; Goalie.div := Null;
     Goalie.GA := Fin 99; Goalie.GAA := Fin 99; Goalie.GP := Fin 0;
     Goalie.fullName := Undefined |}.

#[global] Instance Goalie_inhabited : Inhabited Goalie := populate nullGoalie.

#[global] Instance Goalie_eq_dec : EqDecision Goalie.
Proof. solve_decision. Defined.

Definition goalieStatline (first last team division : string)
    (against average played : Q) : Goalie :=
  {| Goalie.firstName := Str first; Goalie.lastName := Str last;
     Goalie.teamName := Str team; Goalie.div := Str division;
     Goalie.GA := Fin against; Goalie.GAA := Fin average;
     Goalie.GP := Fin played;
     Goalie.fullName := Str (first +:+ " " +:+ last) |}.

(** The loop that finds the largest number of games played. *)
Definition GPmax (divGoalieStats : list Goalie) : num :=
  foldl (fun GPmax g => if num_gt (GP g) GPmax then GP g else GPmax)
        (Fin 0) divGoalieStats.

(** [Math.round(0.44*GPmax)] *)
Definition GPmin (divGoalieStats : list Goalie) : num :=
  Math_round (num_mul (Fin (44 # 100)) (GPmax divGoalieStats)).

Definition topGAA (divGoalieStats : list Goalie) : list Goalie :=
  three_slots Goalie.fullName
    (fun cand holder =>
       num_lt (GAA cand) (GAA holder)
       && num_ge (GP cand) (GPmin divGoalieStats))
    nullGoalie divGoalieStats.

(** The boards of a division: [processDivision] returns before building
    any of them when the division has fewer than five players. *)
Definition leaderboards (divPlayerStats : list Player)
    (divGoalieStats : list Goalie)
    : option (list Player * list Player * list Player * list Goalie) :=
  if length divPlayerStats <? 5 then None
  else Some (topPoints divPlayerStats, topGoals divPlayerStats,
             topPPG divPlayerStats, topGAA divGoalieStats).

(** The selector in the words of its contract: each slot in turn is filled
    by one scan of the whole pool, in which a candidate takes the slot when
    it is better than the current holder and its full name is in none of
    the slots filled before. *)
Section Contract.
Context {A : Type}.
Variable nameOf : A -> jsval.
Variable better : A -> A -> bool.
Variable null : A.

Definition occupies (cand : A) (earlier : list A) : bool :=
  existsb (fun e => strict_eq (nameOf e) (nameOf cand)) earlier.

Definition spec_slot (earlier pool : list A) : A :=
  foldl (fun holder cand =>
           if better cand holder && negb (occupies cand earlier)
           then cand else holder)
        null pool.

Fixpoint spec_topN (n : nat) (pool : list A) : list A :=
  match n with
  | 0 => []
  | S m => let earlier := spec_topN m pool in
           earlier ++ [spec_slot earlier pool]
  end.

End Contract.

(** For the proofs: the common shape of the four loops. One turn of the
    inner loop for slot [m]: the candidate takes the slot when it beats the
    holder and its name is in no earlier slot. *)
Section Slots.
Context {A : Type} `{Inhabited A}.
Variable nameOf : A -> jsval.
Variable beats : A -> A -> bool.
Variable null : A.

Definition slot_turn (m : nat) (top : list A) (cand : A) : list A :=
  if beats cand (top !!! m) && negb (occupies nameOf cand (take m top))
  then <[m := cand]> top else top.

Definition fill_slots (n : nat) (pool : list A) : list A :=
  foldl (fun top m => foldl (slot_turn m) top pool)
        (replicate n null) (seq 0 n).

(** What one scan does to the holder of the slot. *)
Definition scan_step (earlier : list A) (holder cand : A) : A :=
  if beats cand holder && negb (occupies nameOf cand earlier)
  then cand else holder.

End Slots.

(** Strictly more points, or as many points and strictly more goals. *)
Definition pointsThenGoals (cand holder : Player) : bool :=
  num_gt (points cand) (points holder)
  || (num_eq (points cand) (points holder)
      && num_gt (goals cand) (goals holder)).

(** For the proofs: the test of the GAA board for a candidate against a
    holder. *)
Definition gaaBeats (goalies : list Goalie) (cand holder : Goalie) : bool :=
  num_lt (GAA cand) (GAA holder) && num_ge (GP cand) (GPmin goalies).

(** The ceiling the specification names for the floor of the GAA board. *)
Definition spec_GPmin (divGoalieStats : list Goalie) : num :=
  Math_ceil (num_mul (Fin (44 # 100)) (GPmax divGoalieStats)).

End Stats.

(** ** standings.js: splitting a division into chunks *)

Module Standings.

(** [Math.ceil(a / b)] on non-negative integers, [b > 0]. *)
Definition ceil_div (a b : nat) : nat := (a + b - 1) / b.

(** [arr.slice(s, e)] for [0 <= s] and [0 <= e]: both ends are clamped to
    the array, and an end before the start gives the empty array. *)
Definition slice {A} (s e : nat) (arr : list A) : list A :=
  take (e - s) (drop s arr).

Definition MAX_TEAMS_PER_CHUNK : nat := 9.

(** One turn of [for (let c = 0; c < numChunks; c++)]; the state is
    [(startIndex, chunks)]. *)
Definition chunk_step {A} (standings : list A)
    (numOfTeams numChunks chunkSize : nat)
    (st : nat * list (list A)) (c : nat) : nat * list (list A) :=
  let '(startIndex, chunks) := st in
  let isLast := c =? numChunks - 1 in
  let endIndex := if isLast then numOfTeams else startIndex + chunkSize in
  let chunk := slice startIndex endIndex standings in
  (endIndex, if length chunk =? 0 then chunks else chunks ++ [chunk]).

(** The chunking block of [handleStandingsUpdate], with the constant
    [MAX_TEAMS_PER_CHUNK] as a parameter. *)
Definition splitIntoChunks {A} (maxPerChunk : nat) (standings : list A)
    : list (list A) :=
  let numOfTeams := length standings in
  if numOfTeams <=? maxPerChunk then [standings]
  else
    let numChunks := ceil_div numOfTeams maxPerChunk in
    let chunkSize := ceil_div numOfTeams numChunks in
    snd (foldl (chunk_step standings numOfTeams numChunks chunkSize)
               (0, []) (seq 0 numChunks)).

(** For the proofs: the chunks the loop has pushed after [j] full-size
    turns. *)
Definition full_chunks {A} (l : list A) (cs j : nat) : list (list A) :=
  (fun i => take cs (drop (i * cs) l)) <$> seq 0 j.

(** What the panel runs. *)
Definition standingsChunks {A} (standings : list A) : list (list A) :=
  splitIntoChunks MAX_TEAMS_PER_CHUNK standings.

End Standings.

(** ** Further definitions: the rest of the sheet readers *)

Module Sheets.
Import Js LogoHandler.

(** The number of commas of a line. *)
Fixpoint count_commas (line : string) : nat :=
  match line with
  | EmptyString => 0
  | String c rest =>
      if bool_decide (c = COMMA) then S (count_commas rest)
      else count_commas rest
  end.

(** *** The sheet caches and the network

    A call is modelled as running alone from start to finish: what the
    loaders that [loadLeagueConfig] starts together do to each other between
    two [await]s is not part of the model. The world is the two caches and
    the list of the addresses asked of the network so far. The cache of
    addresses is read as [readCache] reads it. The cache of sheets is read
    through its own properties: for what it holds, a league or a sheet
    named like a member of [Object.prototype] is outside this model. *)

Definition MASTER_LEAGUE_SHEET_URL : string :=
  "https://docs.google.com/spreadsheets/d/e/2PACX-1vSbCy1pnMHPC-i_MU3x2U8ESVtSeDu7M8RrDbNxl0D-aT-TFlJJ9o7KDMyugap2vlQgTCF8y5FSwLT2/pub?output=csv".

Record World : Type := {
  leagueUrlCache : gmap string LeagueUrls;
  brandingSheetCache : gmap string (gmap string (list (list string)));
  requests : list string
}.

(** What [fetchText(url)] gives for the address [url]: the text, or the
    error it throws. *)
Definition network : Type := string -> outcome string.

(** [fetchText(url)]: [fetch] reads its argument as a string, so that
    [undefined] asks for the address of that name. *)
Definition fetchText (net : network) (url : jsval) (w : World)
    : outcome string * World :=
  (net (to_string url),
   {| leagueUrlCache := leagueUrlCache w;
      brandingSheetCache := brandingSheetCache w;
      requests := requests w ++ [to_string url] |}).

(** What the sheet readers throw. *)
Inductive sheetError : Type :=
| Raised (e : error)
| BrandingFolderNameMissing
| UnknownBrandingSheet (sheetName : string)
| UnknownStatsSheet (sheetName : string).

Inductive result (A : Type) : Type :=
| Ok (a : A)
| Failed (e : sheetError).
Arguments Ok {A} a.
Arguments Failed {A} e.


(** [getLeagueCsvUrls] in the world: the master sheet is asked for when the
    name is not empty and the cache gives nothing for it. *)
Definition resolveLeague (net : network) (baseFolderName : jsval) (w : World)
    : outcome leagueEntry * World :=
  let leagueName := trimmed_text baseFolderName in
  let asks :=
    negb (bool_decide (leagueName = ""))
    && bool_decide (readCache (leagueUrlCache w) leagueName = None) in
  let '(resolved, urlCache) :=
    getLeagueCsvUrls (leagueUrlCache w) baseFolderName
                     (net MASTER_LEAGUE_SHEET_URL) in
  (resolved,
   {| leagueUrlCache := urlCache;
      brandingSheetCache := brandingSheetCache w;
      requests := if asks then requests w ++ [MASTER_LEAGUE_SHEET_URL]
                  else requests w |}).

(** [const { divisionUrl, ... } = await getLeagueCsvUrls(baseFolder)], one
    of the six names: a member of [Object.prototype] has no such
    property. *)
Definition urlOf (field : LeagueUrls -> string) (entry : leagueEntry)
    : jsval :=
  match entry with
  | Urls urls => Str (field urls)
  | PrototypeMember _ => Undefined
  end.

(** [await fetchText(targetUrl)] followed by [parseCSV]. *)
Definition fetchSheet (net : network) (targetUrl : jsval) (w : World)
    : result (list (list string)) * World :=
  let '(fetched, w') := fetchText net targetUrl w in
  match fetched with
  | Throw e => (Failed (Raised e), w')
  | Return csvText => (Ok (parseCSV csvText), w')
  end.

Definition getBrandingSheet (net : network) (baseFolderName : jsval)
    (sheetName : string) (w : World) : result (list (list string)) * World :=
  let leagueName := trimmed_text baseFolderName in
  if bool_decide (leagueName = "") then (Failed BrandingFolderNameMissing, w)
  else
    let sheets := default ∅ (brandingSheetCache w !! leagueName) in
    let w1 :=
      {| leagueUrlCache := leagueUrlCache w;
         brandingSheetCache :=
           match brandingSheetCache w !! leagueName with
           | Some _ => brandingSheetCache w
           | None => <[leagueName := ∅]> (brandingSheetCache w)
           end;
         requests := requests w |} in
    match sheets !! sheetName with
    | Some cached => (Ok cached, w1)
    | None =>
        let '(resolved, w2) := resolveLeague net baseFolderName w1 in
        match resolved with
        | Throw e => (Failed (Raised e), w2)
        | Return urls =>
            let target :=
              if bool_decide (sheetName = "Divisions")
              then Some (urlOf divisionUrl urls)
              else if bool_decide (sheetName = "All Teams")
              then Some (urlOf teamUrl urls)
              else None in
            match target with
            | None => (Failed (UnknownBrandingSheet sheetName), w2)
            | Some targetUrl =>
                let '(read, w3) := fetchSheet net targetUrl w2 in
                match read with
                | Failed e => (Failed e, w3)
                | Ok parsed =>
                    (Ok parsed,
                     {| leagueUrlCache := leagueUrlCache w3;
                        brandingSheetCache :=
                          <[leagueName := <[sheetName := parsed]> sheets]>
                            (brandingSheetCache w3);
                        requests := requests w3 |})
                end
            end
        end
    end.

Definition getScheduleSheet (net : network) (baseFolderName : jsval)
    (w : World) : result (list (list string)) * World :=
  let '(resolved, w1) := resolveLeague net baseFolderName w in
  match resolved with
  | Throw e => (Failed (Raised e), w1)
  | Return urls => fetchSheet net (urlOf scheduleUrl urls) w1
  end.

Definition getStatsSheet (net : network) (baseFolderName : jsval)
    (sheetName : string) (w : World) : result (list (list string)) * World :=
  let '(resolved, w1) := resolveLeague net baseFolderName w in
  match resolved with
  | Throw e => (Failed (Raised e), w1)
  | Return urls =>
      if bool_decide (sheetName = "STANDINGS")
      then fetchSheet net (urlOf standingsUrl urls) w1
      else if bool_decide (sheetName = "GOALIE STATS")
      then fetchSheet net (urlOf goalieUrl urls) w1
      else if bool_decide (sheetName = "PLAYER STATS")
      then fetchSheet net (urlOf playerUrl urls) w1
      else (Failed (UnknownStatsSheet sheetName), w1)
  end.

(** A network for examples: the master sheet of [sampleMasterCsv] and one
    division sheet; every other address fails. *)
Definition sampleNet : network := fun url =>
  if bool_decide (url = MASTER_LEAGUE_SHEET_URL) then Return sampleMasterCsv
  else if bool_decide (url = "u1")
  then Return ("conf,div,abb" +:+ String LF "East,Atlantic,ATL")
  else if bool_decide (url = "u3")
  then Return ("ALL GAMES" +:+ String LF ",,5,2024" +:+ String LF
               "Week,Team 1,Div 1" +:+ String LF
               "5,Bears,East Atlantic" +:+ String LF
               "tbd,Owls,East Atlantic")
  else Throw (FetchFailed url).

(** The same network with a schedule sheet of two rows only. *)
Definition shortNet : network := fun url =>
  if bool_decide (url = "u3")
  then Return ("ALL GAMES" +:+ String LF ",,5,2024")
  else sampleNet url.

Definition deadNet : network := fun url => Throw (FetchFailed url).

Definition emptyWorld : World :=
  {| leagueUrlCache := ∅; brandingSheetCache := ∅; requests := [] |}.

(** For the statements: what a sheet reader without a cache of its own
    gives when called in the world [w]: rows are the parsed text of the
    last address asked in the call. *)
Definition fresh_read (net : network) (w : World)
    (run : result (list (list string)) * World) : Prop :=
  brandingSheetCache run.2 = brandingSheetCache w
  /\ forall rows, run.1 = Ok rows ->
       exists url csvText asked,
         net url = Return csvText /\ rows = parseCSV csvText
         /\ requests run.2 = requests w ++ asked ++ [url].


(** *** The entity builders *)

(** [row[k]] *)
Definition cellAt (row : list string) (k : nat) : jsval :=
  match row !! k with
  | Some cell => Str cell
  | None => Undefined
  end.

Definition divisionOfRow (row : list string) : Division :=
  {| conf := cellAt row 0; div := cellAt row 1; abb := cellAt row 2;
     color1 := cellAt row 3; color2 := cellAt row 4;
     divShort := cellAt row 6 |}.

(** [loadDivisionInfo]: the rows after the first; any error gives the
    empty list. *)
Definition loadDivisionInfo (net : network) (baseFolderName : jsval)
    (w : World) : list Division * World :=
  match getBrandingSheet net baseFolderName "Divisions" w with
  | (Ok divInfo, w') => (divisionOfRow <$> drop 1 divInfo, w')
  | (Failed _, w') => ([], w')
  end.

Module Conference.
Record Conference : Type := {
  conf : jsval;
  color : jsval;
  timeZone : jsval;
  location : jsval
}.
End Conference.
Abbreviation Conference := Conference.Conference.

Definition conferenceOfRow (row : list string) : Conference :=
  {| Conference.conf := cellAt row 0; Conference.color := cellAt row 3;
     Conference.timeZone := cellAt row 4;
     Conference.location := cellAt row 5 |}.

(** One turn of the loop of [loadConferenceInfo], with its inner search for
    the name among the conferences found so far. *)
Definition conference_step (confs : list Conference) (row : list string)
    : list Conference :=
  let confName := cellAt row 0 in
  let isUnique :=
    negb (existsb (fun c => strict_eq (Conference.conf c) confName) confs) in
  if isUnique then confs ++ [conferenceOfRow row] else confs.

Definition conferencesOfSheet (divInfo : list (list string))
    : list Conference :=
  foldl conference_step [] (drop 1 divInfo).

Definition loadConferenceInfo (net : network) (baseFolderName : jsval)
    (w : World) : list Conference * World :=
  match getBrandingSheet net baseFolderName "Divisions" w with
  | (Ok divInfo, w') => (conferencesOfSheet divInfo, w')
  | (Failed _, w') => ([], w')
  end.

(** A goalie stat line as [loadGoalieStats] builds it, before any
    [Number(...)]. *)
Module GoalieLine.
Record GoalieLine : Type := {
  firstName : jsval;
  lastName : jsval;
  teamName : jsval;
  div : jsval;
  GA : jsval;
  GAA : jsval;
  GP : jsval;
  fullName : jsval
}.
End GoalieLine.
Abbreviation GoalieLine := GoalieLine.GoalieLine.

Definition goalieLineOfRow (row : list string) (headerMap : gmap string nat)
    : GoalieLine :=
  let first := getValue row "First Name" headerMap in
  let last := getValue row "Last Name" headerMap in
  {| GoalieLine.firstName := first;
     GoalieLine.lastName := last;
     GoalieLine.teamName := getValue row "Team" headerMap;
     GoalieLine.div := getValue row "Division" headerMap;
     GoalieLine.GA := getValue row "GA" headerMap;
     GoalieLine.GAA := getValue row "GAA" headerMap;
     GoalieLine.GP := getValue row "GP" headerMap;
     GoalieLine.fullName := Str (to_string first +:+ " " +:+ to_string last) |}.

(** [String(fullName || '').trim().toLowerCase()] *)
Definition normalizedName (fullName : jsval) : string :=
  toLowerCase (trimmed_text (if falsy fullName then Str "" else fullName)).

Definition goalie_step (headerMap : gmap string nat)
    (allGoalieStats : list GoalieLine) (row : list string)
    : list GoalieLine :=
  let goalieStatline := goalieLineOfRow row headerMap in
  if bool_decide (normalizedName (GoalieLine.fullName goalieStatline)
                  = "backup goalie")
  then allGoalieStats
  else if falsy (GoalieLine.teamName goalieStatline) then allGoalieStats
  else allGoalieStats ++ [goalieStatline].

(** The body of [loadGoalieStats] after the sheet is read; a sheet without
    rows has no header row, and the error that follows is caught. *)
Definition goalieLinesOfSheet (goalieStatRead : list (list string))
    : list GoalieLine :=
  match goalieStatRead with
  | [] => []
  | headerRow :: rows => foldl (goalie_step (createHeaderMap headerRow)) [] rows
  end.

Definition loadGoalieStats (net : network) (baseFolderName : jsval)
    (w : World) : list GoalieLine * World :=
  match getStatsSheet net baseFolderName "GOALIE STATS" w with
  | (Ok goalieStatRead, w') => (goalieLinesOfSheet goalieStatRead, w')
  | (Failed _, w') => ([], w')
  end.

(** A standings line as [loadStandings] builds it. *)
Module TeamLine.
Record TeamLine : Type := {
  fullTeam : jsval;
  teamCity : jsval;
  teamName : jsval;
  div : jsval;
  gp : jsval;
  w : jsval;
  otw : jsval;
  otl : jsval;
  l : jsval;
  pts : jsval;
  diff : jsval;
  pct : jsval;
  gf : jsval;
  ga : jsval;
  rank : jsval
}.
End TeamLine.
Abbreviation TeamLine := TeamLine.TeamLine.

Definition teamLineOfRow (row : list string) (headerMap : gmap string nat)
    : TeamLine :=
  let pct := getValue row "P%" headerMap in
  {| TeamLine.fullTeam := getValue row "Team Name" headerMap;
     TeamLine.teamCity := Null;
     TeamLine.teamName := Null;
     TeamLine.div := getValue row "Division" headerMap;
     TeamLine.gp := getValue row "GP" headerMap;
     TeamLine.w := getValue row "W" headerMap;
     TeamLine.otw := getValue row "OTW" headerMap;
     TeamLine.otl := getValue row "OTL" headerMap;
     TeamLine.l := getValue row "L" headerMap;
     TeamLine.pts := getValue row "PTS" headerMap;
     TeamLine.diff := getValue row "DIFF" headerMap;
     TeamLine.pct :=
       if strict_eq pct (Str "#DIV/0!") then Str "0.000" else pct;
     TeamLine.gf := getValue row "GF" headerMap;
     TeamLine.ga := getValue row "GA" headerMap;
     TeamLine.rank := getValue row "RANK" headerMap |}.

Definition standings_step (headerMap : gmap string nat)
    (teamStats : list TeamLine) (row : list string) : list TeamLine :=
  if length row =? 0 then teamStats
  else
    let teamStatline := teamLineOfRow row headerMap in
    if falsy (TeamLine.fullTeam teamStatline) then teamStats
    else teamStats ++ [teamStatline].

Definition standingsOfSheet (standingsRead : list (list string))
    : list TeamLine :=
  match standingsRead with
  | [] => []
  | headerRow :: rows =>
      foldl (standings_step (createHeaderMap headerRow)) [] rows
  end.

Definition loadStandings (net : network) (baseFolderName : jsval)
    (w : World) : list TeamLine * World :=
  match getStatsSheet net baseFolderName "STANDINGS" w with
  | (Ok standingsRead, w') => (standingsOfSheet standingsRead, w')
  | (Failed _, w') => ([], w')
  end.

(** The rows that the loops of [loadGoalieStats] and [loadStandings] do
    not [continue] past. *)
Definition keepsGoalie (goalieStatline : GoalieLine) : bool :=
  negb (bool_decide (normalizedName (GoalieLine.fullName goalieStatline)
                     = "backup goalie"))
  && negb (falsy (GoalieLine.teamName goalieStatline)).

Definition keepsTeam (headerMap : gmap string nat) (row : list string)
    : bool :=
  negb (length row =? 0)
  && negb (falsy (TeamLine.fullTeam (teamLineOfRow row headerMap))).

(** A game as [loadSchedule] builds it. *)
Module Game.
Record Game : Type := {
  week : jsval;
  gameType : jsval;
  season : jsval;
  date : jsval;
  dateShort : jsval;
  day : jsval;
  time : jsval;
  team1 : jsval;
  div1 : jsval;
  division1 : jsval;
  conf : jsval;
  score1 : jsval;
  team2 : jsval;
  div2 : jsval;
  division2 : jsval;
  score2 : jsval;
  status : jsval;
  location : jsval;
  divOverall : jsval;
  seed1 : jsval;
  seed2 : jsval;
  round : jsval
}.
End Game.
Abbreviation Game := Game.Game.

(** What [loadSchedule] returns. *)
Module Schedule.
Record Schedule : Type := {
  schedule : list Game;
  week : num;
  year : num
}.
End Schedule.
Abbreviation Schedule := Schedule.Schedule.

(** The value of the [catch] of [loadSchedule]. *)
Definition noSchedule : Schedule :=
  {| Schedule.schedule := []; Schedule.week := Fin 0; Schedule.year := Fin 0 |}.

Definition gameOfRow (divs : list Division) (headerMap : gmap string nat)
    (row : list string) : Game :=
  let div1Full := getValue row "Div 1" headerMap in
  let div2Full := getValue row "Div 2" headerMap in
  let labels := joinDivisions divs div1Full div2Full in
  {| Game.week := getValue row "Week" headerMap;
     Game.gameType := getValue row "Game Type" headerMap;
     Game.season := getValue row "Season" headerMap;
     Game.date := getValue row "Date" headerMap;
     Game.dateShort := getValue row "Date Short" headerMap;
     Game.day := getValue row "Day" headerMap;
     Game.time := getValue row "Time" headerMap;
     Game.team1 := getValue row "Team 1" headerMap;
     Game.div1 := labelAbb labels.1;
     Game.division1 := labelName labels.1;
     Game.conf := labelConf labels.1;
     Game.score1 := getValue row "Score 1" headerMap;
     Game.team2 := getValue row "Team 2" headerMap;
     Game.div2 := labelAbb labels.2;
     Game.division2 := labelName labels.2;
     Game.score2 := getValue row "Score 2" headerMap;
     Game.status := getValue row "Final" headerMap;
     Game.location := getValue row "Location" headerMap;
     Game.divOverall := labelAbb labels.1;
     Game.seed1 := getValue row "Seed 1" headerMap;
     Game.seed2 := getValue row "Seed 2" headerMap;
     Game.round := getValue row "Round" headerMap |}.

(** [loadSchedule]; [Number] is the conversion of a cell to a number (a
    cell that converts to an infinity is outside [num]). *)
Section LoadSchedule.
Variable Number : jsval -> num.

(** [isNaN(gameWeekNum) || gameWeekNum < 0] *)
Definition skipsWeek (gameWeekNum : num) : bool :=
  match gameWeekNum with
  | NaN => true
  | Fin _ => num_lt gameWeekNum (Fin 0)
  end.

(** The rows that the loop does not [continue] past. *)
Definition keepsGame (headerMap : gmap string nat) (row : list string)
    : bool :=
  negb (length row =? 0)
  && negb (skipsWeek (Number (getValue row "Week" headerMap))).

Definition schedule_step (divs : list Division)
    (headerMap : gmap string nat) (schedule : list Game)
    (row : list string) : list Game :=
  if length row =? 0 then schedule
  else
    let gameWeekNum := Number (getValue row "Week" headerMap) in
    if skipsWeek gameWeekNum then schedule
    else schedule ++ [gameOfRow divs headerMap row].

(** A sheet without a second row makes [scheduleRead[1][2]] throw, and one
    without a third row makes [createHeaderMap] throw; both end in the
    [catch], before the divisions are asked for. *)
Definition loadSchedule (net : network) (baseFolderName : jsval) (w : World)
    : Schedule * World :=
  match getScheduleSheet net baseFolderName w with
  | (Failed _, w1) => (noSchedule, w1)
  | (Ok scheduleRead, w1) =>
      match scheduleRead !! 1 with
      | None => (noSchedule, w1)
      | Some weekRow =>
          let week := Number (cellAt weekRow 2) in
          let year := Number (cellAt weekRow 3) in
          match scheduleRead !! 2 with
          | None => (noSchedule, w1)
          | Some headerRow =>
              let headerMap := createHeaderMap headerRow in
              let '(divs, w2) := loadDivisionInfo net baseFolderName w1 in
              ({| Schedule.schedule :=
                    foldl (schedule_step divs headerMap) []
                          (drop 2 scheduleRead);
                  Schedule.week := week;
                  Schedule.year := year |}, w2)
          end
      end
  end.

End LoadSchedule.

(** An instance of [Number] for the examples: it is [Number] on blank cells
    and on cells of decimal digits, and reads every other cell as [NaN]. *)
Fixpoint digitsValue (acc : Z) (s : string) : option Z :=
  match s with
  | EmptyString => Some acc
  | String c rest =>
      let n := nat_of_ascii c in
      if (48 <=? n) && (n <=? 57)
      then digitsValue (10 * acc + Z.of_nat (n - 48))%Z rest
      else None
  end.

Definition digitsNumber (v : jsval) : num :=
  match v with
  | Undefined => NaN
  | Null => Fin 0
  | Str s =>
      match digitsValue 0 (trim s) with
      | Some z => Fin (inject_Z z)
      | None => NaN
      end
  end.

(** [getUserDivision], from the text of the division field. *)
Section UserDivision.
Variable toUpperCase : string -> string.

Fixpoint abbreviationToFullName (divs : list Division) (userDiv : string)
    : string :=
  match divs with
  | [] => userDiv
  | d :: rest =>
      if strict_eq (Str userDiv) (abb d)
      then to_string (conf d) +:+ " " +:+ to_string (div d)
      else abbreviationToFullName rest userDiv
  end.

Definition getUserDivision (divs : list Division) (fieldText : string)
    : string :=
  let divisionInput := toUpperCase (trim fieldText) in
  let userDiv :=
    if bool_decide (divisionInput = "") then "ALL" else divisionInput in
  abbreviationToFullName divs userDiv.

End UserDivision.

(** An instance of [toUpperCase] for the examples: it is [toUpperCase] on
    ASCII text. *)
Fixpoint upperAscii (s : string) : string :=
  match s with
  | EmptyString => EmptyString
  | String c rest =>
      let n := nat_of_ascii c in
      String (if (97 <=? n) && (n <=? 122) then ascii_of_nat (n - 32) else c)
             (upperAscii rest)
  end.

End Sheets.

(** ** The file name of a downloaded logo (src/logoHandler.js)

    The part of [downloadLogoFromUrl] that names the temporary file. A
    number here is an integer, exact in a double: the operands of the
    bit operations go through [ToInt32]. *)
Module LogoFile.
Import Js.

(** [ToInt32]: the integer modulo [2^32], between [-2^31] and [2^31 - 1]. *)
Definition toInt32 (x : Z) : Z := ((x + 2 ^ 31) mod 2 ^ 32 - 2 ^ 31)%Z.

(** [a << n] for [0 <= n < 32] *)
Definition shl (a n : Z) : Z := toInt32 (Z.shiftl (toInt32 a) n).

(** [a & b] *)
Definition band (a b : Z) : Z := Z.land (toInt32 a) (toInt32 b).

(** [char.charCodeAt(0)] *)
Definition charCodeAt0 (char : ascii) : Z := Z.of_N (N_of_ascii char).

(** The function given to [reduce]. *)
Definition hash_step (acc : Z) (char : ascii) : Z :=
  let hash := (shl acc 5 - acc + charCodeAt0 char)%Z in
  band hash hash.

(** [url.split('').reduce(..., 0)] *)
Definition urlHash (url : string) : Z :=
  foldl hash_step 0%Z (String.list_ascii_of_string url).

(** For the statements: the polynomial in 31 of the code units. *)
Definition poly31 (url : string) : Z :=
  foldl (fun acc char => (31 * acc + charCodeAt0 char)%Z) 0%Z
        (String.list_ascii_of_string url).

(** [s.split(sep)] for a separator of one character. *)
Fixpoint split (sep : ascii) (s : string) : list string :=
  match s with
  | EmptyString => [EmptyString]
  | String c rest =>
      if bool_decide (c = sep) then EmptyString :: split sep rest
      else match split sep rest with
           | part :: parts => String c part :: parts
           | [] => [String c EmptyString]
           end
  end.

(** The class [[a-zA-Z0-9._-]]. *)
Definition isSafeChar (c : ascii) : bool :=
  let n := nat_of_ascii c in
  ((97 <=? n) && (n <=? 122)) || ((65 <=? n) && (n <=? 90))
  || ((48 <=? n) && (n <=? 57))
  || (n =? 46) || (n =? 95) || (n =? 45).

(** [s.replace(/[^a-zA-Z0-9._-]/g, '_')] *)
Fixpoint replaceUnsafe (s : string) : string :=
  match s with
  | EmptyString => EmptyString
  | String c rest =>
      String (if isSafeChar c then c else "_"%char) (replaceUnsafe rest)
  end.

(** The text of a non-negative integer in a template literal. *)
Definition numberText (n : Z) : string :=
  DecimalString.NilZero.string_of_uint (N.to_uint (Z.to_N n)).

(** [urlParts[urlParts.length - 1] || `logo.png`] *)
Definition originalFilename (url : string) : string :=
  let urlParts := split "/" url in
  match last urlParts with
  | Some part => if bool_decide (part = "") then "logo.png" else part
  | None => "logo.png"
  end.

Definition safeFilename (url : string) : string :=
  numberText (Z.abs (urlHash url)) +:+ "_"
  +:+ replaceUnsafe (originalFilename url).

(** Every character of [s] is in the class. *)
Fixpoint allSafe (s : string) : bool :=
  match s with
  | EmptyString => true
  | String c rest => isSafeChar c && allSafe rest
  end.

End LogoFile.

(** ** Colours of the standings panel (src/standings.js) *)
Module Colour.
Import Js.

(** The value of a digit in base 16. *)
Definition hexDigit (c : ascii) : option Z :=
  let n := nat_of_ascii c in
  if (48 <=? n) && (n <=? 57) then Some (Z.of_nat (n - 48))
  else if (97 <=? n) && (n <=? 102) then Some (Z.of_nat (n - 87))
  else if (65 <=? n) && (n <=? 70) then Some (Z.of_nat (n - 55))
  else None.

(** The longest prefix of digits of [s] in base 16, after the digits read
    so far; [None] when no digit has been read. *)
Fixpoint hexPrefix (acc : option Z) (s : string) : option Z :=
  match s with
  | EmptyString => acc
  | String c rest =>
      match hexDigit c with
      | Some v => hexPrefix (Some (16 * default 0%Z acc + v)%Z) rest
      | None => acc
      end
  end.

(** [parseInt(s, 16)]: white space at the front is skipped, then a sign,
    then [0x] or [0X]; the digits that follow are read, and without a
    digit the result is [NaN]. *)
Definition parseInt16 (s : string) : num :=
  let afterSpace := trimStart s in
  let negative :=
    match afterSpace with
    | String c _ => bool_decide (c = "-"%char)
    | EmptyString => false
    end in
  let afterSign :=
    match afterSpace with
    | String c rest =>
        if bool_decide (c = "-"%char) || bool_decide (c = "+"%char)
        then rest else afterSpace
    | EmptyString => afterSpace
    end in
  let digits :=
    match afterSign with
    | String c (String d rest) =>
        if bool_decide (c = "0"%char)
           && (bool_decide (d = "x"%char) || bool_decide (d = "X"%char))
        then rest else afterSign
    | _ => afterSign
    end in
  match hexPrefix None digits with
  | Some v => Fin (inject_Z (if negative then - v else v))
  | None => NaN
  end.

Record Rgb : Type := { r : num; g : num; b : num }.

(** [h.slice(from, from + 2) || '00'] *)
Definition hexPair (h : string) (from : nat) : string :=
  let pair := String.substring from 2 h in
  if bool_decide (pair = "") then "00" else pair.

Definition hexToRgb (hex : jsval) : Rgb :=
  let text := if falsy hex then "" else to_string hex in
  let h :=
    trim (match text with
          | String c rest => if bool_decide (c = "#"%char) then rest else text
          | EmptyString => text
          end) in
  {| r := parseInt16 (hexPair h 0);
     g := parseInt16 (hexPair h 2);
     b := parseInt16 (hexPair h 4) |}.

End Colour.

(* ===================================================================== *)
(** ** The pages of the standings panel (src/standings.js)

    What the loop over the chunks writes: one page per chunk, and on a
    page one table row per team with the number [processedBefore + j] of
    its [RANK] layer, the colour and the name of the team, and the name
    under which its logo is asked for.

    The logo name is the variable [tFull], which the file declares
    nowhere: the assignment in the search loop makes it a property of the
    global object (the file has no strict-mode directive), where it stays
    for later rows and later runs, and reading it before any assignment
    throws a [ReferenceError], which ends the run of the panel. The state
    of the loop is therefore [tFull], [None] while it does not exist.

    The document is taken to be the template: the layers that the loop
    looks up exist. *)
Module StandingsPages.
Import Js Standings Sheets.

(** A team as [loadTeamInfo] builds it from a row. *)
Module TeamInfo.
Record TeamInfo : Type := {
  conf : jsval;
  div : jsval;
  abb : jsval;
  teamCity : jsval;
  teamName : jsval;
  fullTeam : jsval;
  color1 : jsval;
  color2 : jsval
}.
End TeamInfo.
Abbreviation TeamInfo := TeamInfo.TeamInfo.

Definition teamOfRow (row : list string) : TeamInfo :=
  {| TeamInfo.conf := cellAt row 0; TeamInfo.div := cellAt row 1;
     TeamInfo.abb := cellAt row 2; TeamInfo.teamCity := cellAt row 3;
     TeamInfo.teamName := cellAt row 4; TeamInfo.fullTeam := cellAt row 7;
     TeamInfo.color1 := cellAt row 5; TeamInfo.color2 := cellAt row 6 |}.

(** What is written for one team of a page. *)
Module Row.
Record Row : Type := {
  rank : nat;
  line : TeamLine;
  tColor : jsval;
  tName : jsval;
  logo : jsval
}.
End Row.
Abbreviation Row := Row.Row.

(** [for (let c = 0; c < teams.length; c++)] with its [break]: the first
    team of the same full name. *)
Definition findTeam (teams : list TeamInfo) (line : TeamLine)
    : option TeamInfo :=
  find (fun team =>
          strict_eq (TeamInfo.fullTeam team) (TeamLine.fullTeam line))
       teams.

(** One turn of the inner loop, for the team [finalStandings[i]] with
    [rankNumber = processedBefore + j]: the row and [tFull] after it, or
    [None] for the [ReferenceError] of reading a [tFull] that does not
    exist. *)
Definition renderRow (teams : list TeamInfo) (tFull : option jsval)
    (rankNumber : nat) (line : TeamLine) : option (Row * option jsval) :=
  let found := findTeam teams line in
  let tColor :=
    match found with Some team => TeamInfo.color1 team | None => Str "000000"
    end in
  let tName :=
    match found with Some team => TeamInfo.teamName team | None => Str ""
    end in
  let tFull' :=
    match found with
    | Some team => Some (TeamInfo.fullTeam team)
    | None => tFull
    end in
  match tFull' with
  | None => None
  | Some logoName =>
      Some ({| Row.rank := rankNumber; Row.line := line;
               Row.tColor := tColor; Row.tName := tName;
               Row.logo := logoName |}, tFull')
  end.

(** The inner loop [for (let i = 0; i < finalStandings.length; i++)] from
    index [i] on: the rows of the page, or [None] when a turn throws. *)
Fixpoint renderRows (teams : list TeamInfo) (tFull : option jsval)
    (processedBefore i : nat) (lines : list TeamLine)
    : option (list Row * option jsval) :=
  match lines with
  | [] => Some ([], tFull)
  | line :: rest =>
      match renderRow teams tFull (processedBefore + (i + 1)) line with
      | None => None
      | Some (row, tFull') =>
          match renderRows teams tFull' processedBefore (S i) rest with
          | None => None
          | Some (rows, tFull'') => Some (row :: rows, tFull'')
          end
      end
  end.

(** What the loop over the chunks leaves: the pages exported, whether it
    threw, and [tFull]. *)
Record Run : Type := {
  exported : list (list Row);
  thrown : bool;
  tFullAfter : option jsval
}.

(** The outer loop [for (let h = 0; h < chunks.length; h++)]: an empty
    chunk ends it; a page is exported after its rows are written; after a
    page [processedBefore] grows by the length of the chunk. *)
Fixpoint pages (teams : list TeamInfo) (tFull : option jsval)
    (processedBefore : nat) (chunks : list (list TeamLine)) : Run :=
  match chunks with
  | [] => {| exported := []; thrown := false; tFullAfter := tFull |}
  | finalStandings :: rest =>
      if length finalStandings =? 0
      then {| exported := []; thrown := false; tFullAfter := tFull |}
      else
        match renderRows teams tFull processedBefore 0 finalStandings with
        | None => {| exported := []; thrown := true; tFullAfter := tFull |}
        | Some (rows, tFull') =>
            let later :=
              pages teams tFull' (processedBefore + length finalStandings)
                    rest in
            {| exported := rows :: exported later;
               thrown := thrown later;
               tFullAfter := tFullAfter later |}
        end
  end.

(** Chunking and the loop over the chunks, from the sorted teams. *)
Definition standingsPages (teams : list TeamInfo) (tFull : option jsval)
    (standings : list TeamLine) : Run :=
  pages teams tFull 0 (standingsChunks standings).

(** For the statements: what a turn writes for a team, from what the
    search finds. *)
Definition row_of (teams : list TeamInfo) (line : TeamLine) (row : Row)
    : Prop :=
  Row.line row = line
  /\ match findTeam teams line with
     | Some team =>
         Row.tColor row = TeamInfo.color1 team
         /\ Row.tName row = TeamInfo.teamName team
         /\ Row.logo row = TeamInfo.fullTeam team
     | None => Row.tColor row = Str "000000" /\ Row.tName row = Str ""
     end.

(** Teams and standings lines for the examples. *)
Definition sampleTeam (name colour : string) : TeamInfo :=
  {| TeamInfo.conf := Str "East"; TeamInfo.div := Str "Atlantic";
     TeamInfo.abb := Str "ATL"; TeamInfo.teamCity := Str "";
     TeamInfo.teamName := Str name; TeamInfo.fullTeam := Str name;
     TeamInfo.color1 := Str colour; TeamInfo.color2 := Str "" |}.

Definition sampleLine (name : string) : TeamLine :=
  teamLineOfRow [name] (LogoHandler.createHeaderMap ["Team Name"]).

End StandingsPages.

(** * Part II: theorems *)
(* ===================================================================== *)

Section ChunkFacts.
Import Standings.
Context {A : Type}.
Implicit Types (l : list A) (n m k cs : nat).

Lemma ceil_div_bounds a b :
  0 < b -> a <= b * ceil_div a b /\ b * ceil_div a b < a + b.
Proof.
  intros Hb. unfold ceil_div.
  pose proof (Nat.div_mod_eq (a + b - 1) b) as E.
  pose proof (Nat.mod_upper_bound (a + b - 1) b ltac:(lia)) as U.
  lia.
Qed.

Lemma full_chunks_S l cs j :
  full_chunks l cs (S j) = full_chunks l cs j ++ [take cs (drop (j * cs) l)].
Proof. unfold full_chunks. rewrite seq_S, fmap_app. reflexivity. Qed.

Lemma concat_full_chunks l cs j :
  concat (full_chunks l cs j) = take (j * cs) l.
Proof.
  induction j as [|j IH].
  - reflexivity.
  - replace (S j * cs) with (j * cs + cs) by lia.
    rewrite full_chunks_S, concat_app, IH, <- take_take_drop.
    simpl. now rewrite app_nil_r.
Qed.

Lemma loop_prefix l k cs j :
  0 < cs -> j <= k - 1 -> j * cs < length l ->
  foldl (chunk_step l (length l) k cs) (0, []) (seq 0 j)
  = (j * cs, full_chunks l cs j).
Proof.
  intros Hcs. induction j as [|j IH]; intros Hj Hlt.
  - reflexivity.
  - rewrite seq_S, foldl_app, IH by lia. simpl.
    assert ((j =? k - 1) = false) as -> by (apply Nat.eqb_neq; lia).
    unfold slice.
    replace (j * cs + cs - j * cs) with cs by lia.
    assert (length (take cs (drop (j * cs) l)) = cs) as Hlen.
    { rewrite length_take, length_drop. lia. }
    rewrite Hlen. destruct cs; [lia|]. simpl.
    rewrite full_chunks_S. f_equal. lia.
Qed.

Lemma loop_result l k cs :
  0 < cs -> 0 < k -> (k - 1) * cs < length l ->
  snd (foldl (chunk_step l (length l) k cs) (0, []) (seq 0 k))
  = full_chunks l cs (k - 1) ++ [drop ((k - 1) * cs) l].
Proof.
  intros Hcs Hk Hlt.
  replace k with (S (k - 1)) at 2 by lia.
  rewrite seq_S, foldl_app, loop_prefix by lia. simpl.
  rewrite Nat.eqb_refl. unfold slice.
  rewrite take_ge by (rewrite length_drop; lia).
  destruct (length (drop ((k - 1) * cs) l)) eqn:E.
  - rewrite length_drop in E. lia.
  - reflexivity.
Qed.

Lemma full_chunks_length l cs j c i :
  j * cs <= length l -> full_chunks l cs j !! i = Some c -> length c = cs.
Proof.
  unfold full_chunks. intros Hj Hi.
  apply list_lookup_fmap_Some in Hi as (i' & -> & Hi').
  apply lookup_seq in Hi' as [-> Hlt]. simpl.
  rewrite length_take, length_drop. nia.
Qed.

(** C1. For every list of items and every maximum of at least one, the
    chunks of [splitIntoChunks] concatenate to the items; a list that fits
    in one chunk is returned as the single chunk; otherwise there are
    [numChunks = ceil(n / max)] chunks, all but the last of length
    [chunkSize = ceil(n / numChunks)], the last non-empty and at most
    [chunkSize] long, and none longer than the maximum. 19, 12 and 5 items
    with maximum 9 give the sizes 7 7 5, 6 6 and 5. *)
Theorem splitIntoChunks_balanced (items : list A) (maxPerChunk : nat) :
  1 <= maxPerChunk ->
  let n := length items in
  let cs := splitIntoChunks maxPerChunk items in
  concat cs = items
  /\ (n <= maxPerChunk -> cs = [items])
  /\ (maxPerChunk < n ->
       let numChunks := ceil_div n maxPerChunk in
       let chunkSize := ceil_div n numChunks in
       length cs = numChunks
       /\ (forall i c, i < numChunks - 1 -> cs !! i = Some c ->
                       length c = chunkSize)
       /\ (forall c, last cs = Some c -> 1 <= length c <= chunkSize)
       /\ (forall c, c ∈ cs -> length c <= maxPerChunk))
  /\ length <$> standingsChunks (seq 0 19) = [7; 7; 5]
  /\ length <$> standingsChunks (seq 0 12) = [6; 6]
  /\ length <$> standingsChunks (seq 0 5) = [5].
Proof.
  intros Hmax n cs.
  assert (n <= maxPerChunk -> cs = [items]) as Hsmall.
  { intros Hle. subst cs. unfold splitIntoChunks.
    apply Nat.leb_le in Hle. fold n. now rewrite Hle. }
  assert (maxPerChunk < n ->
          let k := ceil_div n maxPerChunk in
          let sz := ceil_div n k in
          (0 < sz /\ 0 < k /\ sz <= maxPerChunk /\ (k - 1) * sz < n
           /\ n <= k * sz)
          /\ cs = full_chunks items sz (k - 1) ++ [drop ((k - 1) * sz) items])
    as Hbig.
  { intros Hlt k sz.
    destruct (ceil_div_bounds n maxPerChunk) as [K1 K2]; [lia|].
    fold k in K1, K2.
    assert (0 < k) as Hk by nia.
    destruct (ceil_div_bounds n k) as [S1 S2]; [lia|].
    fold sz in S1, S2.
    assert (0 < sz) as Hsz by nia.
    assert (sz <= maxPerChunk) as Hszm by nia.
    assert ((k - 1) * sz < n) as Hlast by nia.
    split; [repeat split; try lia; nia|].
    subst cs. unfold splitIntoChunks. fold n.
    assert ((n <=? maxPerChunk) = false) as -> by (apply Nat.leb_gt; lia).
    fold k. fold sz. apply loop_result; assumption. }
  split; [|split; [exact Hsmall|split; [|repeat split; reflexivity]]].
  - destruct (Nat.le_gt_cases n maxPerChunk) as [Hle|Hlt].
    + rewrite (Hsmall Hle). simpl. apply app_nil_r.
    + destruct (Hbig Hlt) as [_ ->].
      rewrite concat_app, concat_full_chunks. simpl. rewrite app_nil_r.
      apply take_drop.
  - intros Hlt numChunks chunkSize.
    destruct (Hbig Hlt) as [(Hsz & Hk & Hszm & Hlast & Hcover) ->].
    fold numChunks chunkSize in Hsz, Hk, Hszm, Hlast, Hcover |- *.
    assert (length (full_chunks items chunkSize (numChunks - 1))
            = numChunks - 1) as Hfl.
    { unfold full_chunks. now rewrite length_fmap, length_seq. }
    split; [|split; [|split]].
    + rewrite length_app, Hfl. simpl. lia.
    + intros i c Hi Hc.
      rewrite lookup_app_l in Hc by lia.
      eapply full_chunks_length; [|exact Hc]. fold n. lia.
    + intros c Hc. rewrite last_snoc in Hc. injection Hc as <-.
      rewrite length_drop. fold n. nia.
    + intros c Hc. apply elem_of_app in Hc as [Hc|Hc].
      * apply list_elem_of_lookup in Hc as [i Hc].
        erewrite full_chunks_length; [exact Hszm| |exact Hc]. fold n. lia.
      * apply list_elem_of_singleton in Hc as ->.
        rewrite length_drop. fold n. nia.
Qed.

End ChunkFacts.

(** The partition of 20 teams under the panel's maximum of 9. *)
Lemma splitIntoChunks_balanced_witness :
  1 <= 9
  /\ concat (Standings.splitIntoChunks 9 (seq 0 20)) = seq 0 20
  /\ length <$> Standings.splitIntoChunks 9 (seq 0 20) = [7; 7; 6].
Proof.
  split; [lia|].
  split; [apply (splitIntoChunks_balanced (seq 0 20) 9); lia | reflexivity].
Defined.

Section HeaderFacts.
Import Js LogoHandler.
Implicit Types (row headerRow : list string) (headerMap : gmap string nat).

Lemma createHeaderMap_from_absent i headerRow headerMap columnName :
  columnName ∉ headerRow ->
  createHeaderMap_from i headerRow headerMap !! columnName
  = headerMap !! columnName.
Proof.
  revert i headerMap.
  induction headerRow as [|name rest IH]; intros i headerMap Hnot.
  - reflexivity.
  - simpl. apply not_elem_of_cons in Hnot as [Hne Hrest].
    rewrite IH by exact Hrest.
    case_bool_decide; [reflexivity|].
    now rewrite lookup_insert_ne by congruence.
Qed.

(** A name of the header row is mapped to a position where the row has
    it (the last one, since later columns overwrite earlier ones). *)
Lemma createHeaderMap_from_present i headerRow headerMap columnName :
  columnName ∈ headerRow -> columnName <> "__proto__" ->
  exists j, headerRow !! j = Some columnName
            /\ createHeaderMap_from i headerRow headerMap !! columnName
               = Some (i + j).
Proof.
  intros Hin Hproto. revert i headerMap.
  induction headerRow as [|name rest IH]; intros i headerMap;
    [now apply elem_of_nil in Hin|].
  simpl. destruct (decide (columnName ∈ rest)) as [Hrest|Hrest].
  - destruct (IH Hrest (S i)
                (if bool_decide (name = "__proto__") then headerMap
                 else <[name := i]> headerMap)) as (j & Hj & Hmap).
    exists (S j). split; [exact Hj|]. rewrite Hmap. f_equal. lia.
  - apply elem_of_cons in Hin as [->|Hin]; [|contradiction].
    exists 0. split; [reflexivity|].
    rewrite bool_decide_eq_false_2 by exact Hproto.
    rewrite createHeaderMap_from_absent by exact Hrest.
    rewrite lookup_insert_eq. f_equal. lia.
Qed.

(** C9. For every row and every header row that does not contain the
    column name, [getValue] over the header map of that header row returns
    the empty string. *)
Theorem getValue_absent_column row headerRow columnName :
  columnName ∉ headerRow ->
  getValue row columnName (createHeaderMap headerRow) = Str "".
Proof.
  intros Hnot. unfold getValue, createHeaderMap.
  now rewrite createHeaderMap_from_absent, lookup_empty.
Qed.

(** C10. When the header map has the column name and the row ends before
    the mapped index, [getValue] returns [undefined], which is not the empty
    string; it returns [undefined] in no other case, and the empty-string
    default is what a name missing from the map gets. *)
Theorem getValue_short_row headerMap row columnName :
  (forall idx, headerMap !! columnName = Some idx -> length row <= idx ->
               getValue row columnName headerMap = Undefined)
  /\ (getValue row columnName headerMap = Undefined <->
      exists idx, headerMap !! columnName = Some idx /\ length row <= idx)
  /\ (headerMap !! columnName = None ->
      getValue row columnName headerMap = Str "")
  /\ Undefined <> Str "".
Proof.
  assert (forall idx, headerMap !! columnName = Some idx -> length row <= idx ->
                      getValue row columnName headerMap = Undefined) as Hshort.
  { intros idx Hidx Hlen. unfold getValue. rewrite Hidx.
    apply lookup_ge_None_2 in Hlen. now rewrite Hlen. }
  split; [exact Hshort|]. split; [|split; [|discriminate]].
  - split.
    + unfold getValue. destruct (headerMap !! columnName) as [idx|] eqn:Hidx;
        [|discriminate].
      destruct (row !! idx) as [cell|] eqn:Hcell; [discriminate|].
      intros _. exists idx. split; [reflexivity|].
      now apply lookup_ge_None_1.
    + intros (idx & Hidx & Hlen). now apply (Hshort idx).
  - intros Hnone. unfold getValue. now rewrite Hnone.
Qed.

End HeaderFacts.

(** A two-cell row read through a three-column header. *)
Lemma getValue_absent_column_witness :
  ("D" ∉ ["A"; "B"; "C"])
  /\ LogoHandler.getValue ["x"; "y"] "D"
       (LogoHandler.createHeaderMap ["A"; "B"; "C"]) = Js.Str "".
Proof.
  assert ("D" ∉ ["A"; "B"; "C"]) as Hnot.
  { intros Hin. repeat (apply elem_of_cons in Hin as [Hin|Hin]; [discriminate|]).
    now apply elem_of_nil in Hin. }
  split; [exact Hnot|].
  exact (getValue_absent_column ["x"; "y"] ["A"; "B"; "C"] "D" Hnot).
Defined.

(** The third column of a two-cell row. *)
Lemma getValue_short_row_witness :
  LogoHandler.createHeaderMap ["A"; "B"; "C"] !! "C" = Some 2
  /\ length ["x"; "y"] <= 2
  /\ LogoHandler.getValue ["x"; "y"] "C"
       (LogoHandler.createHeaderMap ["A"; "B"; "C"]) = Js.Undefined.
Proof.
  assert (LogoHandler.createHeaderMap ["A"; "B"; "C"] !! "C" = Some 2) as Hidx
    by (vm_compute; reflexivity).
  split; [exact Hidx|]. split; [simpl; lia|].
  apply (proj1 (getValue_short_row
                  (LogoHandler.createHeaderMap ["A"; "B"; "C"])
                  ["x"; "y"] "C") 2 Hidx).
  simpl. lia.
Defined.

Section StringFacts.
Import Js.
Implicit Types (s t u : string) (c : ascii).

Lemma str_app_cons c s t : String c s +:+ t = String c (s +:+ t).
Proof. reflexivity. Qed.

Lemma str_app_nil_l s : "" +:+ s = s.
Proof. reflexivity. Qed.

Lemma str_app_nil_r s : s +:+ "" = s.
Proof. induction s as [|c s IH]; [reflexivity|]. now rewrite str_app_cons, IH. Qed.

Lemma str_app_assoc s t u : (s +:+ t) +:+ u = s +:+ (t +:+ u).
Proof.
  induction s as [|c s IH]; [reflexivity|].
  now rewrite !str_app_cons, IH.
Qed.

Lemma occurs_app c s t : occurs c (s +:+ t) = occurs c s || occurs c t.
Proof.
  induction s as [|d s IH]; [reflexivity|].
  rewrite str_app_cons. simpl. rewrite IH. apply orb_assoc.
Qed.

Lemma trimEnd_empty s : trimEnd s = "" <-> LogoHandler.all_ws s = true.
Proof.
  induction s as [|c s IH]; simpl; [tauto|].
  destruct (trimEnd s) as [|d kept].
  - destruct (is_ws c); simpl; [rewrite <- IH; tauto|].
    split; discriminate.
  - split; [discriminate|].
    intros [_ Hs]%andb_true_iff. apply IH in Hs. discriminate.
Qed.

Lemma all_ws_trimStart s :
  LogoHandler.all_ws (trimStart s) = LogoHandler.all_ws s.
Proof.
  induction s as [|c s IH]; [reflexivity|]. simpl.
  destruct (is_ws c) eqn:Hc; simpl; [exact IH|]. now rewrite Hc.
Qed.

Lemma trim_empty s : trim s = "" <-> LogoHandler.all_ws s = true.
Proof. unfold trim. now rewrite trimEnd_empty, all_ws_trimStart. Qed.







Lemma trimEnd_cons c s :
  trimEnd (String c s)
  = match trimEnd s with
    | EmptyString => if is_ws c then EmptyString else String c EmptyString
    | kept => String c kept
    end.
Proof. reflexivity. Qed.



End StringFacts.

Section ParserFacts.
Import Js LogoHandler.
Implicit Types (s t line rest : string) (c : ascii) (q : bool)
  (arr row : list string).

Lemma spec_cells_cons q line :
  exists cell others, spec_cells q line = cell :: others.
Proof.
  revert q. induction line as [|c line IH]; intros q; simpl; [eauto|].
  case_bool_decide; [apply IH|].
  destruct (bool_decide (c = COMMA) && negb q); [eauto|].
  destruct (IH q) as (cell & others & ->). eauto.
Qed.


(** The character loop, with its three accumulators, reads the cells of
    [spec_cells]. *)
Lemma line_loop_spec line arr cur q :
  let '(arr', cur', _) := line_loop line (arr, cur, q) in
  arr' ++ [trim cur'] = arr ++ (trim <$> prepend cur (spec_cells q line)).
Proof.
  revert arr cur q. induction line as [|c line IH]; intros arr cur q; simpl.
  - now rewrite str_app_nil_r.
  - case_bool_decide as Hq; simpl.
    + apply IH.
    + destruct (bool_decide (c = COMMA) && negb q) eqn:Hc.
      * specialize (IH (arr ++ [trim cur]) "" q).
        destruct (line_loop line (arr ++ [trim cur], "", q)) as [[arr' cur'] q'].
        rewrite IH.
        destruct (spec_cells_cons q line) as (cell & others & ->). simpl.
        rewrite str_app_nil_r, <- app_assoc. reflexivity.
      * specialize (IH arr (cur +:+ String c "") q).
        destruct (line_loop line (arr, cur +:+ String c "", q))
          as [[arr' cur'] q'].
        rewrite IH.
        destruct (spec_cells_cons q line) as (cell & others & ->). simpl.
        now rewrite str_app_assoc.
Qed.

Lemma parseLine_spec line : parseLine line = trim <$> spec_cells false line.
Proof.
  unfold parseLine. pose proof (line_loop_spec line [] "" false) as H.
  destruct (line_loop line ([], "", false)) as [[arr' cur'] q'].
  rewrite H. simpl.
  destruct (spec_cells_cons false line) as (cell & others & ->).
  reflexivity.
Qed.

Lemma parse_lines_spec (lines : list string) (result : list (list string)) :
  foldl (fun result line =>
           if bool_decide (trim line = "") then result
           else result ++ [parseLine line]) result lines
  = result ++ (parseLine <$> filter (fun line => all_ws line = false) lines).
Proof.
  revert result. induction lines as [|line lines IH]; intros result; simpl.
  - now rewrite app_nil_r.
  - rewrite IH. case_bool_decide as Hblank.
    + apply trim_empty in Hblank.
      rewrite filter_cons_False by congruence. reflexivity.
    + assert (all_ws line = false) as Hline.
      { destruct (all_ws line) eqn:E; [|reflexivity].
        apply trim_empty in E. contradiction. }
      rewrite filter_cons_True by exact Hline.
      simpl. now rewrite <- app_assoc.
Qed.

Lemma parseCSV_spec text : parseCSV text = spec_parseCSV text.
Proof.
  unfold parseCSV, spec_parseCSV. rewrite parse_lines_spec. simpl.
  apply list_fmap_ext. intros _ line _. apply parseLine_spec.
Qed.






Lemma stripCR_id s : occurs CR s = false -> stripCR s = s.
Proof.
  induction s as [|c s IH]; [reflexivity|]. simpl.
  intros [Hc Hs]%orb_false_iff. now rewrite Hc, IH.
Qed.

Lemma splitLines_one s : occurs LF s = false -> splitLines s = [s].
Proof.
  induction s as [|c s IH]; [reflexivity|]. simpl.
  intros [Hc Hs]%orb_false_iff. now rewrite Hc, IH.
Qed.





End ParserFacts.


Section RoundTrip.
Import Js LogoHandler.
Implicit Types (s t cell : string) (c : ascii) (q : bool) (row : list string).


(** A stretch without quotes that is inside a quoted span, or has no comma,
    goes to the cell being read. *)
Lemma spec_cells_stretch q s t :
  occurs QUOTE s = false ->
  q = true \/ occurs COMMA s = false ->
  spec_cells q (s +:+ t) = prepend s (spec_cells q t).
Proof.
  induction s as [|c s IH]; intros Hquote Hcomma.
  - rewrite str_app_nil_l.
    destruct (spec_cells_cons q t) as (cell & others & ->). reflexivity.
  - rewrite str_app_cons. simpl in *.
    apply orb_false_iff in Hquote as [Hc Hs]. rewrite Hc.
    assert (bool_decide (c = COMMA) && negb q = false) as ->.
    { destruct Hcomma as [->|[Hcm _]%orb_false_iff];
        [apply andb_false_r|now rewrite Hcm]. }
    rewrite IH; [|exact Hs|].
    + destruct (spec_cells_cons q t) as (cell & others & ->). reflexivity.
    + destruct Hcomma as [->|[_ Hcm]%orb_false_iff]; auto.
Qed.

Lemma spec_cells_serializeCell cell t :
  occurs QUOTE cell = false ->
  spec_cells false (serializeCell cell +:+ t) = prepend cell (spec_cells false t).
Proof.
  intros Hquote. unfold serializeCell.
  destruct (occurs COMMA cell) eqn:Hcomma.
  - rewrite str_app_cons. simpl.
    rewrite str_app_assoc, spec_cells_stretch by auto.
    reflexivity.
  - apply spec_cells_stretch; auto.
Qed.

Lemma serialize_cons cell cell' row :
  serialize (cell :: cell' :: row)
  = serializeCell cell +:+ String COMMA (serialize (cell' :: row)).
Proof. reflexivity. Qed.

Lemma spec_cells_serialize row :
  row <> [] ->
  (forall cell, cell ∈ row -> occurs QUOTE cell = false) ->
  spec_cells false (serialize row) = row.
Proof.
  induction row as [|cell [|cell' row] IH]; intros Hne Hquote; [done| |].
  - unfold serialize. simpl.
    rewrite <- (str_app_nil_r (serializeCell cell)).
    rewrite spec_cells_serializeCell by (apply Hquote; left).
    simpl. now rewrite str_app_nil_r.
  - rewrite serialize_cons, spec_cells_serializeCell by (apply Hquote; left).
    cbn [spec_cells]. simpl bool_decide. cbn [andb negb].
    rewrite IH; [|done|intros ? ?; apply Hquote; now right].
    simpl. now rewrite str_app_nil_r.
Qed.

Lemma occurs_serializeCell c cell :
  c <> COMMA -> c <> QUOTE -> occurs c (serializeCell cell) = occurs c cell.
Proof.
  intros Hcomma Hquote. unfold serializeCell.
  destruct (occurs COMMA cell); [|reflexivity].
  simpl. rewrite occurs_app. simpl.
  rewrite !bool_decide_eq_false_2 by congruence.
  now rewrite !orb_false_r.
Qed.

Lemma occurs_serialize c row :
  c <> COMMA -> c <> QUOTE ->
  (forall cell, cell ∈ row -> occurs c cell = false) ->
  occurs c (serialize row) = false.
Proof.
  intros Hcomma Hquote.
  induction row as [|cell [|cell' row] IH]; intros Hcells; [reflexivity| |].
  - unfold serialize. simpl. rewrite occurs_serializeCell by assumption.
    apply Hcells. left.
  - rewrite serialize_cons, occurs_app, occurs_serializeCell by assumption.
    rewrite (Hcells cell) by left. simpl.
    rewrite bool_decide_eq_false_2 by congruence. simpl.
    apply IH. intros ? ?. apply Hcells. now right.
Qed.

Lemma all_ws_app_false_l s t : all_ws s = false -> all_ws (s +:+ t) = false.
Proof.
  induction s as [|c s IH]; [discriminate|]. rewrite str_app_cons. simpl.
  destruct (is_ws c); simpl; [exact IH|reflexivity].
Qed.

Lemma all_ws_app_false_r s t : all_ws t = false -> all_ws (s +:+ t) = false.
Proof.
  intros Ht. induction s as [|c s IH]; [exact Ht|]. rewrite str_app_cons.
  simpl. rewrite IH. apply andb_false_r.
Qed.

Lemma all_ws_serializeCell cell :
  trim cell = cell -> cell <> "" -> all_ws (serializeCell cell) = false.
Proof.
  intros Htrim Hne. unfold serializeCell.
  destruct (occurs COMMA cell); [reflexivity|].
  destruct (all_ws cell) eqn:E; [|reflexivity].
  apply trim_empty in E. congruence.
Qed.

Lemma all_ws_serialize row :
  row <> [] -> row <> [""] ->
  (forall cell, cell ∈ row -> trim cell = cell) ->
  all_ws (serialize row) = false.
Proof.
  destruct row as [|cell [|cell' row]]; intros Hne Hne' Htrim; [done| |].
  - unfold serialize. simpl. apply all_ws_serializeCell.
    + apply Htrim. left.
    + congruence.
  - rewrite serialize_cons. apply all_ws_app_false_r. reflexivity.
Qed.

(** C6, as amended. For every row other than the empty row and the row of
    one empty cell, whose cells are already trimmed and contain no quote
    character, carriage return or line feed, parsing the serialized row
    gives back exactly that row; commas inside cells are allowed. *)
Theorem parse_serialize_roundtrip row :
  row <> [] -> row <> [""] ->
  (forall cell, cell ∈ row ->
     trim cell = cell /\ occurs QUOTE cell = false
     /\ occurs CR cell = false /\ occurs LF cell = false) ->
  parseCSV (serialize row) = [row].
Proof.
  intros Hne Hne' Hcells.
  rewrite parseCSV_spec. unfold spec_parseCSV.
  rewrite stripCR_id, splitLines_one;
    try (apply occurs_serialize; [done|done|intros ? ?; now apply Hcells]).
  rewrite filter_cons_True
    by (apply all_ws_serialize; [done|done|intros ? ?; now apply Hcells]).
  rewrite filter_nil. simpl. f_equal.
  rewrite spec_cells_serialize; [|done|intros ? ?; now apply Hcells].
  rewrite <- (list_fmap_id row) at 2.
  apply list_fmap_ext. intros i cell Hcell.
  apply list_elem_of_lookup_2 in Hcell. now apply Hcells.
Qed.

End RoundTrip.

(** A cell that starts with a space does not survive the round trip: the
    parser trims it. *)
Lemma parse_serialize_roundtrip_counterexample :
  LogoHandler.parseCSV (LogoHandler.serialize [" a"]) = [["a"]]
  /\ LogoHandler.parseCSV (LogoHandler.serialize [" a"]) <> [[" a"]]
  /\ ~ (forall row : list string,
          LogoHandler.parseCSV (LogoHandler.serialize row) = [row]).
Proof.
  assert (LogoHandler.parseCSV (LogoHandler.serialize [" a"]) = [["a"]])
    as Hrun by reflexivity.
  split; [exact Hrun|]. split.
  - rewrite Hrun. discriminate.
  - intros Hall. specialize (Hall [" a"]). rewrite Hrun in Hall.
    discriminate.
Qed.

(** A three-cell row with a comma inside its second cell. *)
Lemma parse_serialize_roundtrip_witness :
  LogoHandler.parseCSV (LogoHandler.serialize ["a"; "b,c"; ""])
  = [["a"; "b,c"; ""]].
Proof.
  apply (parse_serialize_roundtrip ["a"; "b,c"; ""]); [done|done|].
  intros cell Hcell.
  repeat (apply elem_of_cons in Hcell as [E|Hcell];
          [rewrite E; repeat split; reflexivity|]).
  now apply elem_of_nil in Hcell.
Defined.

Section RegistryFacts.
Import Js LogoHandler.
Implicit Types (cache : gmap string LeagueUrls) (rows : list (list string))
  (headerMap : gmap string nat) (leagueName : string).

Lemma toLowerCase_empty s : toLowerCase s = "" -> s = "".
Proof. destruct s; [reflexivity|discriminate]. Qed.

(** The loop passes over the rows that do not match. *)
Lemma findLeagueRow_skip before rows headerMap leagueName :
  (forall r, r ∈ before ->
     toLowerCase (leagueCellOf r headerMap) <> toLowerCase leagueName) ->
  findLeagueRow (before ++ rows) headerMap leagueName
  = findLeagueRow rows headerMap leagueName.
Proof.
  induction before as [|r before IH]; intros Hno; [reflexivity|].
  simpl. rewrite IH by (intros ? ?; apply Hno; now right).
  case_bool_decide; [reflexivity|].
  rewrite bool_decide_eq_false_2; [reflexivity|]. apply Hno. left.
Qed.

Lemma findLeagueRow_none rows headerMap leagueName :
  (forall r, r ∈ rows ->
     toLowerCase (leagueCellOf r headerMap) <> toLowerCase leagueName) ->
  findLeagueRow rows headerMap leagueName = noUrls.
Proof.
  intros Hno. rewrite <- (app_nil_r rows). now rewrite findLeagueRow_skip.
Qed.

Lemma findLeagueRow_first before row after headerMap leagueName :
  leagueName <> "" ->
  (forall r, r ∈ before ->
     toLowerCase (leagueCellOf r headerMap) <> toLowerCase leagueName) ->
  toLowerCase (leagueCellOf row headerMap) = toLowerCase leagueName ->
  findLeagueRow (before ++ row :: after) headerMap leagueName
  = rowUrls row headerMap.
Proof.
  intros Hname Hno Hrow. rewrite findLeagueRow_skip by exact Hno. simpl.
  rewrite bool_decide_eq_false_2.
  - now rewrite bool_decide_eq_true_2.
  - intros Hempty. rewrite Hempty in Hrow. symmetry in Hrow.
    now apply toLowerCase_empty in Hrow.
Qed.

Lemma readCache_own cache leagueName urls :
  cache !! leagueName = Some urls ->
  readCache cache leagueName = Some (Urls urls).
Proof. intros Hown. unfold readCache. now rewrite Hown. Qed.

Lemma readCache_inherited cache leagueName :
  cache !! leagueName = None -> leagueName ∈ prototypeNames ->
  readCache cache leagueName = Some (PrototypeMember leagueName).
Proof.
  intros Hmiss Hproto. unfold readCache.
  now rewrite Hmiss, bool_decide_eq_true_2.
Qed.

Lemma readCache_none cache leagueName :
  readCache cache leagueName = None
  <-> cache !! leagueName = None /\ leagueName ∉ prototypeNames.
Proof.
  unfold readCache. destruct (cache !! leagueName) as [urls|].
  - split; [discriminate|]. now intros [? _].
  - case_bool_decide as Hproto.
    + split; [discriminate|]. now intros [_ ?].
    + split; [now intros _|reflexivity].
Qed.

(** What is cached is found again. *)
Lemma readCache_insert cache leagueName urls :
  readCache (<[leagueName := urls]> cache) leagueName = Some (Urls urls).
Proof. apply readCache_own, lookup_insert_eq. Qed.

(** C4, as amended. When the cache gives nothing for the league name, that
    is, no addresses are cached under it and it is not the name of a
    property that every object inherits, the call throws, and leaves the
    cache as it was, in each of these cases: the name is empty or missing;
    the fetch of the master sheet fails (the error of the fetch is passed
    on); the sheet has no rows; no row after the header has a LEAGUE cell
    equal to the name up to case; the first such row has one of the six
    address cells blank. The first three cases have an error of their own,
    the last two share one. It returns addresses only when all six
    addresses of the first matching row are non-empty, returns exactly
    those, and stores them under the league name, after which every call
    for that name returns them without looking at the sheet. For a league
    named like an inherited property ([constructor], [toString] and the
    like) with no addresses cached under the name, the call returns that
    property, whatever the sheet holds and without an error. *)
Theorem getLeagueCsvUrls_outcomes cache (baseFolderName : jsval)
    (fetched : outcome string) :
  let leagueName := trimmed_text baseFolderName in
  let result := getLeagueCsvUrls cache baseFolderName fetched in
  (leagueName = "" -> result = (Throw BaseFolderNameMissing, cache))
  /\ (leagueName <> "" -> cache !! leagueName = None ->
      leagueName ∉ prototypeNames ->
      (forall e, fetched = Throw e -> result = (Throw e, cache))
      /\ (forall csv, fetched = Return csv -> parseCSV csv = [] ->
            result = (Throw MasterSheetEmpty, cache))
      /\ (forall csv headerRow rows,
            fetched = Return csv -> parseCSV csv = headerRow :: rows ->
            let headerMap := createHeaderMap headerRow in
            ((forall r, r ∈ rows ->
                toLowerCase (leagueCellOf r headerMap)
                <> toLowerCase leagueName) ->
             result = (Throw (LeagueNotFoundOrUrlsMissing leagueName), cache))
            /\ (forall before row after,
                  rows = before ++ row :: after ->
                  (forall r, r ∈ before ->
                     toLowerCase (leagueCellOf r headerMap)
                     <> toLowerCase leagueName) ->
                  toLowerCase (leagueCellOf row headerMap)
                  = toLowerCase leagueName ->
                  let urls := rowUrls row headerMap in
                  (anyUrlMissing urls = true ->
                   result
                   = (Throw (LeagueNotFoundOrUrlsMissing leagueName), cache))
                  /\ (anyUrlMissing urls = false ->
                      result
                      = (Return (Urls urls), <[leagueName := urls]> cache)))))
  /\ (leagueName <> "" -> cache !! leagueName = None ->
      leagueName ∈ prototypeNames ->
      result = (Return (PrototypeMember leagueName), cache))
  /\ (forall urls, cache !! leagueName = None ->
        result.1 = Return (Urls urls) ->
        anyUrlMissing urls = false
        /\ result.2 = <[leagueName := urls]> cache)
  /\ (forall e, result.1 = Throw e -> result.2 = cache)
  /\ (forall entry fetched', result.1 = Return entry ->
        getLeagueCsvUrls result.2 baseFolderName fetched'
        = (Return entry, result.2))
  /\ ((forall k u, cache !! k = Some u -> anyUrlMissing u = false) ->
      (forall urls, result.1 = Return (Urls urls) ->
         anyUrlMissing urls = false)
      /\ (forall k u, result.2 !! k = Some u -> anyUrlMissing u = false)).
Proof.
  intros leagueName result.
  split; [|split; [|split; [|split; [|split; [|split]]]]].
  - intros Hname. subst result. unfold getLeagueCsvUrls. fold leagueName.
    now rewrite bool_decide_eq_true_2.
  - intros Hname Hmiss Hplain. subst result. unfold getLeagueCsvUrls.
    fold leagueName. rewrite bool_decide_eq_false_2 by exact Hname.
    rewrite (proj2 (readCache_none cache leagueName) (conj Hmiss Hplain)).
    split; [|split].
    + now intros e ->.
    + now intros csv -> ->.
    + intros csv headerRow rows -> ->. cbv zeta. split.
      * intros Hno. now rewrite findLeagueRow_none.
      * intros before row after -> Hno Hrow.
        rewrite findLeagueRow_first by assumption.
        split; now intros ->.
  - intros Hname Hmiss Hproto. subst result. unfold getLeagueCsvUrls.
    fold leagueName. rewrite bool_decide_eq_false_2 by exact Hname.
    now rewrite readCache_inherited.
  - intros urls Hmiss. subst result. unfold getLeagueCsvUrls.
    fold leagueName. unfold readCache. rewrite Hmiss.
    case_bool_decide; [discriminate|].
    case_bool_decide; [discriminate|].
    destruct fetched as [csv|e]; [|discriminate].
    destruct (parseCSV csv) as [|headerRow rows]; [discriminate|].
    destruct (anyUrlMissing _) eqn:Hurls; [discriminate|].
    simpl. intros [= <-]. now split.
  - intros e. subst result. unfold getLeagueCsvUrls. fold leagueName.
    case_bool_decide; [reflexivity|].
    destruct (readCache cache leagueName); [reflexivity|].
    destruct fetched as [csv|e']; [|reflexivity].
    destruct (parseCSV csv) as [|headerRow rows]; [reflexivity|].
    destruct (anyUrlMissing _); [reflexivity|discriminate].
  - intros entry fetched'. subst result. unfold getLeagueCsvUrls.
    fold leagueName.
    case_bool_decide as Hname; [discriminate|].
    destruct (readCache cache leagueName) as [cached|] eqn:Hcache.
    + simpl. intros [= <-]. now rewrite Hcache.
    + destruct fetched as [csv|e']; [|discriminate].
      destruct (parseCSV csv) as [|headerRow rows]; [discriminate|].
      destruct (anyUrlMissing _); [discriminate|].
      simpl. intros [= <-]. now rewrite readCache_insert.
  - intros Hcomplete. subst result. unfold getLeagueCsvUrls.
    fold leagueName.
    case_bool_decide as Hname; [split; [discriminate|exact Hcomplete]|].
    destruct (readCache cache leagueName) as [cached|] eqn:Hcache.
    { split; [|exact Hcomplete].
      simpl. intros urls [= ->]. unfold readCache in Hcache.
      destruct (cache !! leagueName) as [own|] eqn:Hown.
      - injection Hcache as <-. now apply (Hcomplete leagueName).
      - now case_bool_decide. }
    destruct fetched as [csv|e']; [|split; [discriminate|exact Hcomplete]].
    destruct (parseCSV csv) as [|headerRow rows];
      [split; [discriminate|exact Hcomplete]|].
    destruct (anyUrlMissing _) eqn:Hurls;
      [split; [discriminate|exact Hcomplete]|].
    simpl. split; [now intros urls [= <-]|].
    intros k u [[_ <-]|[_ Hk]]%lookup_insert_Some;
      [exact Hurls|now apply (Hcomplete k)].
Qed.

(** After [invalidateLeagueCache] nothing is cached under the league name,
    and the other leagues keep their addresses. *)
Lemma invalidateLeagueCache_miss cache (baseFolderName : jsval) :
  let leagueName := trimmed_text baseFolderName in
  leagueName <> "" ->
  invalidateLeagueCache cache baseFolderName !! leagueName = None
  /\ forall other, other <> leagueName ->
       invalidateLeagueCache cache baseFolderName !! other = cache !! other.
Proof.
  intros leagueName Hname. unfold invalidateLeagueCache. fold leagueName.
  rewrite bool_decide_eq_false_2 by exact Hname. split.
  - apply lookup_delete_eq.
  - intros other Hother. now apply lookup_delete_ne.
Qed.

End RegistryFacts.

(** An empty folder name and an empty master sheet are reported with errors
    of their own, not with the error of a league that is not found; once
    the addresses of a league are cached, an empty master sheet does not make
    the call fail; and for a folder called constructor, which no row of the
    sheet names, the call does not fail either. *)
Lemma getLeagueCsvUrls_outcomes_counterexample :
  LogoHandler.getLeagueCsvUrls ∅ (Js.Str "")
      (LogoHandler.Return LogoHandler.sampleMasterCsv)
    = (LogoHandler.Throw LogoHandler.BaseFolderNameMissing, ∅)
  /\ LogoHandler.BaseFolderNameMissing
     <> LogoHandler.LeagueNotFoundOrUrlsMissing ""
  /\ LogoHandler.getLeagueCsvUrls ∅ (Js.Str "NHL") (LogoHandler.Return "")
     = (LogoHandler.Throw LogoHandler.MasterSheetEmpty, ∅)
  /\ LogoHandler.MasterSheetEmpty
     <> LogoHandler.LeagueNotFoundOrUrlsMissing "NHL"
  /\ LogoHandler.parseCSV "" = []
  /\ LogoHandler.getLeagueCsvUrls (<["NHL" := LogoHandler.sampleUrls]> ∅)
       (Js.Str "NHL") (LogoHandler.Return "")
     = (LogoHandler.Return (LogoHandler.Urls LogoHandler.sampleUrls),
        <["NHL" := LogoHandler.sampleUrls]> ∅)
  /\ LogoHandler.getLeagueCsvUrls ∅ (Js.Str "constructor")
       (LogoHandler.Return LogoHandler.sampleMasterCsv)
     = (LogoHandler.Return (LogoHandler.PrototypeMember "constructor"), ∅).
Proof.
  repeat split; try discriminate; vm_compute; reflexivity.
Qed.

(** The league of the sample sheet, asked for in lower case and with spaces
    around the name. *)
Lemma getLeagueCsvUrls_outcomes_witness :
  LogoHandler.getLeagueCsvUrls ∅ (Js.Str " nhl ")
    (LogoHandler.Return LogoHandler.sampleMasterCsv)
  = (LogoHandler.Return (LogoHandler.Urls LogoHandler.sampleUrls),
     <["nhl" := LogoHandler.sampleUrls]> ∅).
Proof.
  pose proof (getLeagueCsvUrls_outcomes ∅ (Js.Str " nhl ")
                (LogoHandler.Return LogoHandler.sampleMasterCsv)) as H.
  cbv zeta in H. destruct H as (_ & H & _).
  destruct (H ltac:(discriminate) ltac:(reflexivity)) as (_ & _ & Hrows).
  { vm_compute. intros Hin. repeat (apply elem_of_cons in Hin as [Hin|Hin];
                                    [discriminate Hin|]).
    now apply elem_of_nil in Hin. }
  destruct (Hrows LogoHandler.sampleMasterCsv
              ["LEAGUE"; "DIVISION INFO"; "TEAM INFO"; "SCHEDULE";
               "STANDINGS"; "GOALIE STATS"; "PLAYER STATS"]
              [["NHL"; "u1"; "u2"; "u3"; "u4"; "u5"; "u6"]]
              eq_refl eq_refl) as [_ Hmatch].
  destruct (Hmatch [] ["NHL"; "u1"; "u2"; "u3"; "u4"; "u5"; "u6"] [] eq_refl)
    as [_ Hok].
  - intros r Hr. now apply elem_of_nil in Hr.
  - vm_compute. reflexivity.
  - apply Hok. vm_compute. reflexivity.
Defined.

Section SlotFacts.
Import Js Stats.
Context {A : Type} `{Inhabited A} `{EqDecision A}.
Variable nameOf : A -> jsval.
Variable beats : A -> A -> bool.
Variable null : A.
Implicit Types (top earlier rest pool : list A) (cand holder e : A)
  (m n : nat).
Local Abbreviation slot_turn := (Stats.slot_turn nameOf beats).
Local Abbreviation fill_slots := (Stats.fill_slots nameOf beats null).
Local Abbreviation scan_step := (Stats.scan_step nameOf beats).

Lemma strict_eq_sym (a b : jsval) : strict_eq a b = strict_eq b a.
Proof. unfold strict_eq. apply bool_decide_ext. split; congruence. Qed.

Lemma length_slot_turn m top cand : length (slot_turn m top cand) = length top.
Proof.
  unfold slot_turn.
  destruct (beats _ _ && _); [apply length_insert|reflexivity].
Qed.

Lemma length_scan m top pool :
  length (foldl (slot_turn m) top pool) = length top.
Proof.
  revert top. induction pool as [|cand pool IH]; intros top; [reflexivity|].
  simpl. now rewrite IH, length_slot_turn.
Qed.

(** A scan of the pool for slot [m] touches that slot only. *)
Lemma scan_slot earlier holder rest pool :
  foldl (slot_turn (length earlier)) (earlier ++ holder :: rest) pool
  = earlier ++ foldl (scan_step earlier) holder pool :: rest.
Proof.
  revert holder. induction pool as [|cand pool IH]; intros holder;
    [reflexivity|].
  simpl. unfold slot_turn at 2.
  rewrite list_lookup_total_middle, take_app_length by reflexivity.
  unfold scan_step at 2.
  destruct (beats cand holder && negb (occupies nameOf cand earlier)).
  - rewrite insert_app_r_alt, Nat.sub_diag by reflexivity. simpl. apply IH.
  - apply IH.
Qed.

Lemma length_spec_topN n pool :
  length (spec_topN nameOf beats null n pool) = n.
Proof.
  induction n as [|n IH]; [reflexivity|].
  simpl. rewrite length_app, IH. simpl. lia.
Qed.

Lemma fill_slots_prefix n m pool :
  m <= n ->
  foldl (fun top m => foldl (slot_turn m) top pool)
        (replicate n null) (seq 0 m)
  = spec_topN nameOf beats null m pool ++ replicate (n - m) null.
Proof.
  induction m as [|m IH]; intros Hm.
  - simpl. now rewrite Nat.sub_0_r.
  - rewrite seq_S, foldl_app, IH by lia. simpl.
    replace (n - m) with (S (n - S m)) by lia. rewrite replicate_S.
    pose proof (scan_slot (spec_topN nameOf beats null m pool) null
                  (replicate (n - S m) null) pool) as Hscan.
    rewrite length_spec_topN in Hscan. rewrite Hscan.
    now rewrite <- app_assoc.
Qed.

(** The loop over the slots is the selector of the contract. *)
Lemma fill_slots_spec n pool :
  fill_slots n pool = spec_topN nameOf beats null n pool.
Proof.
  unfold fill_slots. rewrite fill_slots_prefix by lia.
  rewrite Nat.sub_diag. apply app_nil_r.
Qed.

(** The three copies of the loop with unrolled slots. *)
Lemma three_turn_slot_turn m top cand :
  m < 3 -> length top = 3 ->
  three_turn nameOf beats m top cand = slot_turn m top cand.
Proof.
  intros Hm Hlen.
  destruct top as [|a [|b [|c [|? ?]]]]; try discriminate.
  unfold three_turn, slot_turn, occupies.
  destruct m as [|[|[|m]]]; [| | |lia]; simpl;
    destruct (beats cand _); simpl; try reflexivity;
    rewrite ?(strict_eq_sym (nameOf cand)), ?orb_false_r; reflexivity.
Qed.

Lemma three_scan m top pool :
  m < 3 -> length top = 3 ->
  foldl (three_turn nameOf beats m) top pool = foldl (slot_turn m) top pool.
Proof.
  intros Hm. revert top.
  induction pool as [|cand pool IH]; intros top Hlen; [reflexivity|].
  simpl. rewrite three_turn_slot_turn by assumption.
  apply IH. now rewrite length_slot_turn.
Qed.

Lemma three_slots_spec pool :
  three_slots nameOf beats null pool = spec_topN nameOf beats null 3 pool.
Proof.
  rewrite <- fill_slots_spec. unfold three_slots, fill_slots. simpl.
  rewrite (three_scan 0) by (simpl; lia).
  rewrite (three_scan 1) by (rewrite ?length_scan; simpl; lia).
  rewrite (three_scan 2) by (rewrite ?length_scan; simpl; lia).
  reflexivity.
Qed.

Lemma scan_cases earlier holder pool :
  let h := foldl (scan_step earlier) holder pool in
  h = holder
  \/ (h ∈ pool /\ occupies nameOf h earlier = false
      /\ exists prev, beats h prev = true).
Proof.
  revert holder. induction pool as [|cand pool IH]; intros holder; simpl;
    [now left|].
  destruct (IH (scan_step earlier holder cand)) as [Hsame|(Hin & Hocc & Hb)].
  - rewrite Hsame. unfold scan_step.
    destruct (beats cand holder && negb (occupies nameOf cand earlier))
      eqn:Htake; [|now left].
    apply andb_true_iff in Htake as [Hbeats Hocc].
    right. split; [left|]. split; [now apply negb_true_iff|eauto].
  - right. split; [now right|]. split; assumption.
Qed.

Lemma spec_slot_cases earlier pool :
  let h := spec_slot nameOf beats null earlier pool in
  h = null
  \/ (h ∈ pool /\ occupies nameOf h earlier = false
      /\ exists prev, beats h prev = true).
Proof. apply scan_cases. Qed.

(** Every slot holds the sentinel or a member of the pool that won a
    comparison. *)
Lemma spec_topN_entries n pool e :
  e ∈ spec_topN nameOf beats null n pool ->
  e = null \/ (e ∈ pool /\ exists prev, beats e prev = true).
Proof.
  induction n as [|n IH]; simpl; [now intros ?%elem_of_nil|].
  intros [Hin| ->%list_elem_of_singleton]%elem_of_app; [auto|].
  destruct (spec_slot_cases (spec_topN nameOf beats null n pool) pool)
    as [->|(Hin & _ & Hb)]; auto.
Qed.

Lemma occupies_false cand earlier e :
  occupies nameOf cand earlier = false -> e ∈ earlier -> e <> cand.
Proof.
  unfold occupies. intros Hocc Hin ->.
  assert (existsb (fun e => strict_eq (nameOf e) (nameOf cand)) earlier = true)
    as Hex; [|congruence].
  apply existsb_exists. exists cand. split; [now apply list_elem_of_In|].
  unfold strict_eq. now apply bool_decide_eq_true_2.
Qed.

(** The slots that do not hold the sentinel hold different members. *)
Lemma spec_topN_NoDup n pool :
  NoDup (filter (fun e => e <> null) (spec_topN nameOf beats null n pool)).
Proof.
  induction n as [|n IH]; simpl; [constructor|].
  rewrite filter_app. apply NoDup_app. split; [exact IH|]. split.
  - intros e [_ He]%list_elem_of_filter Hlast.
    apply list_elem_of_filter in Hlast as [Hnull ->%list_elem_of_singleton].
    destruct (spec_slot_cases (spec_topN nameOf beats null n pool) pool)
      as [Hs|(_ & Hocc & _)]; [contradiction|].
    now apply (occupies_false _ _ _ Hocc He).
  - apply NoDup_filter, NoDup_singleton.
Qed.

(** So no more slots are filled than the pool has members. *)
Lemma spec_topN_filled n pool :
  length (filter (fun e => e <> null) (spec_topN nameOf beats null n pool))
  <= length pool.
Proof.
  apply submseteq_length, NoDup_submseteq; [apply spec_topN_NoDup|].
  intros e [Hnull He]%list_elem_of_filter.
  apply spec_topN_entries in He as [?|[? _]]; [contradiction|assumption].
Qed.

Lemma spec_topN_empty n : spec_topN nameOf beats null n [] = replicate n null.
Proof.
  induction n as [|n IH]; [reflexivity|].
  simpl. rewrite IH. symmetry. apply replicate_S_end.
Qed.

End SlotFacts.

Section BoardFacts.
Import Js Stats.
Implicit Types (players : list Player) (goalies : list Goalie).

Lemma shouldAssign_occupies (cand : Player) (earlier : list Player) :
  forallb (fun e => negb (strict_eq (fullName cand) (fullName e))) earlier
  = negb (occupies fullName cand earlier).
Proof.
  unfold occupies. induction earlier as [|e earlier IH]; [reflexivity|].
  simpl. now rewrite IH, negb_orb, (strict_eq_sym (fullName cand)).
Qed.

Lemma points_turn_slot_turn m (top : list Player) cand :
  points_turn m top cand = slot_turn fullName pointsThenGoals m top cand.
Proof.
  unfold points_turn, slot_turn, pointsThenGoals.
  rewrite shouldAssign_occupies.
  destruct (negb (occupies fullName cand (take m top)));
    [now rewrite andb_true_r|now rewrite andb_false_r].
Qed.

Lemma points_scan m (top : list Player) players :
  foldl (points_turn m) top players
  = foldl (slot_turn fullName pointsThenGoals m) top players.
Proof.
  revert top. induction players as [|cand players IH]; intros top;
    [reflexivity|].
  simpl. now rewrite points_turn_slot_turn, IH.
Qed.

Lemma topPoints_spec players :
  topPoints players = spec_topN fullName pointsThenGoals nullPlayer 5 players.
Proof.
  rewrite <- fill_slots_spec. unfold topPoints, fill_slots. simpl.
  now rewrite !points_scan.
Qed.

(** C3. For every pool the points board is the selector of the contract
    with five slots: each slot in turn is filled by one scan of the whole
    pool, in which a candidate replaces the holder exactly when it has
    strictly more points, or as many points and strictly more goals, and its
    full name is in no earlier slot. With A (10 points, 5 goals), B (10
    points, 7 goals) and C (9 points, 9 goals) the first two slots are B
    and A, also when two further players bring the division to the five
    players the panel asks for. *)
Theorem topPoints_selector players :
  topPoints players = spec_topN fullName pointsThenGoals nullPlayer 5 players
  /\ (let A := playerStatline "A" "Able" "T" "D" 5 5 10 1 in
      let B := playerStatline "B" "Baker" "T" "D" 7 3 10 1 in
      let C := playerStatline "C" "Cole" "T" "D" 9 0 9 1 in
      let D := playerStatline "D" "Dunn" "T" "D" 1 1 2 1 in
      let E := playerStatline "E" "Egan" "T" "D" 0 1 1 1 in
      take 2 (topPoints [A; B; C]) = [B; A]
      /\ take 2 (topPoints [A; B; C; D; E]) = [B; A]
      /\ leaderboards [A; B; C; D; E] [] <> None).
Proof.
  split; [apply topPoints_spec|].
  cbv zeta. repeat split; [vm_compute; reflexivity..|discriminate].
Qed.

End BoardFacts.

Section GoalieFacts.
Import Js Stats.
Implicit Types (goalies : list Goalie) (g e : Goalie).

Lemma topGAA_spec goalies :
  topGAA goalies
  = spec_topN Goalie.fullName (gaaBeats goalies) nullGoalie 3 goalies.
Proof. apply three_slots_spec. Qed.

(** The running maximum of the first loop. *)
Lemma GPmax_loop goalies (a : Q) :
  exists r,
    foldl (fun GPmax g => if num_gt (GP g) GPmax then GP g else GPmax)
          (Fin a) goalies = Fin r
    /\ (a <= r)%Q
    /\ (forall g, g ∈ goalies -> num_gt (GP g) (Fin r) = false)
    /\ (r = a \/ exists g, g ∈ goalies /\ GP g = Fin r).
Proof.
  revert a. induction goalies as [|g goalies IH]; intros a; simpl.
  - exists a. split; [reflexivity|]. split; [apply Qle_refl|].
    split; [now intros ? ?%elem_of_nil|now left].
  - destruct (GP g) as [|x] eqn:Hg; simpl.
    + destruct (IH a) as (r & Hr & Hle & Hall & Hatt).
      exists r. split; [exact Hr|]. split; [exact Hle|]. split.
      * intros g' [->|Hin]%elem_of_cons; [now rewrite Hg|auto].
      * destruct Hatt as [->|(g' & Hin & Hg')]; [now left|].
        right. exists g'. split; [now right|exact Hg'].
    + destruct (Qle_bool x a) eqn:Hxa; simpl.
      * destruct (IH a) as (r & Hr & Hle & Hall & Hatt).
        exists r. split; [exact Hr|]. split; [exact Hle|]. split.
        -- intros g' [->|Hin]%elem_of_cons; [|auto].
           rewrite Hg. simpl. apply negb_false_iff, Qle_bool_iff.
           apply Qle_bool_iff in Hxa. now apply Qle_trans with a.
        -- destruct Hatt as [->|(g' & Hin & Hg')]; [now left|].
           right. exists g'. split; [now right|exact Hg'].
      * destruct (IH x) as (r & Hr & Hle & Hall & Hatt).
        exists r. split; [exact Hr|].
        assert (a <= x)%Q as Hax.
        { destruct (Qlt_le_dec a x) as [Hlt|Hge]; [now apply Qlt_le_weak|].
          apply Qle_bool_iff in Hge. congruence. }
        split; [now apply Qle_trans with x|]. split.
        -- intros g' [->|Hin]%elem_of_cons; [|auto].
           rewrite Hg. simpl. now apply negb_false_iff, Qle_bool_iff.
        -- right. destruct Hatt as [->|(g' & Hin & Hg')].
           ++ exists g. split; [left|exact Hg].
           ++ exists g'. split; [now right|exact Hg'].
Qed.

Lemma topGAA_entries goalies e :
  e ∈ topGAA goalies ->
  e = nullGoalie \/ (e ∈ goalies /\ num_ge (GP e) (GPmin goalies) = true).
Proof.
  rewrite topGAA_spec. intros He.
  apply spec_topN_entries in He as [->|(Hin & prev & Hb)]; [now left|].
  right. split; [exact Hin|].
  unfold gaaBeats in Hb. now apply andb_true_iff in Hb as [_ Hb].
Qed.

(** C2, as amended. For every goalie pool the floor of the GAA board is
    0.44 times the largest number of games played in the pool, rounded to
    the nearest integer (a half goes up), not rounded up. A slot of the
    board holds the sentinel or a goalie of the pool whose games played
    reach that floor, so a goalie below the floor is in no slot, whatever
    its GAA. When the largest number of games played is 20 the floor is 9,
    and no slot holds a goalie with 8 games played. *)
Theorem topGAA_floor goalies :
  (exists r k, GPmax goalies = Fin r /\ (0 <= r)%Q
        /\ (forall g, g ∈ goalies -> num_gt (GP g) (Fin r) = false)
        /\ (r = 0%Q \/ exists g, g ∈ goalies /\ GP g = Fin r)
        /\ GPmin goalies = Fin (inject_Z k)
        /\ (inject_Z k - (1 # 2) <= (44 # 100) * r)%Q
        /\ ((44 # 100) * r < inject_Z k + (1 # 2))%Q)
  /\ (forall e, e ∈ topGAA goalies -> e <> nullGoalie ->
        e ∈ goalies /\ num_ge (GP e) (GPmin goalies) = true)
  /\ (forall g, g <> nullGoalie -> num_ge (GP g) (GPmin goalies) = false ->
        g ∉ topGAA goalies)
  /\ (num_eq (GPmax goalies) (Fin 20) = true ->
      num_eq (GPmin goalies) (Fin 9) = true
      /\ forall e, e ∈ topGAA goalies -> num_eq (GP e) (Fin 8) = false).
Proof.
  split; [|split; [|split]].
  - destruct (GPmax_loop goalies 0) as (r & Hr & Hle & Hall & Hatt).
    exists r, (Qfloor ((44 # 100) * r + (1 # 2))).
    fold (GPmax goalies) in Hr.
    repeat (split; [assumption|]).
    split; [unfold GPmin; now rewrite Hr|].
    pose proof (Qfloor_le ((44 # 100) * r + (1 # 2))) as Hlo.
    pose proof (Qlt_floor ((44 # 100) * r + (1 # 2))) as Hhi.
    rewrite inject_Z_plus in Hhi. change (inject_Z 1) with 1%Q in Hhi.
    revert Hlo Hhi.
    generalize (inject_Z (Qfloor ((44 # 100) * r + (1 # 2)))).
    intros k Hlo Hhi. split; lra.
  - intros e He Hnull.
    apply topGAA_entries in He as [?|?]; [contradiction|assumption].
  - intros g Hnull Hlow Hin.
    apply topGAA_entries in Hin as [?|[_ Hge]]; [contradiction|congruence].
  - intros Hmax.
    destruct (GPmax goalies) as [|r] eqn:Hr; [discriminate|].
    simpl in Hmax. apply Qeq_bool_iff in Hmax.
    assert (Qfloor ((44 # 100) * r + (1 # 2)) = 9%Z) as Hfloor.
    { rewrite Hmax. reflexivity. }
    assert (GPmin goalies = Fin (inject_Z 9)) as Hmin.
    { unfold GPmin. rewrite Hr. unfold num_mul, Math_round.
      now rewrite Hfloor. }
    rewrite Hmin. split; [reflexivity|].
    intros e He.
    apply topGAA_entries in He as [->|[_ Hge]]; [reflexivity|].
    rewrite Hmin in Hge.
    destruct (GP e) as [|x]; [reflexivity|].
    unfold num_ge in Hge. unfold num_eq.
    destruct (Qeq_bool x 8) eqn:Hx; [|reflexivity].
    apply Qeq_bool_iff in Hx. apply Qle_bool_iff in Hge.
    rewrite Hx in Hge. now vm_compute in Hge.
Qed.

End GoalieFacts.

(** With 10 as the largest number of games played, 0.44 times it is 4.4: the
    floor of the board is 4 and not 5, and a goalie with 4 games played and
    the best GAA takes the first slot. *)
Lemma topGAA_floor_counterexample :
  let g1 := Stats.goalieStatline "G" "One" "T" "D" 20 2 10 in
  let g2 := Stats.goalieStatline "G" "Two" "T" "D" 2 (1 # 2) 4 in
  Js.num_eq (Stats.GPmin [g1; g2]) (Js.Fin 4) = true
  /\ Js.num_eq (Stats.spec_GPmin [g1; g2]) (Js.Fin 5) = true
  /\ Js.num_eq (Stats.GPmin [g1; g2]) (Stats.spec_GPmin [g1; g2]) = false
  /\ Js.num_lt (Stats.GP g2) (Stats.spec_GPmin [g1; g2]) = true
  /\ Stats.topGAA [g1; g2] !! 0 = Some g2.
Proof. cbv zeta. repeat split; vm_compute; reflexivity. Qed.

(** A pool whose largest number of games played is 20, with a goalie of 8
    games and a GAA of 0.50. *)
Lemma topGAA_floor_witness :
  let g1 := Stats.goalieStatline "G" "One" "T" "D" 50 (5 # 2) 20 in
  let g2 := Stats.goalieStatline "G" "Two" "T" "D" 4 (1 # 2) 8 in
  let g3 := Stats.goalieStatline "G" "Three" "T" "D" 45 3 15 in
  Js.num_eq (Stats.GPmax [g1; g2; g3]) (Js.Fin 20) = true
  /\ Js.num_eq (Stats.GPmin [g1; g2; g3]) (Js.Fin 9) = true
  /\ forall e, e ∈ Stats.topGAA [g1; g2; g3] ->
               Js.num_eq (Stats.GP e) (Js.Fin 8) = false.
Proof.
  intros g1 g2 g3.
  assert (Js.num_eq (Stats.GPmax [g1; g2; g3]) (Js.Fin 20) = true) as Hmax
    by reflexivity.
  split; [exact Hmax|].
  destruct (topGAA_floor [g1; g2; g3]) as (_ & _ & _ & H20).
  exact (H20 Hmax).
Defined.

Section PaddingFacts.
Import Js Stats.
Implicit Types (players : list Player) (goalies : list Goalie).

Lemma topGoals_spec players :
  topGoals players
  = spec_topN fullName (fun cand holder => num_gt (goals cand) (goals holder))
              nullPlayer 3 players.
Proof. apply three_slots_spec. Qed.

Lemma topPPG_spec players :
  topPPG players
  = spec_topN fullName (fun cand holder => num_gt (ppg cand) (ppg holder))
              nullPlayer 3 players.
Proof. apply three_slots_spec. Qed.

(** C7, as amended. Each board has its fixed number of slots, five for
    points and three for goals, points per game and GAA, whatever the pool.
    A slot holds a member of the pool or the sentinel of the board, the
    filled slots hold different members, so at least as many slots hold the
    sentinel as the pool falls short of the board, and an empty pool gives
    sentinels only. The name fields of both sentinels are absent. The
    numeric fields of the player sentinel are zero; those of the goalie
    sentinel are 99 goals against, a GAA of 99 and no game played. A
    division with fewer than five players is passed over before any board
    is built, which is not an error. *)
Theorem leaderboards_padded players goalies :
  (length (topPoints players) = 5 /\ length (topGoals players) = 3
   /\ length (topPPG players) = 3 /\ length (topGAA goalies) = 3)
  /\ (forall e, e ∈ topPoints players ++ topGoals players ++ topPPG players ->
        e = nullPlayer \/ e ∈ players)
  /\ (forall e, e ∈ topGAA goalies -> e = nullGoalie \/ e ∈ goalies)
  /\ (length (filter (fun e => e <> nullPlayer) (topPoints players))
        <= length players
      /\ length (filter (fun e => e <> nullPlayer) (topGoals players))
        <= length players
      /\ length (filter (fun e => e <> nullPlayer) (topPPG players))
        <= length players
      /\ length (filter (fun e => e <> nullGoalie) (topGAA goalies))
        <= length goalies)
  /\ (topPoints [] = replicate 5 nullPlayer
      /\ topGoals [] = replicate 3 nullPlayer
      /\ topPPG [] = replicate 3 nullPlayer
      /\ topGAA [] = replicate 3 nullGoalie)
  /\ (leaderboards players goalies = None <-> length players < 5)
  /\ (5 <= length players ->
      leaderboards players goalies
      = Some (topPoints players, topGoals players, topPPG players,
              topGAA goalies))
  /\ (firstName nullPlayer = Null /\ lastName nullPlayer = Null
      /\ teamName nullPlayer = Null /\ div nullPlayer = Null
      /\ fullName nullPlayer = Undefined
      /\ goals nullPlayer = Fin 0 /\ assists nullPlayer = Fin 0
      /\ points nullPlayer = Fin 0 /\ ppg nullPlayer = Fin 0)
  /\ (Goalie.firstName nullGoalie = Null /\ Goalie.lastName nullGoalie = Null
      /\ Goalie.teamName nullGoalie = Null /\ Goalie.div nullGoalie = Null
      /\ Goalie.fullName nullGoalie = Undefined
      /\ GA nullGoalie = Fin 99 /\ GAA nullGoalie = Fin 99
      /\ GP nullGoalie = Fin 0).
Proof.
  rewrite topPoints_spec, topGoals_spec, topPPG_spec, topGAA_spec.
  split; [now rewrite !length_spec_topN|].
  split.
  { intros e [He|[He|He]%elem_of_app]%elem_of_app;
      apply spec_topN_entries in He as [?|[? _]]; auto. }
  split.
  { intros e He. apply spec_topN_entries in He as [?|[? _]]; auto. }
  split; [repeat split; apply spec_topN_filled|].
  split.
  { repeat split. }
  split.
  { unfold leaderboards.
    destruct (Nat.ltb_spec (length players) 5) as [Hlt|Hge].
    - split; [intros _; exact Hlt|reflexivity].
    - split; [discriminate|lia]. }
  split.
  { intros Hge. unfold leaderboards.
    rewrite topPoints_spec, topGoals_spec, topPPG_spec, topGAA_spec.
    destruct (Nat.ltb_spec (length players) 5) as [Hlt|_]; [lia|reflexivity]. }
  split; repeat split.
Qed.

End PaddingFacts.

(** The sentinel of the GAA board, which an unfilled slot holds, has numeric
    fields that are not zero. *)
Lemma leaderboards_padded_counterexample :
  Stats.topGAA [] !! 0 = Some Stats.nullGoalie
  /\ Stats.GAA Stats.nullGoalie = Js.Fin 99
  /\ Js.num_eq (Stats.GAA Stats.nullGoalie) (Js.Fin 0) = false
  /\ Js.num_eq (Stats.GA Stats.nullGoalie) (Js.Fin 0) = false.
Proof. repeat split. Qed.

(** A division of five players of whom two have scored, and no goalie. *)
Lemma leaderboards_padded_witness :
  let A := Stats.playerStatline "A" "Able" "T" "D" 5 5 10 1 in
  let B := Stats.playerStatline "B" "Baker" "T" "D" 7 3 10 1 in
  let Z := Stats.playerStatline "Z" "Zero" "T" "D" 0 0 0 0 in
  5 <= length [A; B; Z; Z; Z]
  /\ Stats.leaderboards [A; B; Z; Z; Z] []
     = Some ([B; A; Stats.nullPlayer; Stats.nullPlayer; Stats.nullPlayer],
             [B; A; Stats.nullPlayer],
             [A; B; Stats.nullPlayer],
             [Stats.nullGoalie; Stats.nullGoalie; Stats.nullGoalie]).
Proof.
  intros A B Z.
  assert (5 <= length [A; B; Z; Z; Z]) as Hlen by (simpl; lia).
  split; [exact Hlen|].
  destruct (leaderboards_padded [A; B; Z; Z; Z] [])
    as (_ & _ & _ & _ & _ & _ & Hsome & _).
  rewrite (Hsome Hlen). vm_compute. reflexivity.
Defined.

Section JoinFacts.
Import Js LogoHandler.
Implicit Types (divs : list Division) (d : Division).

(** Once the first label has an abbreviation the loop leaves it alone. *)
Lemma resolveDivisions_keeps divs (div1Full div2Full : jsval)
    (div1 div2 : DivisionLabel) :
  falsy (labelAbb div1) = false ->
  (resolveDivisions divs div1Full div2Full div1 div2).1 = div1.
Proof.
  revert div2. induction divs as [|d divs IH]; intros div2 Hset;
    [reflexivity|].
  simpl. rewrite Hset. simpl.
  match goal with |- (if ?c then _ else _).1 = _ => destruct c end;
    [reflexivity|now apply IH].
Qed.

(** A label that names no division leaves the three fields empty. *)
Lemma resolveDivisions_no_match divs (div1Full div2Full : jsval)
    (div2 : DivisionLabel) :
  (forall d, d ∈ divs -> strict_eq div1Full (fullNameOfDivision d) = false) ->
  (resolveDivisions divs div1Full div2Full noLabel div2).1 = noLabel.
Proof.
  revert div2. induction divs as [|d divs IH]; intros div2 Hno;
    [reflexivity|].
  simpl. rewrite (Hno d) by left. simpl.
  apply IH. intros ? ?. apply Hno. now right.
Qed.

(** When the first division that the label names has an abbreviation, the
    game gets the fields of that division. *)
Lemma resolveDivisions_first_match divs (div1Full div2Full : jsval)
    (div2 : DivisionLabel) d :
  firstMatch divs div1Full = Some d ->
  falsy (abb d) = false ->
  (resolveDivisions divs div1Full div2Full noLabel div2).1 = labelOf d.
Proof.
  unfold firstMatch. revert div2.
  induction divs as [|d0 divs IH]; intros div2 Hfind Habb; [discriminate|].
  simpl in *. destruct (strict_eq div1Full (fullNameOfDivision d0)).
  - injection Hfind as ->. simpl. rewrite Habb. simpl.
    match goal with |- (if ?c then _ else _).1 = _ => destruct c end;
      [reflexivity|].
    now apply resolveDivisions_keeps.
  - simpl. now apply IH.
Qed.

(** C8. The join of [loadSchedule] does not always give a game the first
    division that its label names: when that division has a blank
    abbreviation and a later division has the same concatenated name, the
    later one overwrites all three fields. Here the label names the first
    division of the list, and the game gets the name, the conference and the
    abbreviation of the second. *)
Theorem joinDivisions_blank_abbreviation :
  let blank := mkDivision "North East" "A" "" in
  let other := mkDivision "North" "East A" "NEA" in
  firstMatch [blank; other] (Str "North East A") = Some blank
  /\ (joinDivisions [blank; other] (Str "North East A") Undefined).1
     = labelOf other
  /\ labelOf other <> labelOf blank.
Proof. cbv zeta. repeat split. discriminate. Qed.

End JoinFacts.

(* ===================================================================== *)
(** * Part III: further properties of the same code *)
(* ===================================================================== *)

Section SlotOrderFacts.
Import Js Stats.
Context {A : Type} `{Inhabited A} `{EqDecision A}.
Variable nameOf : A -> jsval.
Variable beats : A -> A -> bool.
Variable null : A.
Hypothesis beats_irrefl : forall x, beats x x = false.
Hypothesis beats_mono :
  forall c h h', beats c h = false -> beats h' h = true -> beats c h' = false.
Implicit Types (earlier pool : list A) (cand holder : A) (m n : nat).
Local Abbreviation scan_step := (Stats.scan_step nameOf beats).
Local Abbreviation board := (spec_topN nameOf beats null).

(** A candidate that does not beat the holder does not beat any later
    holder of the same scan. *)
Lemma scan_keeps_losers earlier pool holder c :
  beats c holder = false ->
  beats c (foldl (scan_step earlier) holder pool) = false.
Proof.
  revert holder. induction pool as [|cand pool IH]; intros holder Hc;
    [exact Hc|].
  simpl. apply IH. unfold Stats.scan_step.
  destruct (beats cand holder && negb (occupies nameOf cand earlier))
    eqn:Htake; [|exact Hc].
  apply andb_true_iff in Htake as [Hbeats _].
  now apply (beats_mono c holder cand).
Qed.

(** After a scan no candidate that was allowed in the slot beats its
    holder. *)
Lemma scan_best earlier pool holder cand :
  cand ∈ pool -> occupies nameOf cand earlier = false ->
  beats cand (foldl (scan_step earlier) holder pool) = false.
Proof.
  revert holder. induction pool as [|c pool IH]; intros holder Hin Hocc;
    [now apply elem_of_nil in Hin|].
  apply elem_of_cons in Hin as [->|Hin]; [|now apply IH].
  simpl. apply scan_keeps_losers. unfold Stats.scan_step.
  rewrite Hocc, andb_true_r.
  destruct (beats c holder) eqn:Hb; [apply beats_irrefl|exact Hb].
Qed.

Lemma spec_slot_scan earlier pool :
  spec_slot nameOf beats null earlier pool
  = foldl (scan_step earlier) null pool.
Proof. reflexivity. Qed.

Lemma board_take n m pool : m <= n -> take m (board n pool) = board m pool.
Proof.
  induction n as [|n IH]; intros Hm.
  - replace m with 0 by lia. reflexivity.
  - destruct (decide (m = S n)) as [->|Hne].
    + apply take_ge. rewrite length_spec_topN. lia.
    + simpl. rewrite take_app_le by (rewrite length_spec_topN; lia).
      apply IH. lia.
Qed.

Lemma board_lookup n m pool :
  m < n -> board n pool !! m = Some (spec_slot nameOf beats null (board m pool) pool).
Proof.
  induction n as [|n IH]; intros Hm; [lia|].
  simpl. destruct (decide (m = n)) as [->|Hne].
  - rewrite list_lookup_middle; [reflexivity|]. now rewrite length_spec_topN.
  - rewrite lookup_app_l by (rewrite length_spec_topN; lia). apply IH. lia.
Qed.

Lemma board_lookup_inv n m pool holder :
  board n pool !! m = Some holder ->
  m < n /\ holder = spec_slot nameOf beats null (board m pool) pool.
Proof.
  intros Hm. assert (m < n) as Hlt.
  { apply lookup_lt_Some in Hm. now rewrite length_spec_topN in Hm. }
  split; [exact Hlt|]. rewrite board_lookup in Hm by exact Hlt. congruence.
Qed.

(** The holder of a slot is beaten by no member of the pool whose name is
    in none of the earlier slots. *)
Lemma board_best n m pool holder cand :
  board n pool !! m = Some holder ->
  cand ∈ pool -> occupies nameOf cand (take m (board n pool)) = false ->
  beats cand holder = false.
Proof.
  intros [Hlt ->]%board_lookup_inv Hin Hocc.
  rewrite board_take in Hocc by lia.
  rewrite spec_slot_scan. now apply scan_best.
Qed.

Lemma occupies_app cand l k :
  occupies nameOf cand (l ++ k)
  = occupies nameOf cand l || occupies nameOf cand k.
Proof. unfold occupies. apply existsb_app. Qed.

Lemma occupies_earlier cand i j pool :
  i <= j -> occupies nameOf cand (board j pool) = false ->
  occupies nameOf cand (board i pool) = false.
Proof.
  intros Hij Hocc. rewrite <- (board_take j i) by exact Hij.
  rewrite <- (take_drop i (board j pool)), occupies_app in Hocc.
  now apply orb_false_iff in Hocc as [Hocc _].
Qed.

(** The slots are in order: a later holder does not beat an earlier one. *)
Lemma board_sorted n i j pool a b :
  i < j -> board n pool !! i = Some a -> board n pool !! j = Some b ->
  beats b a = false.
Proof.
  intros Hij [Hi ->]%board_lookup_inv [Hj ->]%board_lookup_inv.
  destruct (spec_slot_cases nameOf beats null (board j pool) pool)
    as [->|(Hin & Hocc & _)].
  - rewrite spec_slot_scan. apply scan_keeps_losers, beats_irrefl.
  - rewrite (spec_slot_scan (board i pool)). apply scan_best; [exact Hin|].
    apply (occupies_earlier _ i j); [lia|exact Hocc].
Qed.

(** No name fills two slots. *)
Lemma board_distinct n i j pool a b :
  i < j -> board n pool !! i = Some a -> board n pool !! j = Some b ->
  b <> null -> nameOf a <> nameOf b.
Proof.
  intros Hij Hi [Hj ->]%board_lookup_inv Hnull Hname.
  destruct (spec_slot_cases nameOf beats null (board j pool) pool)
    as [Hs|(_ & Hocc & _)]; [contradiction|].
  unfold occupies in Hocc.
  assert (existsb (fun e => strict_eq (nameOf e)
            (nameOf (spec_slot nameOf beats null (board j pool) pool)))
            (board j pool) = true) as Hex; [|congruence].
  apply existsb_exists. exists a. split.
  - apply list_elem_of_In. rewrite <- (board_take n j) by lia.
    apply list_elem_of_lookup. exists i.
    rewrite lookup_take_lt by lia. exact Hi.
  - unfold strict_eq. now apply bool_decide_eq_true_2.
Qed.

End SlotOrderFacts.

Section SentinelFacts.
Import Js Stats.
Context {A : Type} `{Inhabited A} `{EqDecision A}.
Variable nameOf : A -> jsval.
Variable beats : A -> A -> bool.
Variable null : A.
Implicit Types (earlier pool : list A) (cand holder : A) (m n : nat).
Local Abbreviation scan_step := (Stats.scan_step nameOf beats).
Local Abbreviation board := (spec_topN nameOf beats null).

(** A scan in which no candidate may take the slot from the sentinel leaves
    the sentinel there. *)
Lemma scan_stays earlier pool :
  (forall cand, cand ∈ pool ->
     beats cand null && negb (occupies nameOf cand earlier) = false) ->
  foldl (scan_step earlier) null pool = null.
Proof.
  induction pool as [|c pool IH]; intros Hnone; [reflexivity|].
  simpl. unfold Stats.scan_step at 2. rewrite (Hnone c) by left.
  apply IH. intros cand Hin. apply Hnone. now right.
Qed.

(** When no member of the pool is the sentinel, a slot that ends with the
    sentinel was never taken. *)
Lemma scan_unfilled earlier pool :
  (forall p, p ∈ pool -> p <> null) ->
  foldl (scan_step earlier) null pool = null ->
  forall cand, cand ∈ pool ->
    beats cand null && negb (occupies nameOf cand earlier) = false.
Proof.
  induction pool as [|c pool IH]; intros Hreal Hend cand Hin;
    [now apply elem_of_nil in Hin|].
  simpl in Hend. unfold Stats.scan_step at 2 in Hend.
  destruct (beats c null && negb (occupies nameOf c earlier)) eqn:Hc.
  - exfalso.
    destruct (scan_cases nameOf beats earlier c pool) as [Hs|(Hp & _)];
      cbv zeta in *.
    + apply (Hreal c); [left|]. congruence.
    + rewrite Hend in Hp. apply (Hreal null); [now right|reflexivity].
  - apply elem_of_cons in Hin as [->|Hin]; [exact Hc|].
    apply IH; [|exact Hend|exact Hin].
    intros p Hp. apply Hreal. now right.
Qed.

Lemma board_next_unfilled n pool :
  (forall p, p ∈ pool -> p <> null) ->
  spec_slot nameOf beats null (board n pool) pool = null ->
  spec_slot nameOf beats null (board (S n) pool) pool = null.
Proof.
  intros Hreal Hend. apply scan_stays. intros cand Hin.
  pose proof (scan_unfilled (board n pool) pool Hreal Hend cand Hin) as Hc.
  simpl. unfold occupies in *. rewrite existsb_app, negb_orb, andb_assoc, Hc.
  reflexivity.
Qed.

(** The filled slots come first: after a slot that holds the sentinel every
    slot holds it. *)
Lemma board_sentinels_last n i j pool :
  (forall p, p ∈ pool -> p <> null) ->
  i <= j -> j < n ->
  board n pool !! i = Some null -> board n pool !! j = Some null.
Proof.
  intros Hreal Hij Hj Hi.
  assert (i < n) as Hin by lia.
  rewrite board_lookup in Hi by exact Hin. injection Hi as Hi.
  rewrite board_lookup by exact Hj. f_equal.
  clear Hin Hj. induction Hij as [|j Hij IH]; [exact Hi|].
  now apply board_next_unfilled.
Qed.

End SentinelFacts.

Section NumFacts.
Import Js.
Implicit Types (a b c : num) (x y : Q).

Lemma num_gt_true a b :
  num_gt a b = true <-> exists x y, a = Fin x /\ b = Fin y /\ (y < x)%Q.
Proof.
  destruct a as [|x], b as [|y]; simpl;
    try (split; [discriminate|intros (? & ? & ? & ? & _); discriminate]).
  rewrite negb_true_iff. split.
  - intros Hle. exists x, y. repeat split.
    apply Qnot_le_lt. intros Hxy. apply Qle_bool_iff in Hxy. congruence.
  - intros (x' & y' & [= <-] & [= <-] & Hlt).
    destruct (Qle_bool x y) eqn:E; [|reflexivity].
    apply Qle_bool_iff in E. lra.
Qed.

Lemma num_gt_false x y : num_gt (Fin x) (Fin y) = false <-> (x <= y)%Q.
Proof. simpl. rewrite negb_false_iff. apply Qle_bool_iff. Qed.

Lemma num_eq_true a b :
  num_eq a b = true <-> exists x y, a = Fin x /\ b = Fin y /\ (x == y)%Q.
Proof.
  destruct a as [|x], b as [|y]; simpl;
    try (split; [discriminate|intros (? & ? & ? & ? & _); discriminate]).
  rewrite Qeq_bool_iff. split.
  - intros Heq. now exists x, y.
  - now intros (x' & y' & [= <-] & [= <-] & Heq).
Qed.

Lemma num_ge_true a b :
  num_ge a b = true <-> exists x y, a = Fin x /\ b = Fin y /\ (y <= x)%Q.
Proof.
  destruct a as [|x], b as [|y]; simpl;
    try (split; [discriminate|intros (? & ? & ? & ? & _); discriminate]).
  rewrite Qle_bool_iff. split.
  - intros Hle. now exists x, y.
  - now intros (x' & y' & [= <-] & [= <-] & Hle).
Qed.

Lemma num_gt_irrefl a : num_gt a a = false.
Proof.
  destruct a as [|x]; [reflexivity|]. apply num_gt_false, Qle_refl.
Qed.

(** A value that is not above the holder is not above a holder that is
    higher still. *)
Lemma num_gt_mono c h h' :
  num_gt c h = false -> num_gt h' h = true -> num_gt c h' = false.
Proof.
  intros Hc (x' & x & -> & -> & Hlt)%num_gt_true.
  destruct c as [|y]; [reflexivity|].
  apply num_gt_false in Hc. apply num_gt_false. lra.
Qed.

End NumFacts.

Section RankingFacts.
Import Js Stats.
Implicit Types (players : list Player) (goalies : list Goalie).

Lemma pointsThenGoals_irrefl (p : Player) : pointsThenGoals p p = false.
Proof.
  unfold pointsThenGoals. now rewrite !num_gt_irrefl, andb_false_r.
Qed.

Lemma pointsThenGoals_mono (c h h' : Player) :
  pointsThenGoals c h = false -> pointsThenGoals h' h = true ->
  pointsThenGoals c h' = false.
Proof.
  unfold pointsThenGoals.
  intros [Hcp Hcg]%orb_false_iff [Hp|[Hp Hg]%andb_true_iff]%orb_true_iff.
  - apply orb_false_iff. split; [now apply (num_gt_mono _ (points h))|].
    apply num_gt_true in Hp as (x' & x & Ex' & Ex & Hlt).
    rewrite Ex', Ex in *.
    destruct (points c) as [|y]; [reflexivity|].
    apply num_gt_false in Hcp.
    destruct (num_eq (Fin y) (Fin x')) eqn:E; [|reflexivity].
    apply num_eq_true in E as (? & ? & [= <-] & [= <-] & E). lra.
  - apply num_eq_true in Hp as (x' & x & Ex' & Ex & Heq).
    apply num_gt_true in Hg as (g' & g & Eg' & Eg & Hlt).
    rewrite Ex', Ex, Eg', Eg in *.
    destruct (points c) as [|y]; [reflexivity|].
    apply num_gt_false in Hcp.
    apply orb_false_iff. split; [apply num_gt_false; lra|].
    destruct (num_eq (Fin y) (Fin x')) eqn:E; [|reflexivity].
    apply num_eq_true in E as (? & ? & [= <-] & [= <-] & E).
    assert (num_eq (Fin y) (Fin x) = true) as Eyx
      by (apply num_eq_true; exists y, x; repeat split; lra).
    rewrite Eyx in Hcg. simpl in Hcg. simpl.
    destruct (goals c) as [|gc]; [reflexivity|].
    apply num_gt_false in Hcg. apply num_gt_false. lra.
Qed.

Lemma gaaBeats_irrefl goalies (g : Goalie) : gaaBeats goalies g g = false.
Proof. unfold gaaBeats, num_lt. now rewrite num_gt_irrefl. Qed.

Lemma gaaBeats_mono goalies (c h h' : Goalie) :
  gaaBeats goalies c h = false -> gaaBeats goalies h' h = true ->
  gaaBeats goalies c h' = false.
Proof.
  unfold gaaBeats, num_lt.
  intros Hc [Hh _]%andb_true_iff.
  destruct (num_ge (GP c) (GPmin goalies)); [|apply andb_false_r].
  rewrite andb_true_r in *.
  apply num_gt_true in Hh as (x & x' & Ex & Ex' & Hlt).
  rewrite Ex, Ex' in *.
  destruct (GAA c) as [|y]; [reflexivity|].
  apply num_gt_false in Hc. apply num_gt_false. lra.
Qed.

(** X1. In the points board no player whose full name is in none of the
    slots before slot [m] beats the holder of slot [m] on points, then
    goals; and the slots are in that order from the top. *)
Theorem topPoints_best players :
  (forall m holder cand,
     topPoints players !! m = Some holder -> cand ∈ players ->
     occupies fullName cand (take m (topPoints players)) = false ->
     pointsThenGoals cand holder = false)
  /\ (forall i j a b,
        i < j -> topPoints players !! i = Some a ->
        topPoints players !! j = Some b -> pointsThenGoals b a = false).
Proof.
  rewrite topPoints_spec. split.
  - intros m holder cand. apply board_best;
      [apply pointsThenGoals_irrefl|apply pointsThenGoals_mono].
  - intros i j a b. apply board_sorted;
      [apply pointsThenGoals_irrefl|apply pointsThenGoals_mono].
Qed.

(** X2. In the goals board and in the points-per-game board no player
    whose full name is in none of the earlier slots has more goals (more
    points per game) than the holder of a slot, and the slots are in
    descending order. *)
Theorem topGoals_topPPG_best players :
  (forall m holder cand,
     topGoals players !! m = Some holder -> cand ∈ players ->
     occupies fullName cand (take m (topGoals players)) = false ->
     num_gt (goals cand) (goals holder) = false)
  /\ (forall i j a b,
        i < j -> topGoals players !! i = Some a ->
        topGoals players !! j = Some b ->
        num_gt (goals b) (goals a) = false)
  /\ (forall m holder cand,
        topPPG players !! m = Some holder -> cand ∈ players ->
        occupies fullName cand (take m (topPPG players)) = false ->
        num_gt (ppg cand) (ppg holder) = false)
  /\ (forall i j a b,
        i < j -> topPPG players !! i = Some a ->
        topPPG players !! j = Some b ->
        num_gt (ppg b) (ppg a) = false).
Proof.
  rewrite topGoals_spec, topPPG_spec.
  split; [|split; [|split]].
  - intros m holder cand.
    apply (board_best fullName (fun c h => num_gt (goals c) (goals h)));
      [intros; apply num_gt_irrefl|intros ? ? ?; apply num_gt_mono].
  - intros i j a b.
    apply (board_sorted fullName (fun c h => num_gt (goals c) (goals h)));
      [intros; apply num_gt_irrefl|intros ? ? ?; apply num_gt_mono].
  - intros m holder cand.
    apply (board_best fullName (fun c h => num_gt (ppg c) (ppg h)));
      [intros; apply num_gt_irrefl|intros ? ? ?; apply num_gt_mono].
  - intros i j a b.
    apply (board_sorted fullName (fun c h => num_gt (ppg c) (ppg h)));
      [intros; apply num_gt_irrefl|intros ? ? ?; apply num_gt_mono].
Qed.

(** X3. In the GAA board no goalie of the pool who reaches the floor of
    games played, and whose full name is in none of the earlier slots, has a
    lower GAA than the holder of a slot; and the slots are in ascending
    order of GAA among goalies who reach the floor. *)
Theorem topGAA_best goalies :
  (forall m holder cand,
     topGAA goalies !! m = Some holder -> cand ∈ goalies ->
     occupies Goalie.fullName cand (take m (topGAA goalies)) = false ->
     num_ge (GP cand) (GPmin goalies) = true ->
     num_lt (GAA cand) (GAA holder) = false)
  /\ (forall i j a b,
        i < j -> topGAA goalies !! i = Some a ->
        topGAA goalies !! j = Some b ->
        num_ge (GP b) (GPmin goalies) = true ->
        num_lt (GAA b) (GAA a) = false).
Proof.
  rewrite topGAA_spec. split.
  - intros m holder cand Hm Hin Hocc Hge.
    pose proof (board_best Goalie.fullName (gaaBeats goalies) nullGoalie
                  (gaaBeats_irrefl goalies) (gaaBeats_mono goalies)
                  3 m goalies holder cand Hm Hin Hocc) as Hb.
    unfold gaaBeats in Hb. now rewrite Hge, andb_true_r in Hb.
  - intros i j a b Hij Hi Hj Hge.
    pose proof (board_sorted Goalie.fullName (gaaBeats goalies) nullGoalie
                  (gaaBeats_irrefl goalies) (gaaBeats_mono goalies)
                  3 i j goalies a b Hij Hi Hj) as Hb.
    unfold gaaBeats in Hb. now rewrite Hge, andb_true_r in Hb.
Qed.

End RankingFacts.

Section BoardShapeFacts.
Import Js Stats.
Implicit Types (players : list Player) (goalies : list Goalie).

(** X4. No full name fills two slots of a board: in each of the four
    boards, the holder of a later slot that is not the sentinel has a full
    name different from the holder of every earlier slot. *)
Theorem boards_no_repeat players goalies :
  (forall i j a b, i < j -> topPoints players !! i = Some a ->
     topPoints players !! j = Some b -> b <> nullPlayer ->
     fullName a <> fullName b)
  /\ (forall i j a b, i < j -> topGoals players !! i = Some a ->
        topGoals players !! j = Some b -> b <> nullPlayer ->
        fullName a <> fullName b)
  /\ (forall i j a b, i < j -> topPPG players !! i = Some a ->
        topPPG players !! j = Some b -> b <> nullPlayer ->
        fullName a <> fullName b)
  /\ (forall i j a b, i < j -> topGAA goalies !! i = Some a ->
        topGAA goalies !! j = Some b -> b <> nullGoalie ->
        Goalie.fullName a <> Goalie.fullName b).
Proof.
  rewrite topPoints_spec, topGoals_spec, topPPG_spec, topGAA_spec.
  repeat split; intros i j a b; apply board_distinct.
Qed.

(** X5. When every member of the pool has a full name, as the loaders make
    it, the filled slots of a board come first: once a slot holds the
    sentinel, every later slot holds it too. *)
Theorem boards_sentinels_last players goalies :
  (forall p, p ∈ players -> fullName p <> Undefined) ->
  (forall g, g ∈ goalies -> Goalie.fullName g <> Undefined) ->
  (forall i j, i <= j -> j < 5 ->
     topPoints players !! i = Some nullPlayer ->
     topPoints players !! j = Some nullPlayer)
  /\ (forall i j, i <= j -> j < 3 ->
        topGoals players !! i = Some nullPlayer ->
        topGoals players !! j = Some nullPlayer)
  /\ (forall i j, i <= j -> j < 3 ->
        topPPG players !! i = Some nullPlayer ->
        topPPG players !! j = Some nullPlayer)
  /\ (forall i j, i <= j -> j < 3 ->
        topGAA goalies !! i = Some nullGoalie ->
        topGAA goalies !! j = Some nullGoalie).
Proof.
  intros Hplayers Hgoalies.
  assert (forall p, p ∈ players -> p <> nullPlayer) as Hp
    by (intros p Hin ->; now apply (Hplayers _ Hin)).
  assert (forall g, g ∈ goalies -> g <> nullGoalie) as Hg
    by (intros g Hin ->; now apply (Hgoalies _ Hin)).
  rewrite topPoints_spec, topGoals_spec, topPPG_spec, topGAA_spec.
  repeat split; intros i j; now apply board_sentinels_last.
Qed.

(** X6. The floor of the GAA board never exceeds the largest number of
    games played in the pool, so a goalie who has played as many games as
    anyone in the pool always reaches the floor. *)
Theorem GPmin_le_GPmax goalies :
  num_ge (GPmax goalies) (GPmin goalies) = true
  /\ (forall g, num_ge (GP g) (GPmax goalies) = true ->
                num_ge (GP g) (GPmin goalies) = true).
Proof.
  destruct (GPmax_loop goalies 0) as (r & Hr & Hpos & _).
  fold (GPmax goalies) in Hr. unfold GPmin. rewrite Hr.
  unfold num_mul, Math_round.
  assert (inject_Z (Qfloor ((44 # 100) * r + (1 # 2))) <= r)%Q as Hfloor.
  { pose proof (Qfloor_le ((44 # 100) * r + (1 # 2))) as Hlo.
    destruct (Qlt_le_dec r 1) as [Hsmall|Hbig]; [|lra].
    assert (Qfloor ((44 # 100) * r + (1 # 2)) < 1)%Z as Hz.
    { rewrite Zlt_Qlt. change (inject_Z 1) with 1%Q. lra. }
    assert (inject_Z (Qfloor ((44 # 100) * r + (1 # 2))) <= inject_Z 0)%Q
      as H0 by (rewrite <- Zle_Qle; lia).
    change (inject_Z 0) with 0%Q in H0. lra. }
  split.
  - apply num_ge_true. eexists _, _. repeat split. exact Hfloor.
  - intros g (x & y & Ex & [= <-] & Hle)%num_ge_true.
    rewrite Ex. apply num_ge_true. eexists _, _. repeat split. lra.
Qed.

End BoardShapeFacts.

(** A division of five named players of whom two have scored. *)
Lemma boards_sentinels_last_witness :
  let A := Stats.playerStatline "A" "Able" "T" "D" 5 5 10 1 in
  let Z := Stats.playerStatline "Z" "Zero" "T" "D" 0 0 0 0 in
  Stats.topGoals [A; Z; Z; Z; Z] !! 1 = Some Stats.nullPlayer
  /\ Stats.topGoals [A; Z; Z; Z; Z] !! 2 = Some Stats.nullPlayer.
Proof.
  intros A Z.
  assert (Stats.topGoals [A; Z; Z; Z; Z] !! 1 = Some Stats.nullPlayer) as H1
    by reflexivity.
  split; [exact H1|].
  destruct (boards_sentinels_last [A; Z; Z; Z; Z] []) as (_ & Hgoals & _).
  - intros p Hp.
    repeat (apply elem_of_cons in Hp as [->|Hp]; [discriminate|]).
    now apply elem_of_nil in Hp.
  - intros g Hg. now apply elem_of_nil in Hg.
  - apply (Hgoals 1 2); [lia|lia|exact H1].
Defined.

(** The three players of the tie-break example: C, who is in neither of the
    first two slots, does not beat A, the holder of the second. *)
Lemma topPoints_best_witness :
  let A := Stats.playerStatline "A" "Able" "T" "D" 5 5 10 1 in
  let B := Stats.playerStatline "B" "Baker" "T" "D" 7 3 10 1 in
  let C := Stats.playerStatline "C" "Cole" "T" "D" 9 0 9 1 in
  Stats.topPoints [A; B; C] !! 1 = Some A
  /\ Stats.pointsThenGoals C A = false.
Proof.
  intros A B C.
  assert (Stats.topPoints [A; B; C] !! 1 = Some A) as Hslot by reflexivity.
  split; [exact Hslot|].
  apply (proj1 (topPoints_best [A; B; C]) 1 A C Hslot).
  - apply list_elem_of_lookup. now exists 2.
  - reflexivity.
Defined.

(** In the same pool C has the most goals and B follows. *)
Lemma topGoals_topPPG_best_witness :
  let A := Stats.playerStatline "A" "Able" "T" "D" 5 5 10 1 in
  let B := Stats.playerStatline "B" "Baker" "T" "D" 7 3 10 1 in
  let C := Stats.playerStatline "C" "Cole" "T" "D" 9 0 9 1 in
  Stats.topGoals [A; B; C] !! 0 = Some C
  /\ Stats.topGoals [A; B; C] !! 1 = Some B
  /\ Js.num_gt (Stats.goals B) (Stats.goals C) = false.
Proof.
  intros A B C.
  assert (Stats.topGoals [A; B; C] !! 0 = Some C) as H0 by reflexivity.
  assert (Stats.topGoals [A; B; C] !! 1 = Some B) as H1 by reflexivity.
  split; [exact H0|]. split; [exact H1|].
  apply (proj1 (proj2 (topGoals_topPPG_best [A; B; C])) 0 1 C B);
    [lia|exact H0|exact H1].
Defined.

(** Three goalies who all reach the floor. *)
Lemma topGAA_best_witness :
  let g1 := Stats.goalieStatline "G" "One" "T" "D" 50 (5 # 2) 20 in
  let g2 := Stats.goalieStatline "G" "Two" "T" "D" 30 2 15 in
  let g3 := Stats.goalieStatline "G" "Three" "T" "D" 45 3 15 in
  Stats.topGAA [g1; g2; g3] !! 0 = Some g2
  /\ Js.num_lt (Stats.GAA g3) (Stats.GAA g2) = false.
Proof.
  intros g1 g2 g3.
  assert (Stats.topGAA [g1; g2; g3] !! 0 = Some g2) as H0 by reflexivity.
  split; [exact H0|].
  apply (proj1 (topGAA_best [g1; g2; g3]) 0 g2 g3 H0).
  - apply list_elem_of_lookup. now exists 2.
  - reflexivity.
  - reflexivity.
Defined.

(** Two players with the same full name: only one of them is on the
    board. *)
Lemma boards_no_repeat_witness :
  let A := Stats.playerStatline "A" "Able" "T" "D" 5 5 10 1 in
  let A' := Stats.playerStatline "A" "Able" "U" "D" 4 4 8 1 in
  let B := Stats.playerStatline "B" "Baker" "T" "D" 1 1 2 1 in
  Stats.topPoints [A; A'; B] !! 0 = Some A
  /\ Stats.topPoints [A; A'; B] !! 1 = Some B
  /\ Stats.fullName A <> Stats.fullName B.
Proof.
  intros A A' B.
  assert (Stats.topPoints [A; A'; B] !! 0 = Some A) as H0 by reflexivity.
  assert (Stats.topPoints [A; A'; B] !! 1 = Some B) as H1 by reflexivity.
  split; [exact H0|]. split; [exact H1|].
  apply (proj1 (boards_no_repeat [A; A'; B] []) 0 1 A B);
    [lia|exact H0|exact H1|discriminate].
Defined.

(** A goalie with the most games played in a pool of three. *)
Lemma GPmin_le_GPmax_witness :
  let g1 := Stats.goalieStatline "G" "One" "T" "D" 50 (5 # 2) 20 in
  let g2 := Stats.goalieStatline "G" "Two" "T" "D" 4 (1 # 2) 8 in
  Js.num_ge (Stats.GP g1) (Stats.GPmax [g1; g2]) = true
  /\ Js.num_ge (Stats.GP g1) (Stats.GPmin [g1; g2]) = true.
Proof.
  intros g1 g2.
  assert (Js.num_ge (Stats.GP g1) (Stats.GPmax [g1; g2]) = true) as Hmax
    by reflexivity.
  split; [exact Hmax|].
  exact (proj2 (GPmin_le_GPmax [g1; g2]) g1 Hmax).
Defined.

Section HeaderLookupFacts.
Import Js LogoHandler.
Implicit Types (row headerRow : list string) (headerMap : gmap string nat).

Lemma createHeaderMap_from_last i headerRow headerMap name j :
  name <> "__proto__" ->
  headerRow !! j = Some name ->
  (forall k, j < k -> headerRow !! k <> Some name) ->
  createHeaderMap_from i headerRow headerMap !! name = Some (i + j).
Proof.
  intros Hproto. revert i headerMap j.
  induction headerRow as [|first rest IH]; intros i headerMap j Hj Hlast;
    [discriminate|].
  simpl. destruct j as [|j].
  - injection Hj as ->.
    rewrite bool_decide_eq_false_2 by exact Hproto.
    rewrite createHeaderMap_from_absent, lookup_insert_eq.
    + f_equal. lia.
    + intros (k & Hk)%list_elem_of_lookup. now apply (Hlast (S k)); [lia|].
  - rewrite IH with (j := j).
    + f_equal. lia.
    + exact Hj.
    + intros k Hk. apply (Hlast (S k)). lia.
Qed.

(** X7. A column is found by its name wherever it stands in the header: for
    a name (other than [__proto__]) whose last occurrence in the header row
    is at position [j], the header map gives [j] and [getValue] returns the
    cell of the row at [j], or [undefined] when the row ends before it. With
    a repeated column name the last column wins. *)
Theorem getValue_reads_named_column row headerRow name j :
  name <> "__proto__" ->
  headerRow !! j = Some name ->
  (forall k, j < k -> headerRow !! k <> Some name) ->
  createHeaderMap headerRow !! name = Some j
  /\ getValue row name (createHeaderMap headerRow)
     = match row !! j with Some cell => Str cell | None => Undefined end.
Proof.
  intros Hproto Hj Hlast.
  assert (createHeaderMap headerRow !! name = Some j) as Hmap.
  { unfold createHeaderMap.
    now rewrite (createHeaderMap_from_last 0 headerRow ∅ name j). }
  split; [exact Hmap|]. unfold getValue. now rewrite Hmap.
Qed.

End HeaderLookupFacts.

(** A header with the column G twice: the second one is read. *)
Lemma getValue_reads_named_column_witness :
  LogoHandler.getValue ["x"; "1"; "2"] "G"
    (LogoHandler.createHeaderMap ["Team"; "G"; "G"]) = Js.Str "2".
Proof.
  apply (getValue_reads_named_column ["x"; "1"; "2"] ["Team"; "G"; "G"] "G" 2).
  - discriminate.
  - reflexivity.
  - intros [|[|[|k]]] Hk; try lia; discriminate.
Defined.

Section ParserLineFacts.
Import Js LogoHandler Sheets.
Implicit Types (s t a b line : string) (c : ascii).

Lemma stripCR_app s t : stripCR (s +:+ t) = stripCR s +:+ stripCR t.
Proof.
  induction s as [|c s IH]; [reflexivity|]. rewrite str_app_cons. simpl.
  case_bool_decide; [exact IH|]. now rewrite str_app_cons, IH.
Qed.

Lemma splitLines_cons s :
  exists first others, splitLines s = first :: others.
Proof.
  induction s as [|c s (first & others & IH)]; simpl; [eauto|].
  case_bool_decide; [eauto|]. rewrite IH. eauto.
Qed.

Lemma splitLines_line_feed a b :
  splitLines (a +:+ String LF b) = splitLines a ++ splitLines b.
Proof.
  induction a as [|c a IH]; [reflexivity|]. rewrite str_app_cons. simpl.
  case_bool_decide; [now rewrite IH|]. rewrite IH.
  destruct (splitLines_cons a) as (first & others & ->). reflexivity.
Qed.

(** X8. Parsing is line by line: the rows of a text are the rows of the
    part before a line feed followed by the rows of the part after it, so a
    quoted field never runs over a line break; and a carriage return
    anywhere in the text is ignored. *)
Theorem parseCSV_line_by_line a b :
  parseCSV (a +:+ String LF b) = parseCSV a ++ parseCSV b
  /\ parseCSV (a +:+ String CR b) = parseCSV (a +:+ b).
Proof.
  split.
  - rewrite !parseCSV_spec. unfold spec_parseCSV.
    rewrite stripCR_app. simpl stripCR.
    rewrite splitLines_line_feed, filter_app, fmap_app. reflexivity.
  - unfold parseCSV. rewrite !stripCR_app. simpl stripCR. reflexivity.
Qed.

(** The commas of a line. *)
Lemma parseLine_no_quote_length line :
  occurs QUOTE line = false ->
  length (spec_cells false line) = S (count_commas line).
Proof.
  induction line as [|c line IH]; [reflexivity|]. simpl.
  intros [Hc Hline]%orb_false_iff. rewrite Hc, andb_true_r.
  specialize (IH Hline).
  destruct (bool_decide (c = COMMA)); simpl; [now f_equal|].
  destruct (spec_cells_cons false line) as (cell & cells & Hs).
  rewrite Hs in *. exact IH.
Qed.

(** X9. A line without quote characters has one more cell than it has
    commas, and a line without quote characters and commas is one cell, the
    trimmed line. *)
Theorem parseLine_cell_count line :
  occurs QUOTE line = false ->
  length (parseLine line) = S (count_commas line)
  /\ (occurs COMMA line = false -> parseLine line = [trim line]).
Proof.
  intros Hquote. rewrite parseLine_spec. split.
  - rewrite length_fmap. now apply parseLine_no_quote_length.
  - intros Hcomma.
    rewrite <- (str_app_nil_r line) at 1.
    rewrite spec_cells_stretch by auto. simpl.
    now rewrite str_app_nil_r.
Qed.

End ParserLineFacts.

(** A line of three cells. *)
Lemma parseLine_cell_count_witness :
  length (LogoHandler.parseLine "a, b ,c") = 3.
Proof.
  exact (proj1 (parseLine_cell_count "a, b ,c" eq_refl)).
Defined.

Section RegistryMoreFacts.
Import Js LogoHandler.
Implicit Types (cache : gmap string LeagueUrls) (rows : list (list string))
  (headerMap : gmap string nat).

Lemma findLeagueRow_case rows headerMap (a b : string) :
  toLowerCase a = toLowerCase b ->
  findLeagueRow rows headerMap a = findLeagueRow rows headerMap b.
Proof.
  intros Hab. induction rows as [|row rows IH]; [reflexivity|].
  simpl. now rewrite Hab, IH.
Qed.

(** What a call returns or throws when nothing is cached for the name. *)
Lemma getLeagueCsvUrls_miss cache (name : jsval) (fetched : outcome string) :
  cache !! trimmed_text name = None ->
  (getLeagueCsvUrls cache name fetched).1
  = (getLeagueCsvUrls ∅ name fetched).1.
Proof.
  intros Hmiss. unfold getLeagueCsvUrls, readCache.
  case_bool_decide; [reflexivity|].
  rewrite Hmiss, lookup_empty.
  case_bool_decide; [reflexivity|].
  destruct fetched as [csv|e]; [|reflexivity].
  destruct (parseCSV csv) as [|headerRow rows]; [reflexivity|].
  now destruct (anyUrlMissing _).
Qed.

(** X10. The league is looked up in the master sheet without regard to
    case: when two folder names are equal up to case after trimming and
    the cache gives nothing for either, that is, neither has cached
    addresses and neither is the name of a property that every object
    inherits, a call that returns for one returns the same addresses for
    the other from the same sheet. *)
Theorem getLeagueCsvUrls_case_insensitive cache (a b : jsval)
    (fetched : outcome string) entry :
  toLowerCase (trimmed_text a) = toLowerCase (trimmed_text b) ->
  readCache cache (trimmed_text a) = None ->
  readCache cache (trimmed_text b) = None ->
  (getLeagueCsvUrls cache a fetched).1 = Return entry ->
  (getLeagueCsvUrls cache b fetched).1 = Return entry
  /\ exists urls, entry = Urls urls /\ anyUrlMissing urls = false.
Proof.
  intros Hab Ha Hb. unfold getLeagueCsvUrls. rewrite Ha, Hb.
  case_bool_decide as Hna; [discriminate|].
  rewrite bool_decide_eq_false_2.
  - destruct fetched as [csv|e]; [|discriminate].
    destruct (parseCSV csv) as [|headerRow rows]; [discriminate|].
    rewrite (findLeagueRow_case rows _ _ _ Hab).
    destruct (anyUrlMissing _) eqn:Hurls; [discriminate|].
    simpl. intros [= <-]. split; [reflexivity|]. now eexists.
  - intros Hnb. rewrite Hnb in Hab. now apply toLowerCase_empty in Hab.
Qed.

(** X11. The cache serves a league only under its own name, and
    invalidation forces a fresh look at the sheet: after a call for one
    league, a call for a differently named league returns or throws what it
    would have without the first call; and after [invalidateLeagueCache] a
    call for the league returns or throws what it does on an empty cache. *)
Theorem leagueUrlCache_isolated cache (a b : jsval)
    (fetched fetched' : outcome string) :
  (trimmed_text a <> trimmed_text b ->
   (getLeagueCsvUrls (getLeagueCsvUrls cache a fetched).2 b fetched').1
   = (getLeagueCsvUrls cache b fetched').1)
  /\ (getLeagueCsvUrls (invalidateLeagueCache cache a) a fetched').1
     = (getLeagueCsvUrls ∅ a fetched').1.
Proof.
  split.
  - intros Hab.
    assert ((getLeagueCsvUrls cache a fetched).2 !! trimmed_text b
            = cache !! trimmed_text b) as Hsame.
    { unfold getLeagueCsvUrls.
      case_bool_decide; [reflexivity|].
      destruct (readCache cache (trimmed_text a)); [reflexivity|].
      destruct fetched as [csv|e]; [|reflexivity].
      destruct (parseCSV csv) as [|headerRow rows]; [reflexivity|].
      destruct (anyUrlMissing _); [reflexivity|].
      simpl. now rewrite lookup_insert_ne. }
    unfold getLeagueCsvUrls at 1 3, readCache.
    case_bool_decide; [reflexivity|].
    rewrite Hsame.
    destruct (cache !! trimmed_text b); [reflexivity|].
    case_bool_decide; [reflexivity|].
    destruct fetched' as [csv|e]; [|reflexivity].
    destruct (parseCSV csv) as [|headerRow rows]; [reflexivity|].
    now destruct (anyUrlMissing _).
  - destruct (decide (trimmed_text a = "")) as [Hempty|Hname].
    + unfold getLeagueCsvUrls. now rewrite !bool_decide_eq_true_2.
    + apply getLeagueCsvUrls_miss.
      now apply (invalidateLeagueCache_miss cache a).
Qed.

End RegistryMoreFacts.

(** The league of the sample sheet under two spellings. *)
Lemma getLeagueCsvUrls_case_insensitive_witness :
  (LogoHandler.getLeagueCsvUrls ∅ (Js.Str "nhl")
     (LogoHandler.Return LogoHandler.sampleMasterCsv)).1
  = LogoHandler.Return (LogoHandler.Urls LogoHandler.sampleUrls).
Proof.
  apply (getLeagueCsvUrls_case_insensitive ∅ (Js.Str "NHL") (Js.Str "nhl")
           (LogoHandler.Return LogoHandler.sampleMasterCsv));
    vm_compute; reflexivity.
Defined.

(** Two leagues of different names. *)
Lemma leagueUrlCache_isolated_witness :
  (LogoHandler.getLeagueCsvUrls
     (LogoHandler.getLeagueCsvUrls ∅ (Js.Str "NHL")
        (LogoHandler.Return LogoHandler.sampleMasterCsv)).2
     (Js.Str "AHL") (LogoHandler.Return "")).1
  = (LogoHandler.getLeagueCsvUrls ∅ (Js.Str "AHL") (LogoHandler.Return "")).1.
Proof.
  apply (proj1 (leagueUrlCache_isolated ∅ (Js.Str "NHL") (Js.Str "AHL")
                  (LogoHandler.Return LogoHandler.sampleMasterCsv)
                  (LogoHandler.Return ""))).
  discriminate.
Defined.

Section SheetCacheFacts.
Import Js LogoHandler Sheets.
Implicit Types (w : World) (net : network) (name : jsval)
  (sheetName : string).

Lemma resolveLeague_branding net name w :
  brandingSheetCache (resolveLeague net name w).2 = brandingSheetCache w.
Proof.
  unfold resolveLeague.
  now destruct (getLeagueCsvUrls _ _ _) as [resolved urlCache].
Qed.


(** A sheet that is in the cache is returned as it is. *)
Lemma getBrandingSheet_hit net name sheetName w sheets rows :
  trimmed_text name <> "" ->
  brandingSheetCache w !! trimmed_text name = Some sheets ->
  sheets !! sheetName = Some rows ->
  getBrandingSheet net name sheetName w = (Ok rows, w).
Proof.
  intros Hname Hleague Hsheet. unfold getBrandingSheet.
  rewrite bool_decide_eq_false_2 by exact Hname.
  rewrite Hleague. simpl. rewrite Hsheet. now destruct w.
Qed.

(** X12. A branding sheet that has been read is served from the cache: when
    [getBrandingSheet] returns rows, every later call for the same league
    and sheet returns the same rows, whatever the network would answer,
    asks the network for nothing and leaves the world as it is. *)
Theorem getBrandingSheet_memo net name sheetName w rows w' :
  getBrandingSheet net name sheetName w = (Ok rows, w') ->
  forall net', getBrandingSheet net' name sheetName w' = (Ok rows, w').
Proof.
  unfold getBrandingSheet at 1.
  case_bool_decide as Hname; [discriminate|]. cbv zeta.
  destruct (default ∅ (brandingSheetCache w !! trimmed_text name)
              !! sheetName) as [cached|] eqn:Hcached.
  - intros [= <- <-] net'.
    destruct (brandingSheetCache w !! trimmed_text name) as [sheets|]
      eqn:Hleague; [|simpl in Hcached; now rewrite lookup_empty in Hcached].
    now apply (getBrandingSheet_hit _ _ _ _ sheets).
  - destruct (resolveLeague net name _) as [resolved w2].
    destruct resolved as [urls|e]; [|discriminate].
    destruct (if bool_decide (sheetName = "Divisions") then _ else _)
      as [targetUrl|]; [|discriminate].
    destruct (fetchSheet net targetUrl w2) as [read w3].
    destruct read as [parsed|e]; [|discriminate].
    intros [= <- <-] net'.
    eapply getBrandingSheet_hit; [exact Hname|simpl|];
      apply lookup_insert_eq.
Qed.

Lemma getBrandingSheet_memo_witness :
  let run := getBrandingSheet sampleNet (Str "NHL") "Divisions" emptyWorld in
  run.1 = Ok [["conf"; "div"; "abb"]; ["East"; "Atlantic"; "ATL"]]
  /\ getBrandingSheet deadNet (Str "NHL") "Divisions" run.2
     = (Ok [["conf"; "div"; "abb"]; ["East"; "Atlantic"; "ATL"]], run.2).
Proof.
  cbv zeta. split; [vm_compute; reflexivity|].
  apply (getBrandingSheet_memo sampleNet (Str "NHL") "Divisions" emptyWorld).
  vm_compute. reflexivity.
Defined.






End SheetCacheFacts.

Section LoaderFacts.
Import Js LogoHandler Sheets.
Implicit Types (row : list string) (rows divInfo : list (list string)).
Implicit Types (confs : list Conference) (headerMap : gmap string nat).

Lemma conference_seen confs (confName : jsval) :
  existsb (fun c => strict_eq (Conference.conf c) confName) confs = true
  <-> confName ∈ Conference.conf <$> confs.
Proof.
  rewrite existsb_exists, list_elem_of_fmap. unfold strict_eq.
  split.
  - intros (c & Hin & Heq). apply bool_decide_eq_true_1 in Heq.
    exists c. split; [congruence|]. now apply list_elem_of_In.
  - intros (c & -> & Hin). exists c.
    split; [now apply list_elem_of_In|]. now apply bool_decide_eq_true_2.
Qed.

(** The invariant of the loop of [loadConferenceInfo]. *)
Lemma conference_loop confs rows :
  NoDup (Conference.conf <$> confs) ->
  exists new,
    foldl conference_step confs rows = confs ++ new
    /\ NoDup (Conference.conf <$> confs ++ new)
    /\ (Conference.conf <$> new) `sublist_of`
         ((fun row => cellAt row 0) <$> rows)
    /\ (forall row, row ∈ rows ->
          cellAt row 0 ∈ Conference.conf <$> confs ++ new)
    /\ (forall c, c ∈ new ->
          exists before row after,
            rows = before ++ row :: after /\ c = conferenceOfRow row
            /\ forall r, r ∈ before -> cellAt r 0 <> cellAt row 0).
Proof.
  revert confs. induction rows as [|row rest IH]; intros confs Hnodup.
  - exists []. rewrite app_nil_r. simpl.
    repeat split; [assumption|constructor| |];
      intros x Hx; now apply elem_of_nil in Hx.
  - simpl. unfold conference_step at 2. cbv zeta.
    destruct (existsb _ confs) eqn:Hseen; simpl.
    + apply conference_seen in Hseen.
      destruct (IH confs Hnodup) as (new & Hres & Hnd & Hsub & Hall & Hfirst).
      exists new. split; [exact Hres|]. split; [exact Hnd|].
      split; [now apply sublist_cons|].
      split.
      * intros r [Er|Hr]%elem_of_cons; [|now apply Hall].
        rewrite Er, fmap_app. apply elem_of_app. now left.
      * intros c Hc.
        destruct (Hfirst c Hc) as (before & r & after & -> & -> & Hbefore).
        exists (row :: before), r, after.
        split; [reflexivity|]. split; [reflexivity|].
        intros r' [Er|Hr']%elem_of_cons; [|now apply Hbefore].
        rewrite Er. intros Heq. rewrite fmap_app in Hnd.
        apply NoDup_app in Hnd as (_ & Hdisj & _).
        apply (Hdisj (cellAt row 0) Hseen).
        apply list_elem_of_fmap. exists (conferenceOfRow r).
        split; [exact Heq|exact Hc].
    + assert (cellAt row 0 ∉ Conference.conf <$> confs) as Hfresh.
      { intros Hin. apply conference_seen in Hin. congruence. }
      destruct (IH (confs ++ [conferenceOfRow row]))
        as (new & Hres & Hnd & Hsub & Hall & Hfirst).
      { rewrite fmap_app. apply NoDup_app. split; [exact Hnodup|].
        split; [|apply NoDup_singleton].
        intros x Hx Hx'. simpl in Hx'.
        apply list_elem_of_singleton in Hx'. subst x. now apply Hfresh. }
      rewrite <- app_assoc in Hres, Hnd, Hall. simpl in Hres, Hnd, Hall.
      exists (conferenceOfRow row :: new).
      split; [exact Hres|]. split; [exact Hnd|].
      split; [now apply sublist_skip|].
      split.
      * intros r [Er|Hr]%elem_of_cons; [|now apply Hall].
        rewrite Er, fmap_app. apply elem_of_app. right. simpl. left.
      * intros c [Ec|Hc]%elem_of_cons.
        { exists [], row, rest. repeat split; [exact Ec|].
          intros r Hr. now apply elem_of_nil in Hr. }
        destruct (Hfirst c Hc) as (before & r & after & -> & -> & Hbefore).
        exists (row :: before), r, after.
        split; [reflexivity|]. split; [reflexivity|].
        intros r' [Er|Hr']%elem_of_cons; [|now apply Hbefore].
        rewrite Er. intros Heq. rewrite fmap_app in Hnd.
        apply NoDup_app in Hnd as (_ & _ & Hnd). simpl in Hnd.
        apply NoDup_cons in Hnd as [Hnot _]. apply Hnot.
        apply list_elem_of_fmap. exists (conferenceOfRow r).
        split; [exact Heq|exact Hc].
Qed.

(** X15. The conferences that [loadConferenceInfo] builds from the rows of
    the division sheet after the header: no two have the same name, every
    row's conference is among them, they come in the order in which the
    sheet first names them, and each one is built from the first row that
    names it (so its colour, time zone and location are those of that
    row). Whatever the network gives, [loadConferenceInfo] returns no
    conference name twice. *)
Theorem conferencesOfSheet_first_rows divInfo :
  let confs := conferencesOfSheet divInfo in
  let rows := drop 1 divInfo in
  NoDup (Conference.conf <$> confs)
  /\ (forall row, row ∈ rows -> cellAt row 0 ∈ Conference.conf <$> confs)
  /\ (Conference.conf <$> confs) `sublist_of`
       ((fun row => cellAt row 0) <$> rows)
  /\ (forall c, c ∈ confs ->
        exists before row after,
          rows = before ++ row :: after /\ c = conferenceOfRow row
          /\ forall r, r ∈ before -> cellAt r 0 <> cellAt row 0)
  /\ (forall net name w,
        NoDup (Conference.conf <$> (loadConferenceInfo net name w).1)).
Proof.
  cbv zeta. unfold conferencesOfSheet.
  destruct (conference_loop [] (drop 1 divInfo))
    as (new & -> & Hnd & Hsub & Hall & Hfirst); [constructor|].
  simpl in *. repeat split; auto.
  intros net name w. unfold loadConferenceInfo.
  destruct (getBrandingSheet net name "Divisions" w) as [[sheet|e] w'];
    simpl; [|constructor].
  unfold conferencesOfSheet.
  destruct (conference_loop [] (drop 1 sheet)) as (new' & -> & Hnd' & _);
    [constructor|exact Hnd'].
Qed.

(** A loop that pushes what it builds from the rows it keeps. *)
Lemma push_loop {A B : Type} (step : list B -> A -> list B)
    (keep : A -> bool) (build : A -> B) (acc : list B) (xs : list A) :
  (forall out x, step out x = if keep x then out ++ [build x] else out) ->
  foldl step acc xs
  = acc ++ (build <$> filter (fun x => keep x = true) xs).
Proof.
  intros Hstep. revert acc. induction xs as [|x xs IH]; intros acc; simpl.
  - now rewrite app_nil_r.
  - rewrite IH, Hstep. destruct (keep x) eqn:Hkeep.
    + rewrite filter_cons_True by exact Hkeep.
      now rewrite <- app_assoc.
    + rewrite filter_cons_False by congruence. reflexivity.
Qed.

(** X16. The goalie lines that [loadGoalieStats] builds from a sheet with a
    header row are the lines of the rows below it, in the order of the
    sheet, without those whose full name is, after trimming and
    lower-casing, the text backup goalie, and without those that have no
    team; so, whatever the network gives, no line that [loadGoalieStats]
    returns is a backup goalie or lacks a team. *)
Theorem goalieLinesOfSheet_kept headerRow rows :
  let headerMap := createHeaderMap headerRow in
  let lines := goalieLinesOfSheet (headerRow :: rows) in
  lines
  = (fun row => goalieLineOfRow row headerMap)
      <$> filter (fun row =>
                    keepsGoalie (goalieLineOfRow row headerMap) = true) rows
  /\ forall net name w g, g ∈ (loadGoalieStats net name w).1 ->
       normalizedName (GoalieLine.fullName g) <> "backup goalie"
       /\ falsy (GoalieLine.teamName g) = false.
Proof.
  cbv zeta.
  assert (forall headerRow rows,
          goalieLinesOfSheet (headerRow :: rows)
          = (fun row => goalieLineOfRow row (createHeaderMap headerRow))
              <$> filter (fun row =>
                            keepsGoalie (goalieLineOfRow row
                                           (createHeaderMap headerRow))
                            = true) rows) as Hlines.
  { clear headerRow rows. intros headerRow rows.
    unfold goalieLinesOfSheet.
    rewrite (push_loop _
               (fun row => keepsGoalie (goalieLineOfRow row
                                          (createHeaderMap headerRow)))
               (fun row => goalieLineOfRow row (createHeaderMap headerRow))).
    - reflexivity.
    - intros out row. unfold goalie_step, keepsGoalie. cbv zeta.
      case_bool_decide; simpl; [reflexivity|].
      now destruct (falsy _). }
  split; [apply Hlines|].
  intros net name w g. unfold loadGoalieStats.
  destruct (getStatsSheet net name "GOALIE STATS" w) as [[sheet|e] w'];
    simpl; [|intros Hg; now apply elem_of_nil in Hg].
  destruct sheet as [|header sheet];
    [intros Hg; now apply elem_of_nil in Hg|].
  intros Hg. rewrite Hlines in Hg.
  apply list_elem_of_fmap in Hg as (row & -> & Hrow).
  apply list_elem_of_filter in Hrow as [Hkeep _].
  unfold keepsGoalie in Hkeep.
  apply andb_true_iff in Hkeep as [Hname Hteam].
  apply negb_true_iff in Hname, Hteam.
  apply bool_decide_eq_false in Hname. split; [exact Hname|exact Hteam].
Qed.

(** X17. The standings lines that [loadStandings] builds from a sheet with
    a header row are the lines of the rows below it that are not empty and
    have a team name, in the order of the sheet; whatever the network
    gives, every line that [loadStandings] returns has a team name and a
    percentage other than the spreadsheet's division error, which is
    replaced by [0.000]; every other percentage is the cell as read. *)
Theorem standingsOfSheet_kept headerRow rows :
  let headerMap := createHeaderMap headerRow in
  let teamStats := standingsOfSheet (headerRow :: rows) in
  teamStats
  = (fun row => teamLineOfRow row headerMap)
      <$> filter (fun row => keepsTeam headerMap row = true) rows
  /\ (forall net name w t, t ∈ (loadStandings net name w).1 ->
        falsy (TeamLine.fullTeam t) = false
        /\ TeamLine.pct t <> Str "#DIV/0!")
  /\ (forall row, getValue row "P%" headerMap <> Str "#DIV/0!" ->
        TeamLine.pct (teamLineOfRow row headerMap)
        = getValue row "P%" headerMap).
Proof.
  cbv zeta.
  assert (forall headerRow rows,
          standingsOfSheet (headerRow :: rows)
          = (fun row => teamLineOfRow row (createHeaderMap headerRow))
              <$> filter (fun row =>
                            keepsTeam (createHeaderMap headerRow) row = true)
                         rows) as Hlines.
  { clear headerRow rows. intros headerRow rows.
    unfold standingsOfSheet.
    rewrite (push_loop _ (keepsTeam (createHeaderMap headerRow))
               (fun row => teamLineOfRow row (createHeaderMap headerRow))).
    - reflexivity.
    - intros out row. unfold standings_step, keepsTeam. cbv zeta.
      destruct (length row =? 0); simpl; [reflexivity|].
      now destruct (falsy _). }
  split; [apply Hlines|]. split.
  - intros net name w t. unfold loadStandings.
    destruct (getStatsSheet net name "STANDINGS" w) as [[sheet|e] w'];
      simpl; [|intros Ht; now apply elem_of_nil in Ht].
    destruct sheet as [|header sheet];
      [intros Ht; now apply elem_of_nil in Ht|].
    intros Ht. rewrite Hlines in Ht.
    apply list_elem_of_fmap in Ht as (row & -> & Hrow).
    apply list_elem_of_filter in Hrow as [Hkeep _].
    unfold keepsTeam in Hkeep.
    apply andb_true_iff in Hkeep as [_ Hteam].
    apply negb_true_iff in Hteam. split; [exact Hteam|].
    simpl. unfold strict_eq. case_bool_decide; congruence.
  - intros row Hpct. simpl. unfold strict_eq.
    case_bool_decide; congruence.
Qed.

End LoaderFacts.

Section FreshSheetFacts.
Import Js LogoHandler Sheets.
Implicit Types (w : World) (net : network) (name : jsval).

Lemma resolveLeague_requests net name w :
  exists asked,
    requests (resolveLeague net name w).2 = requests w ++ asked.
Proof.
  unfold resolveLeague.
  destruct (getLeagueCsvUrls _ _ _) as [resolved urlCache]. simpl.
  destruct (_ && _).
  - now exists [MASTER_LEAGUE_SHEET_URL].
  - exists []. now rewrite app_nil_r.
Qed.

Lemma fetchSheet_fresh net url w0 w asked :
  brandingSheetCache w = brandingSheetCache w0 ->
  requests w = requests w0 ++ asked ->
  fresh_read net w0 (fetchSheet net url w).
Proof.
  intros Hcache Hasked. unfold fresh_read, fetchSheet, fetchText.
  destruct (net (to_string url)) as [csvText|e] eqn:Hnet; simpl.
  - split; [exact Hcache|]. intros rows [= <-].
    exists (to_string url), csvText, asked.
    rewrite Hasked, <- app_assoc. auto.
  - split; [exact Hcache|]. discriminate.
Qed.

(** X18. The statistics and schedule sheets are never served from a cache:
    whenever [getStatsSheet] or [getScheduleSheet] returns rows, they are
    the parsed text that the network gave for the last address asked in
    this very call, and neither call changes the cache of branding
    sheets. *)
Theorem stats_and_schedule_sheets_fresh net name sheetName w :
  fresh_read net w (getStatsSheet net name sheetName w)
  /\ fresh_read net w (getScheduleSheet net name w).
Proof.
  unfold getStatsSheet, getScheduleSheet.
  pose proof (resolveLeague_branding net name w) as Hcache.
  destruct (resolveLeague_requests net name w) as [asked Hasked].
  destruct (resolveLeague net name w) as [resolved w1].
  simpl in Hcache, Hasked.
  assert (forall e, fresh_read net w (Failed e, w1)) as Hfailed.
  { intros e. split; [exact Hcache|]. discriminate. }
  destruct resolved as [urls|e]; [|split; apply Hfailed].
  split; [|now apply (fetchSheet_fresh _ _ _ _ asked)].
  repeat case_bool_decide;
    first [now apply (fetchSheet_fresh _ _ _ _ asked) | apply Hfailed].
Qed.

End FreshSheetFacts.

Section PageFacts.
Import Standings StandingsPages.
Context {A : Type}.
Implicit Types (standings : list A) (chunks : list (list A)).

(** The chunks of a list that does not fit in one chunk. *)
Lemma splitIntoChunks_shape standings maxPerChunk :
  1 <= maxPerChunk -> maxPerChunk < length standings ->
  exists numChunks chunkSize,
    0 < chunkSize /\ (numChunks - 1) * chunkSize < length standings
    /\ splitIntoChunks maxPerChunk standings
       = full_chunks standings chunkSize (numChunks - 1)
         ++ [drop ((numChunks - 1) * chunkSize) standings].
Proof.
  intros Hmax Hlt.
  set (n := length standings) in *.
  set (k := ceil_div n maxPerChunk). set (sz := ceil_div n k).
  destruct (ceil_div_bounds n maxPerChunk) as [K1 K2]; [lia|].
  fold k in K1, K2.
  assert (0 < k) as Hk by nia.
  destruct (ceil_div_bounds n k) as [S1 S2]; [lia|].
  fold sz in S1, S2.
  assert (0 < sz) as Hsz by nia.
  assert (sz <= maxPerChunk) as Hszm by nia.
  assert ((k - 1) * sz < n) as Hlast by nia.
  exists k, sz. split; [exact Hsz|]. split; [exact Hlast|].
  unfold splitIntoChunks. fold n.
  assert ((n <=? maxPerChunk) = false) as -> by (apply Nat.leb_gt; lia).
  fold k. fold sz. apply loop_result; assumption.
Qed.

Lemma splitIntoChunks_covers standings maxPerChunk :
  1 <= maxPerChunk ->
  concat (splitIntoChunks maxPerChunk standings) = standings
  /\ (standings <> [] ->
      Forall (fun chunk => chunk <> []) (splitIntoChunks maxPerChunk standings)).
Proof.
  intros Hmax.
  destruct (Nat.le_gt_cases (length standings) maxPerChunk) as [Hle|Hlt].
  - unfold splitIntoChunks. apply Nat.leb_le in Hle. rewrite Hle. simpl.
    rewrite app_nil_r. split; [reflexivity|]. intros Hne.
    constructor; [exact Hne|constructor].
  - destruct (splitIntoChunks_shape standings maxPerChunk Hmax Hlt)
      as (k & sz & Hsz & Hlast & ->).
    split.
    + rewrite concat_app, concat_full_chunks. simpl. rewrite app_nil_r.
      apply take_drop.
    + intros _. apply Forall_app. split.
      * apply Forall_forall. intros chunk Hin ->.
        apply list_elem_of_lookup in Hin as [i Hi].
        apply full_chunks_length in Hi; [simpl in Hi; lia|lia].
      * constructor; [|constructor]. intros Hnil.
        apply (f_equal length) in Hnil. rewrite length_drop in Hnil.
        simpl in Hnil. lia.
Qed.

End PageFacts.

Section PageRunFacts.
Import Js Standings Sheets StandingsPages.
Implicit Types (teams : list TeamInfo) (tFull : option jsval).
Implicit Types (line : TeamLine) (lines standings : list TeamLine).
Implicit Types (chunks : list (list TeamLine)) (row : Row).

Lemma renderRow_throws teams tFull rankNumber line :
  renderRow teams tFull rankNumber line = None
  <-> tFull = None /\ findTeam teams line = None.
Proof.
  unfold renderRow. destruct (findTeam teams line) as [team|].
  - split; [discriminate|]. now intros [_ ?].
  - destruct tFull; split; try discriminate; try tauto. now intros [? _].
Qed.

Lemma renderRow_row teams tFull rankNumber line row tFull' :
  renderRow teams tFull rankNumber line = Some (row, tFull') ->
  Row.rank row = rankNumber /\ row_of teams line row /\ tFull' <> None.
Proof.
  unfold renderRow, row_of.
  destruct (findTeam teams line) as [team|].
  - intros [= <- <-]. simpl. repeat split. discriminate.
  - destruct tFull as [logoName|]; [|discriminate].
    intros [= <- <-]. simpl. repeat split. discriminate.
Qed.

(** Once [tFull] exists, no turn throws. *)
Lemma renderRows_defined teams tFull processedBefore i lines :
  tFull <> None ->
  exists rows tFull',
    renderRows teams tFull processedBefore i lines = Some (rows, tFull')
    /\ tFull' <> None
    /\ Row.rank <$> rows = seq (processedBefore + (i + 1)) (length lines)
    /\ Forall2 (row_of teams) lines rows.
Proof.
  revert tFull i. induction lines as [|line lines IH]; intros tFull i Hdef.
  - exists [], tFull. repeat split; [exact Hdef|constructor].
  - cbn [renderRows].
    destruct (renderRow teams tFull (processedBefore + (i + 1)) line)
      as [[row tFull1]|] eqn:Hrow.
    + apply renderRow_row in Hrow as (Hrank & Hof & Hdef1).
      destruct (IH tFull1 (S i) Hdef1)
        as (rows & tFull2 & -> & Hdef2 & Hr & Ha).
      exists (row :: rows), tFull2. split; [reflexivity|].
      split; [exact Hdef2|]. split.
      * rewrite fmap_cons, Hrank, Hr. cbn [length seq]. do 2 f_equal. lia.
      * now constructor.
    + apply renderRow_throws in Hrow as [Hnone _]. contradiction.
Qed.

(** The first turn decides: with a first team that is found, or a [tFull]
    that exists, the page is written. *)
Lemma renderRows_first teams tFull processedBefore line lines :
  tFull <> None \/ findTeam teams line <> None ->
  exists rows tFull',
    renderRows teams tFull processedBefore 0 (line :: lines)
    = Some (rows, tFull')
    /\ tFull' <> None
    /\ Row.rank <$> rows = seq (processedBefore + 1) (S (length lines))
    /\ Forall2 (row_of teams) (line :: lines) rows.
Proof.
  intros Hfirst. cbn [renderRows].
  destruct (renderRow teams tFull (processedBefore + (0 + 1)) line)
    as [[row tFull1]|] eqn:Hrow.
  - apply renderRow_row in Hrow as (Hrank & Hof & Hdef1).
    destruct (renderRows_defined teams tFull1 processedBefore 1 lines Hdef1)
      as (rows & tFull2 & -> & Hdef2 & Hr & Ha).
    exists (row :: rows), tFull2. split; [reflexivity|].
    split; [exact Hdef2|]. split.
    + rewrite fmap_cons, Hrank, Hr. cbn [length seq]. do 2 f_equal; lia.
    + now constructor.
  - apply renderRow_throws in Hrow as [Hnone Hmiss]. tauto.
Qed.

(** The loop over non-empty chunks, once the first turn is passed. *)
Lemma pages_defined teams tFull processedBefore chunks :
  Forall (fun chunk => chunk <> []) chunks ->
  (tFull <> None
   \/ exists line lines rest,
        chunks = (line :: lines) :: rest /\ findTeam teams line <> None) ->
  let run := pages teams tFull processedBefore chunks in
  thrown run = false
  /\ Row.rank <$> concat (exported run)
     = seq (processedBefore + 1) (length (concat chunks))
  /\ Forall2 (Forall2 (row_of teams)) chunks (exported run).
Proof.
  intros Hne. revert tFull processedBefore.
  induction Hne as [|chunk rest Hchunk _ IH]; intros tFull processedBefore Hfirst.
  - repeat split. constructor.
  - destruct chunk as [|line lines]; [contradiction|].
    assert (tFull <> None \/ findTeam teams line <> None) as Hline.
    { destruct Hfirst as [?|(l & ls & r & [= <- _ _] & ?)]; tauto. }
    destruct (renderRows_first teams tFull processedBefore line lines Hline)
      as (rows & tFull' & Hrows & Hdef & Hrank & Hof).
    cbn [pages length Nat.eqb]. rewrite Hrows.
    destruct (IH tFull' (processedBefore + S (length lines)) (or_introl Hdef))
      as (Hthrown & Hranks & Hall).
    cbn [exported thrown]. split; [exact Hthrown|]. split.
    + cbn [concat]. rewrite fmap_app, Hrank, Hranks, length_app.
      cbn [length].
      replace (processedBefore + S (length lines) + 1)
        with (processedBefore + 1 + S (length lines)) by lia.
      symmetry. apply seq_app.
    + now constructor.
Qed.

Lemma Forall2_row_lines teams lines (rows : list Row) :
  Forall2 (row_of teams) lines rows -> Row.line <$> rows = lines.
Proof.
  induction 1 as [|line row lines rows [Hline _] _ IH]; [reflexivity|].
  now rewrite fmap_cons, Hline, IH.
Qed.

Lemma concat_row_lines (l : list (list Row)) :
  Row.line <$> concat l
  = concat ((fun page : list Row => Row.line <$> page) <$> l).
Proof.
  induction l as [|page l IH]; [reflexivity|].
  rewrite fmap_cons. cbn [concat]. now rewrite fmap_app, IH.
Qed.

Lemma ranked_lines (rows : list Row) lines k :
  Row.rank <$> rows = seq (k + 1) (length lines) ->
  Row.line <$> rows = lines ->
  (fun row : Row => (Row.rank row, Row.line row)) <$> rows
  = imap (fun i team => (k + i + 1, team)) lines.
Proof.
  revert rows k. induction lines as [|line lines IH]; intros rows k.
  - intros _ Hnil. apply fmap_nil_inv in Hnil. now subst.
  - destruct rows as [|row rows]; [discriminate|].
    rewrite !fmap_cons. cbn [length seq imap].
    intros [= Hrank Hranks] [= Hline Hlines].
    rewrite Hrank, Hline.
    replace (k + 0 + 1) with (k + 1) by lia. f_equal.
    rewrite (IH rows (S k)); [|rewrite Hranks; f_equal; lia|exact Hlines].
    apply imap_ext. intros i team _. simpl. f_equal. lia.
Qed.

(** X19. The pages of the standings panel, with the global [tFull] that
    carries the logo name. When there are teams and the first of them is
    found among the league's teams, or [tFull] exists already, nothing is
    thrown: every chunk becomes a page that shows its own teams, the ranks
    written beside the teams, read page after page, are 1, 2, 3 and so on
    in the sorted order, and each row has the colour, the name and the logo
    name of the first league team of the same full name, or the colour
    [000000] and an empty name when there is none. When [tFull] does not
    exist and the first team is not found, reading [tFull] throws before
    any page is exported. Without teams no page is made. *)
Theorem standingsPages_ranks teams tFull standings :
  let run := standingsPages teams tFull standings in
  (forall first rest, standings = first :: rest ->
     tFull <> None \/ findTeam teams first <> None ->
     thrown run = false
     /\ (fun row : Row => (Row.rank row, Row.line row)) <$> concat (exported run)
        = imap (fun i team => (i + 1, team)) standings
     /\ Row.rank <$> concat (exported run) = seq 1 (length standings)
     /\ (fun page : list Row => Row.line <$> page) <$> exported run
        = standingsChunks standings
     /\ Forall2 (Forall2 (row_of teams)) (standingsChunks standings)
                (exported run))
  /\ (forall first rest, standings = first :: rest ->
        tFull = None -> findTeam teams first = None ->
        thrown run = true /\ exported run = [])
  /\ (standings = [] -> thrown run = false /\ exported run = []).
Proof.
  cbv zeta. unfold standingsPages, standingsChunks.
  destruct (splitIntoChunks_covers standings MAX_TEAMS_PER_CHUNK)
    as [Hconcat Hfull]; [unfold MAX_TEAMS_PER_CHUNK; lia|].
  split; [|split].
  - intros first rest -> Hfirst.
    specialize (Hfull ltac:(discriminate)).
    remember (splitIntoChunks MAX_TEAMS_PER_CHUNK (first :: rest)) as chunks
      eqn:Hchunks.
    assert (exists lines others, chunks = (first :: lines) :: others)
      as (lines & others & Hshape).
    { destruct chunks as [|[|line lines] others]; try discriminate.
      - now apply Forall_cons in Hfull as [? _].
      - injection Hconcat as -> _. now eexists _, _. }
    destruct (pages_defined teams tFull 0 chunks Hfull)
      as (Hthrown & Hranks & Hall).
    { destruct Hfirst as [?|?]; [now left|right].
      now exists first, lines, others. }
    rewrite Hconcat in Hranks.
    assert ((fun page : list Row => Row.line <$> page)
              <$> exported (pages teams tFull 0 chunks) = chunks) as Hlines.
    { clear -Hall. induction Hall as [|chunk page ? ? Hpage _ IH];
        [reflexivity|].
      now rewrite fmap_cons, (Forall2_row_lines _ _ _ Hpage), IH. }
    split; [exact Hthrown|]. split; [|split; [exact Hranks|]].
    + assert (Row.line <$> concat (exported (pages teams tFull 0 chunks))
              = first :: rest) as Hflat.
      { now rewrite concat_row_lines, Hlines. }
      rewrite (ranked_lines _ (first :: rest) 0 Hranks Hflat).
      apply imap_ext. intros i team _. reflexivity.
    + split; [exact Hlines|exact Hall].
  - intros first rest -> -> Hmiss.
    specialize (Hfull ltac:(discriminate)).
    destruct (splitIntoChunks MAX_TEAMS_PER_CHUNK (first :: rest))
      as [|[|line lines] others]; try discriminate.
    + now apply Forall_cons in Hfull as [? _].
    + injection Hconcat as -> _. cbn [pages length Nat.eqb renderRows].
      assert (renderRow teams None (0 + (0 + 1)) first = None) as ->
        by now apply renderRow_throws.
      split; reflexivity.
  - intros ->. split; reflexivity.
Qed.

End PageRunFacts.

(** Two teams, the first of them unknown to the league: with no [tFull]
    the panel throws before any page; with a [tFull] left by an earlier
    run it writes both rows, and the unknown team gets the logo name of
    that run. *)
Lemma standingsPages_ranks_witness :
  let teams := [StandingsPages.sampleTeam "Bears" "aa0000"] in
  let standings :=
    [StandingsPages.sampleLine "Owls"; StandingsPages.sampleLine "Bears"] in
  (StandingsPages.thrown (StandingsPages.standingsPages teams None standings)
   = true
   /\ StandingsPages.exported
        (StandingsPages.standingsPages teams None standings) = [])
  /\ (StandingsPages.Row.rank
        <$> concat (StandingsPages.exported
                      (StandingsPages.standingsPages teams
                         (Some (Js.Str "Hawks")) standings))
      = [1; 2]
      /\ StandingsPages.Row.logo
           <$> concat (StandingsPages.exported
                         (StandingsPages.standingsPages teams
                            (Some (Js.Str "Hawks")) standings))
         = [Js.Str "Hawks"; Js.Str "Bears"]).
Proof.
  cbv zeta. split.
  - destruct (standingsPages_ranks
                [StandingsPages.sampleTeam "Bears" "aa0000"] None
                [StandingsPages.sampleLine "Owls";
                 StandingsPages.sampleLine "Bears"]) as (_ & Hthrow & _).
    apply (Hthrow _ _ eq_refl eq_refl). vm_compute. reflexivity.
  - destruct (standingsPages_ranks
                [StandingsPages.sampleTeam "Bears" "aa0000"]
                (Some (Js.Str "Hawks"))
                [StandingsPages.sampleLine "Owls";
                 StandingsPages.sampleLine "Bears"]) as (Hok & _).
    destruct (Hok _ _ eq_refl) as (_ & _ & Hranks & _);
      [left; discriminate|].
    split; [exact Hranks|]. vm_compute. reflexivity.
Defined.

Section LogoFileFacts.
Import Js LogoFile.
Local Open Scope Z_scope.

Lemma toInt32_shift x k : toInt32 (x + k * 2 ^ 32) = toInt32 x.
Proof.
  unfold toInt32.
  replace (x + k * 2 ^ 32 + 2 ^ 31) with (x + 2 ^ 31 + k * 2 ^ 32) by ring.
  now rewrite Z_mod_plus_full.
Qed.

Lemma toInt32_rep x : exists k, toInt32 x = x + k * 2 ^ 32.
Proof.
  exists (- ((x + 2 ^ 31) / 2 ^ 32)). unfold toInt32.
  rewrite Z.mod_eq by lia. ring.
Qed.

Lemma toInt32_range x : - 2 ^ 31 <= toInt32 x < 2 ^ 31.
Proof.
  unfold toInt32.
  pose proof (Z.mod_pos_bound (x + 2 ^ 31) (2 ^ 32) ltac:(lia)). lia.
Qed.

Lemma hash_step_31 acc char :
  hash_step (toInt32 acc) char = toInt32 (31 * acc + charCodeAt0 char).
Proof.
  unfold hash_step, band, shl. cbv zeta. rewrite Z.land_diag.
  rewrite Z.shiftl_mul_pow2 by lia.
  destruct (toInt32_rep acc) as [k1 Hk1].
  destruct (toInt32_rep (toInt32 acc)) as [k2 Hk2].
  destruct (toInt32_rep (toInt32 (toInt32 acc) * 2 ^ 5)) as [k3 Hk3].
  rewrite Hk3, Hk2, Hk1.
  replace ((acc + k1 * 2 ^ 32 + k2 * 2 ^ 32) * 2 ^ 5 + k3 * 2 ^ 32
           - (acc + k1 * 2 ^ 32) + charCodeAt0 char)
    with (31 * acc + charCodeAt0 char
          + (31 * k1 + 32 * k2 + k3) * 2 ^ 32) by ring.
  apply toInt32_shift.
Qed.

Lemma hash_loop chars acc :
  foldl hash_step (toInt32 acc) chars
  = toInt32 (foldl (fun a char => 31 * a + charCodeAt0 char) acc chars).
Proof.
  revert acc. induction chars as [|char chars IH]; intros acc; simpl.
  - reflexivity.
  - now rewrite hash_step_31, IH.
Qed.

(** X20. The hash that [downloadLogoFromUrl] takes of an address is the
    polynomial in 31 of its code units (first unit, highest power), reduced
    to a signed 32-bit integer; it lies between [-2^31] and [2^31 - 1], so
    that its absolute value, the number at the front of the file name, is
    at most [2^31]. *)
Theorem urlHash_polynomial url :
  urlHash url = toInt32 (poly31 url)
  /\ - 2 ^ 31 <= urlHash url < 2 ^ 31
  /\ 0 <= Z.abs (urlHash url) <= 2 ^ 31.
Proof.
  assert (urlHash url = toInt32 (poly31 url)) as Hhash.
  { unfold urlHash, poly31. now rewrite <- hash_loop. }
  split; [exact Hhash|].
  pose proof (toInt32_range (poly31 url)) as Hrange.
  rewrite <- Hhash in Hrange. lia.
Qed.

Lemma allSafe_app a b : allSafe (a +:+ b) = allSafe a && allSafe b.
Proof.
  induction a as [|c a IH]; simpl; [reflexivity|].
  now rewrite IH, andb_assoc.
Qed.

Lemma allSafe_digits d :
  allSafe (DecimalString.NilEmpty.string_of_uint d) = true.
Proof. induction d; simpl; auto. Qed.

Lemma allSafe_numberText n : allSafe (numberText n) = true.
Proof.
  unfold numberText, DecimalString.NilZero.string_of_uint.
  destruct (N.to_uint (Z.to_N n)); try apply allSafe_digits. reflexivity.
Qed.

Lemma allSafe_replaceUnsafe s : allSafe (replaceUnsafe s) = true.
Proof.
  induction s as [|c s IH]; simpl; [reflexivity|].
  rewrite IH, andb_true_r. now destruct (isSafeChar c) eqn:Hc.
Qed.

Lemma replaceUnsafe_safe s : allSafe s = true -> replaceUnsafe s = s.
Proof.
  induction s as [|c s IH]; simpl; [reflexivity|].
  intros [Hc Hs]%andb_true_iff. now rewrite Hc, IH.
Qed.

Lemma allSafe_occurs s c : allSafe s = true -> occurs c s = true ->
  isSafeChar c = true.
Proof.
  induction s as [|d s IH]; simpl; [discriminate|].
  intros [Hd Hs]%andb_true_iff [Hc|Hc]%orb_true_iff.
  - apply bool_decide_eq_true_1 in Hc. now subst.
  - now apply IH.
Qed.

(** X21. The name of the temporary file of a downloaded logo is made of
    letters, digits, dots, underscores and hyphens only, whatever the
    address: it holds no slash, no space and no percent sign. It is the
    absolute value of the hash, an underscore and the last part of the
    address, and a last part that is already made of such characters is
    kept as it is. *)
Theorem safeFilename_safe url :
  allSafe (safeFilename url) = true
  /\ (forall c, occurs c (safeFilename url) = true -> isSafeChar c = true)
  /\ occurs "/" (safeFilename url) = false
  /\ (allSafe (originalFilename url) = true ->
        safeFilename url
        = numberText (Z.abs (urlHash url)) +:+ "_" +:+ originalFilename url).
Proof.
  assert (allSafe (safeFilename url) = true) as Hsafe.
  { unfold safeFilename.
    now rewrite !allSafe_app, allSafe_numberText, allSafe_replaceUnsafe. }
  split; [exact Hsafe|]. split; [|split].
  - intros c. now apply allSafe_occurs.
  - destruct (occurs "/" (safeFilename url)) eqn:Hocc; [|reflexivity].
    now apply (allSafe_occurs _ _ Hsafe) in Hocc.
  - intros Horig. unfold safeFilename. now rewrite replaceUnsafe_safe.
Qed.

End LogoFileFacts.

Section ScheduleFacts.
Import Js LogoHandler Sheets.
Variable Number : jsval -> num.
Implicit Types (w : World) (net : network) (name : jsval).
Implicit Types (row headerRow : list string) (divs : list Division).

Lemma schedule_loop divs headerMap (games : list Game) rows :
  foldl (schedule_step Number divs headerMap) games rows
  = games ++ (gameOfRow divs headerMap
                <$> filter (fun row => keepsGame Number headerMap row = true)
                           rows).
Proof.
  apply push_loop. intros out row. unfold schedule_step, keepsGame.
  cbv zeta. destruct (length row =? 0); simpl; [reflexivity|].
  now destruct (skipsWeek _).
Qed.

(** X22. [loadSchedule] gives the empty schedule with week 0 and year 0
    whenever the schedule sheet cannot be read or has fewer than three
    rows, also when its second row holds a week and a year; in both cases
    it stops there, without asking for the divisions. *)
Theorem loadSchedule_short_sheet net name w :
  let read := getScheduleSheet net name w in
  (forall e, read.1 = Failed e ->
     loadSchedule Number net name w = (noSchedule, read.2))
  /\ (forall scheduleRead, read.1 = Ok scheduleRead ->
        length scheduleRead < 3 ->
        loadSchedule Number net name w = (noSchedule, read.2)).
Proof.
  cbv zeta. unfold loadSchedule.
  destruct (getScheduleSheet net name w) as [[scheduleRead|e] w1]; simpl.
  - split; [discriminate|]. intros ? [= <-] Hshort.
    destruct (scheduleRead !! 1) as [weekRow|]; [|reflexivity].
    destruct (scheduleRead !! 2) as [headerRow|] eqn:Hheader; [|reflexivity].
    apply lookup_lt_Some in Hheader. lia.
  - split; [reflexivity|discriminate].
Qed.

(** X23. From a schedule sheet of at least three rows, [loadSchedule] takes
    the week and the year from the third and fourth cell of the second
    row, and builds a game from every row from the third on that is not
    empty and whose Week cell converts to a number that is neither [NaN]
    nor negative, in the order of the sheet; the header is the third row,
    and the divisions are those that [loadDivisionInfo] gives after the
    sheet is read. *)
Theorem loadSchedule_games net name w scheduleRead weekRow headerRow :
  (getScheduleSheet net name w).1 = Ok scheduleRead ->
  scheduleRead !! 1 = Some weekRow ->
  scheduleRead !! 2 = Some headerRow ->
  let w1 := (getScheduleSheet net name w).2 in
  let divs := (loadDivisionInfo net name w1).1 in
  let headerMap := createHeaderMap headerRow in
  let loaded := (loadSchedule Number net name w).1 in
  Schedule.schedule loaded
  = gameOfRow divs headerMap
      <$> filter (fun row => keepsGame Number headerMap row = true)
                 (drop 2 scheduleRead)
  /\ Schedule.week loaded = Number (cellAt weekRow 2)
  /\ Schedule.year loaded = Number (cellAt weekRow 3)
  /\ forall game, game ∈ Schedule.schedule loaded ->
       skipsWeek (Number (Game.week game)) = false.
Proof.
  intros Hread HweekRow Hheader. cbv zeta. unfold loadSchedule.
  destruct (getScheduleSheet net name w) as [read w1]. simpl in Hread |- *.
  subst read. rewrite HweekRow, Hheader.
  destruct (loadDivisionInfo net name w1) as [divs w2]. simpl.
  rewrite schedule_loop. simpl.
  repeat split.
  intros game (row & -> & Hrow)%list_elem_of_fmap.
  apply list_elem_of_filter in Hrow as [Hkeep _].
  unfold keepsGame in Hkeep. apply andb_true_iff in Hkeep as [_ Hweek].
  now apply negb_true_iff in Hweek.
Qed.

Lemma last_occurrence (columnName : string) headerRow :
  columnName ∈ headerRow ->
  exists j, headerRow !! j = Some columnName
            /\ forall k, j < k -> headerRow !! k <> Some columnName.
Proof.
  induction headerRow as [|first rest IH]; intros Hin.
  - now apply elem_of_nil in Hin.
  - destruct (decide (columnName ∈ rest)) as [Hrest|Hrest].
    + destruct (IH Hrest) as (j & Hj & Hlast). exists (S j).
      split; [exact Hj|]. intros [|k] Hk; [lia|]. apply Hlast. lia.
    + apply elem_of_cons in Hin as [->|Hin]; [|contradiction].
      exists 0. split; [reflexivity|]. intros [|k] Hk; [lia|].
      simpl. intros Hsome. apply Hrest.
      now apply list_elem_of_lookup_2 in Hsome.
Qed.

(** X24. The loop of [loadSchedule] starts at the header row itself. When
    the header names a Week column, the header row is passed over, as its
    Week cell is the text Week, which is not a number. When it names none,
    every Week cell reads as the empty text, which converts to 0, and the
    header row, if not empty, becomes the first game. *)
Theorem loadSchedule_header_row divs headerRow rows :
  let headerMap := createHeaderMap headerRow in
  let games :=
    foldl (schedule_step Number divs headerMap) [] (headerRow :: rows) in
  let others := foldl (schedule_step Number divs headerMap) [] rows in
  (Number (Str "Week") = NaN -> "Week" ∈ headerRow -> games = others)
  /\ (Number (Str "") = Fin 0 -> "Week" ∉ headerRow -> headerRow <> [] ->
        games = gameOfRow divs headerMap headerRow :: others).
Proof.
  cbv zeta. simpl. split.
  - intros Hnan Hin. f_equal. unfold schedule_step at 1. cbv zeta.
    destruct (length headerRow =? 0); [reflexivity|].
    destruct (last_occurrence "Week" headerRow Hin) as (j & Hj & Hlast).
    assert (getValue headerRow "Week" (createHeaderMap headerRow)
            = Str "Week") as ->.
    { unfold getValue, createHeaderMap.
      rewrite (createHeaderMap_from_last 0 headerRow ∅ "Week" j)
        by (assumption || discriminate).
      simpl. now rewrite Hj. }
    now rewrite Hnan.
  - intros Hzero Hnot Hne.
    unfold schedule_step at 2. cbv zeta.
    destruct (length headerRow =? 0) eqn:Hlen.
    { apply Nat.eqb_eq in Hlen. now destruct headerRow. }
    assert (getValue headerRow "Week" (createHeaderMap headerRow) = Str "")
      as Hweek.
    { unfold getValue, createHeaderMap.
      now rewrite createHeaderMap_from_absent, lookup_empty. }
    rewrite Hweek, Hzero. simpl. now rewrite !schedule_loop.
Qed.

End ScheduleFacts.

(** The sample schedule: week 5 of 2024, one game kept, the header row and
    the row with the week to be decided passed over. *)
Lemma loadSchedule_games_witness :
  let loaded :=
    (Sheets.loadSchedule Sheets.digitsNumber Sheets.sampleNet (Js.Str "NHL")
       Sheets.emptyWorld).1 in
  Sheets.Game.team1 <$> Sheets.Schedule.schedule loaded = [Js.Str "Bears"]
  /\ Sheets.Game.div1 <$> Sheets.Schedule.schedule loaded = [Js.Str "ATL"]
  /\ Sheets.Schedule.week loaded = Js.Fin (inject_Z 5).
Proof.
  destruct (loadSchedule_games Sheets.digitsNumber Sheets.sampleNet
              (Js.Str "NHL") Sheets.emptyWorld
              [["ALL GAMES"]; [""; ""; "5"; "2024"];
               ["Week"; "Team 1"; "Div 1"];
               ["5"; "Bears"; "East Atlantic"];
               ["tbd"; "Owls"; "East Atlantic"]]
              [""; ""; "5"; "2024"] ["Week"; "Team 1"; "Div 1"])
    as (Hgames & Hweek & _).
  - vm_compute. reflexivity.
  - reflexivity.
  - reflexivity.
  - cbv zeta. rewrite Hgames, Hweek. vm_compute. repeat split.
Defined.

(** A sheet of two rows: the week 5 of its second row is not returned. *)
Lemma loadSchedule_short_sheet_witness :
  (Sheets.loadSchedule Sheets.digitsNumber Sheets.shortNet (Js.Str "NHL")
     Sheets.emptyWorld).1 = Sheets.noSchedule.
Proof.
  destruct (loadSchedule_short_sheet Sheets.digitsNumber Sheets.shortNet
              (Js.Str "NHL") Sheets.emptyWorld) as [_ Hshort].
  rewrite (Hshort [["ALL GAMES"]; [""; ""; "5"; "2024"]]).
  - reflexivity.
  - vm_compute. reflexivity.
  - simpl. lia.
Defined.

(** A header without a Week column is itself listed as a game. *)
Lemma loadSchedule_header_row_witness :
  Sheets.Game.team1
    <$> foldl (Sheets.schedule_step Sheets.digitsNumber []
                 (LogoHandler.createHeaderMap ["Team 1"]))
              [] [["Team 1"]; ["Bears"]]
  = [Js.Str "Team 1"; Js.Str "Bears"].
Proof.
  destruct (loadSchedule_header_row Sheets.digitsNumber [] ["Team 1"]
              [["Bears"]]) as [_ Hlisted].
  cbv zeta in Hlisted. rewrite Hlisted.
  - vm_compute. reflexivity.
  - reflexivity.
  - intros Hin. apply list_elem_of_singleton in Hin. discriminate.
  - discriminate.
Defined.

Section UserDivisionFacts.
Import Js LogoHandler Sheets.
Variable toUpperCase : string -> string.
Implicit Types (divs : list Division) (userDiv fieldText : string).

Lemma abbreviationToFullName_miss divs userDiv :
  (forall d, d ∈ divs -> abb d <> Str userDiv) ->
  abbreviationToFullName divs userDiv = userDiv.
Proof.
  induction divs as [|d rest IH]; intros Hnone; [reflexivity|].
  simpl. unfold strict_eq. rewrite bool_decide_eq_false_2.
  - apply IH. intros d' Hd'. apply Hnone. now right.
  - intros Heq. apply (Hnone d); [left|congruence].
Qed.

Lemma abbreviationToFullName_hit divs userDiv d :
  d ∈ divs -> abb d = Str userDiv ->
  exists d', d' ∈ divs /\ abb d' = Str userDiv
             /\ Str (abbreviationToFullName divs userDiv)
                = fullNameOfDivision d'.
Proof.
  induction divs as [|first rest IH]; intros Hin Habb.
  - now apply elem_of_nil in Hin.
  - simpl. unfold strict_eq. case_bool_decide as Hfirst.
    + exists first. split; [left|]. split; [congruence|reflexivity].
    + apply elem_of_cons in Hin as [->|Hin]; [congruence|].
      destruct (IH Hin Habb) as (d' & Hd' & Habb' & Hname).
      exists d'. split; [now right|]. now split.
Qed.

Lemma firstMatch_finds divs (label : jsval) d :
  d ∈ divs -> fullNameOfDivision d = label ->
  exists d', firstMatch divs label = Some d'
             /\ fullNameOfDivision d' = label.
Proof.
  intros Hin Hname. unfold firstMatch.
  induction divs as [|first rest IH]; [now apply elem_of_nil in Hin|].
  simpl. unfold strict_eq at 1. case_bool_decide as Hfirst.
  - exists first. split; [reflexivity|congruence].
  - apply elem_of_cons in Hin as [->|Hin]; [congruence|]. now apply IH.
Qed.

(** X25. What [getUserDivision] makes of the division field. A blank field
    stands for [ALL]. When no division has the typed text (trimmed and
    upper-cased) as its abbreviation, the text itself is returned. When a
    division has, the full name of a division with that abbreviation is
    returned, and the search of the standings panel for a division of that
    full name succeeds. *)
Theorem getUserDivision_selects divs fieldText :
  let typed := toUpperCase (trim fieldText) in
  let userDiv := if bool_decide (typed = "") then "ALL" else typed in
  ((forall d, d ∈ divs -> abb d <> Str userDiv) ->
     getUserDivision toUpperCase divs fieldText = userDiv)
  /\ (forall d, d ∈ divs -> abb d = Str userDiv ->
        exists d',
          d' ∈ divs /\ abb d' = Str userDiv
          /\ Str (getUserDivision toUpperCase divs fieldText)
             = fullNameOfDivision d'
          /\ exists found,
               firstMatch divs
                 (Str (getUserDivision toUpperCase divs fieldText))
               = Some found
               /\ fullNameOfDivision found = fullNameOfDivision d').
Proof.
  cbv zeta. unfold getUserDivision. cbv zeta. split.
  - apply abbreviationToFullName_miss.
  - intros d Hin Habb.
    destruct (abbreviationToFullName_hit divs _ d Hin Habb)
      as (d' & Hd' & Habb' & Hname).
    exists d'. split; [exact Hd'|]. split; [exact Habb'|].
    split; [exact Hname|].
    destruct (firstMatch_finds divs _ d' Hd' (eq_sym Hname))
      as (found & Hfound & Hfname).
    exists found. split; [exact Hfound|]. congruence.
Qed.

End UserDivisionFacts.

(** The field holds an abbreviation in lower case with spaces around. *)
Lemma getUserDivision_selects_witness :
  Sheets.getUserDivision Sheets.upperAscii
    [LogoHandler.mkDivision "East" "Atlantic" "ATL";
     LogoHandler.mkDivision "West" "Pacific" "PAC"] " pac "
  = "West Pacific".
Proof.
  destruct (getUserDivision_selects Sheets.upperAscii
              [LogoHandler.mkDivision "East" "Atlantic" "ATL";
               LogoHandler.mkDivision "West" "Pacific" "PAC"] " pac ")
    as [_ Hhit].
  destruct (Hhit (LogoHandler.mkDivision "West" "Pacific" "PAC"))
    as (d' & Hd' & Habb & Hname & _).
  - right. left.
  - reflexivity.
  - vm_compute. reflexivity.
Defined.

Section ColourFacts.
Import Js Colour.
Local Open Scope Z_scope.

(** A digit of base 16 is none of the characters that [hexToRgb] and
    [parseInt] treat specially. *)
Lemma hexDigit_plain c v :
  hexDigit c = Some v ->
  is_ws c = false
  /\ bool_decide (c = "#"%char) = false
  /\ bool_decide (c = "-"%char) = false
  /\ bool_decide (c = "+"%char) = false
  /\ bool_decide (c = "x"%char) = false
  /\ bool_decide (c = "X"%char) = false
  /\ 0 <= v <= 15.
Proof.
  destruct c as [[] [] [] [] [] [] [] []]; vm_compute;
    intros Hv; try discriminate Hv;
    injection Hv as <-; repeat split; discriminate.
Qed.

Lemma parseInt16_pair c d v u :
  hexDigit c = Some v -> hexDigit d = Some u ->
  parseInt16 (String c (String d "")) = Fin (inject_Z (16 * v + u)).
Proof.
  intros Hc Hd.
  destruct (hexDigit_plain c v Hc) as (Hws & _ & Hminus & Hplus & _).
  destruct (hexDigit_plain d u Hd) as (_ & _ & _ & _ & Hx & HX & _).
  unfold parseInt16. simpl trimStart. rewrite Hws. cbv zeta.
  rewrite Hminus, Hplus. simpl orb. cbv iota.
  rewrite Hx, HX, andb_false_r. simpl. now rewrite Hc, Hd.
Qed.

Lemma trim_digits s :
  (forall c, occurs c s = true -> is_ws c = false) -> trim s = s.
Proof.
  intros Hplain. unfold trim.
  assert (trimStart s = s) as ->.
  { destruct s as [|c s]; [reflexivity|]. simpl.
    rewrite Hplain; [reflexivity|]. simpl.
    now rewrite bool_decide_eq_true_2. }
  induction s as [|c s IH]; [reflexivity|].
  rewrite trimEnd_cons, IH.
  - destruct s; [|reflexivity].
    rewrite Hplain; [reflexivity|]. simpl.
    now rewrite bool_decide_eq_true_2.
  - intros d Hd. apply Hplain. simpl. rewrite Hd. apply orb_true_r.
Qed.

(** X26. [hexToRgb] reads a colour of six digits of base 16, with or
    without a number sign in front, as the three numbers of its pairs of
    digits, each from 0 to 255; a colour that is missing or empty is
    read as black. *)
Theorem hexToRgb_six_digits c1 c2 c3 c4 c5 c6 v1 v2 v3 v4 v5 v6 :
  hexDigit c1 = Some v1 -> hexDigit c2 = Some v2 ->
  hexDigit c3 = Some v3 -> hexDigit c4 = Some v4 ->
  hexDigit c5 = Some v5 -> hexDigit c6 = Some v6 ->
  let hex :=
    String c1 (String c2 (String c3 (String c4 (String c5 (String c6 "")))))
  in
  let colour :=
    {| r := Fin (inject_Z (16 * v1 + v2));
       g := Fin (inject_Z (16 * v3 + v4));
       b := Fin (inject_Z (16 * v5 + v6)) |} in
  hexToRgb (Str hex) = colour
  /\ hexToRgb (Str (String "#" hex)) = colour
  /\ (0 <= 16 * v1 + v2 <= 255 /\ 0 <= 16 * v3 + v4 <= 255
      /\ 0 <= 16 * v5 + v6 <= 255)
  /\ hexToRgb Undefined = hexToRgb (Str "000000").
Proof.
  intros H1 H2 H3 H4 H5 H6 hex colour.
  pose proof (hexDigit_plain _ _ H1) as (W1 & Hash1 & _ & _ & _ & _ & R1).
  pose proof (hexDigit_plain _ _ H2) as (W2 & _ & _ & _ & _ & _ & R2).
  pose proof (hexDigit_plain _ _ H3) as (W3 & _ & _ & _ & _ & _ & R3).
  pose proof (hexDigit_plain _ _ H4) as (W4 & _ & _ & _ & _ & _ & R4).
  pose proof (hexDigit_plain _ _ H5) as (W5 & _ & _ & _ & _ & _ & R5).
  pose proof (hexDigit_plain _ _ H6) as (W6 & _ & _ & _ & _ & _ & R6).
  assert (trim hex = hex) as Htrim.
  { apply trim_digits. intros c Hc. subst hex. simpl in Hc.
    repeat (apply orb_prop in Hc; destruct Hc as [Hc|Hc]);
      try discriminate Hc; apply bool_decide_eq_true_1 in Hc; now subst. }
  assert ({| r := parseInt16 (hexPair hex 0);
             g := parseInt16 (hexPair hex 2);
             b := parseInt16 (hexPair hex 4) |} = colour) as Hparts.
  { subst hex colour. unfold hexPair. simpl String.substring.
    rewrite !bool_decide_eq_false_2 by discriminate.
    now rewrite (parseInt16_pair c1 c2 v1 v2), (parseInt16_pair c3 c4 v3 v4),
      (parseInt16_pair c5 c6 v5 v6). }
  split; [|split; [|split; [lia|reflexivity]]].
  - assert (match hex with
            | String c rest =>
                if bool_decide (c = "#"%char) then rest else hex
            | EmptyString => hex
            end = hex) as Hstrip by (unfold hex; now rewrite Hash1).
    unfold hexToRgb. cbv zeta.
    assert (falsy (Str hex) = false) as -> by reflexivity.
    simpl to_string. now rewrite !Hstrip, !Htrim.
  - unfold hexToRgb. cbv zeta.
    assert (falsy (Str (String "#" hex)) = false) as -> by reflexivity.
    simpl to_string. cbv iota.
    rewrite !(bool_decide_eq_true_2 ("#"%char = "#"%char)) by reflexivity.
    now rewrite !Htrim.
Qed.

End ColourFacts.

(** The colour 1a2B3c is 26, 43, 60. *)
Lemma hexToRgb_six_digits_witness :
  Colour.hexToRgb (Js.Str "#1a2B3c")
  = {| Colour.r := Js.Fin (inject_Z 26); Colour.g := Js.Fin (inject_Z 43);
       Colour.b := Js.Fin (inject_Z 60) |}.
Proof.
  apply (hexToRgb_six_digits "1" "a" "2" "B" "3" "c" 1 10 2 11 3 12);
    reflexivity.
Defined.
